(** * SingleLinkedList: a heap model of the singly linked list container

    The repository holds two near-identical variants of one header:
    [single-linked-list/single-linked-list.h] and an unnamed second copy.
    Both are embedded here over one explicit store: a heap of [Node]s
    addressed by [Node*] values, and the live [SingleLinkedList] objects,
    each holding its sentinel [head_] and its [size_] counter.  Member
    functions are state transformers in a small monad whose results tell a
    normal return from a thrown exception, a failed [assert] and undefined
    behaviour. *)

From stdpp Require Import ssreflect numbers gmap.

#[local] Set Warnings "-rewrite-rw".
Local Open Scope Z_scope.

(** Heap addresses of nodes made by [new Node], and identities of list
    objects (the address of the object, hence of its sentinel [head_]). *)
Abbreviation addr := positive (only parsing).
Abbreviation lid := positive (only parsing).

(** [size_t] is taken to be 64 bits wide; [++] and [--] wrap around. *)
Definition size_t_modulus : Z := 2 ^ 64.
Definition wrap (z : Z) : Z := z mod size_t_modulus.

(** The two source files. *)
Inductive variant : Set :=
| header    (* single-linked-list/single-linked-list.h *)
| part_000. (* the unnamed second copy *)

(** A non-null [Node*]: the sentinel embedded in a list object, or a node
    on the heap. *)
Inductive NodePtr : Set :=
| AtHead (l : lid)
| AtNode (a : addr).

Global Instance NodePtr_eq_dec : EqDecision NodePtr.
Proof. solve_decision. Defined.

(** [BasicIterator]: its only field is [node_]; [None] is [nullptr]. *)
Abbreviation Iterator := (option NodePtr) (only parsing).

Section SingleLinkedList.

(** The element type with the operations the templates use on it. *)
Variable Type_ : Type.
(** Whether copy-constructing a [Type] from this value throws. *)
Variable copy_throws : Type_ → bool.
(** [operator==], [operator!=], [operator<] and [operator>] of [Type]. *)
Variable eq_op ne_op lt_op gt_op : Type_ → Type_ → bool.
(** Number of nodes the free store can hold: [new] throws
    [std::bad_alloc] once that many are live. *)
Variable capacity : nat.

(** [struct Node].  The code only ever stores into a [next_node] field
    the result of a [new Node], the content of another [next_node] field
    or [nullptr], so the field is a heap address or null. *)
Record Node := mkNode { value : Type_; next_node : option addr }.

(** A list object: [head_next_node] is [head_.next_node] (the value slot
    of the sentinel is never read). *)
Record SingleLinkedList :=
  mkList { head_next_node : option addr; size_ : Z }.

Record store := mkStore {
  nodes : gmap positive Node;
  lists : gmap positive SingleLinkedList }.

Definition empty_store : store := mkStore ∅ ∅.

(** ** Outcomes and the monad of member functions *)

Inductive result (A : Type) : Type :=
| Ok (σ : store) (a : A)   (* normal return *)
| Throws (σ : store)       (* an exception leaves the call *)
| AssertFail               (* a failed [assert] aborts the program *)
| Undefined                (* null or dangling dereference *)
| OutOfFuel.               (* the model's loop bound was too small *)
Global Arguments Ok {A} σ a.
Global Arguments Throws {A} σ.
Global Arguments AssertFail {A}.
Global Arguments Undefined {A}.
Global Arguments OutOfFuel {A}.

Definition M (A : Type) : Type := store → result A.

Definition ret {A} (a : A) : M A := λ σ, Ok σ a.

Definition bind {A B} (c : M A) (k : A → M B) : M B :=
  λ σ, match c σ with
       | Ok σ' a => k a σ'
       | Throws σ' => Throws σ'
       | AssertFail => AssertFail
       | Undefined => Undefined
       | OutOfFuel => OutOfFuel
       end.

Notation "'let!' x ':=' c 'in' k" := (bind c (λ x, k))
  (at level 10, x name, c at level 100, k at level 200, only parsing).
Notation "c ';;' k" := (bind c (λ _, k))
  (at level 100, k at level 200, right associativity, only parsing).

Definition undefined {A} : M A := λ _, Undefined.
Definition throw {A} : M A := λ σ, Throws σ.

(** [assert(b)], compiled without NDEBUG. *)
Definition assert (b : bool) : M unit :=
  λ σ, if b then Ok σ tt else AssertFail.

(** Re-raise after [cleanup] when [c] throws. *)
Definition unwind {A} (c : M A) (cleanup : M unit) : M A :=
  λ σ, match c σ with
       | Throws σ' => match cleanup σ' with
                      | Ok σ'' _ => Throws σ''
                      | Throws σ'' => Throws σ''
                      | AssertFail => AssertFail
                      | Undefined => Undefined
                      | OutOfFuel => OutOfFuel
                      end
       | r => r
       end.

(** ** Memory accesses *)

(** A member function is called on a live object. *)
Definition live (this : lid) : M unit :=
  λ σ, match lists σ !! this with
       | Some _ => Ok σ tt
       | None => Undefined
       end.

(** Storage for a list object comes into being with the given members,
    and goes away. *)
Definition new_object (L : SingleLinkedList) : M lid :=
  λ σ, let l := fresh (dom (lists σ)) in
       Ok (mkStore (nodes σ) (<[l := L]> (lists σ))) l.

Definition destroy_object (this : lid) : M unit :=
  live this;; λ σ, Ok (mkStore (nodes σ) (delete this (lists σ))) tt.

(** [p->next_node] as an rvalue. *)
Definition load_next (σ : store) (p : NodePtr) : option (option addr) :=
  match p with
  | AtHead l => head_next_node <$> lists σ !! l
  | AtNode a => next_node <$> nodes σ !! a
  end.

Definition read_next (p : NodePtr) : M (option addr) :=
  λ σ, match load_next σ p with
       | Some nx => Ok σ nx
       | None => Undefined
       end.

(** [p->next_node = nx]. *)
Definition store_next (σ : store) (p : NodePtr) (nx : option addr) : store :=
  match p with
  | AtHead l =>
      mkStore (nodes σ)
              (alter (λ L, mkList nx (size_ L)) l (lists σ))
  | AtNode a =>
      mkStore (alter (λ n, mkNode (value n) nx) a (nodes σ))
              (lists σ)
  end.

Definition write_next (p : NodePtr) (nx : option addr) : M unit :=
  λ σ, match load_next σ p with
       | Some _ => Ok (store_next σ p nx) tt
       | None => Undefined
       end.

(** [p->value]; the sentinel's value slot is not modelled, reading it is
    the undefined behaviour the header's comments warn about. *)
Definition read_value (p : NodePtr) : M Type_ :=
  λ σ, match p with
       | AtHead _ => Undefined
       | AtNode a => match nodes σ !! a with
                     | Some n => Ok σ (value n)
                     | None => Undefined
                     end
       end.

Definition read_size (this : lid) : M Z :=
  λ σ, match lists σ !! this with
       | Some L => Ok σ (size_ L)
       | None => Undefined
       end.

Definition write_size (this : lid) (z : Z) : M unit :=
  λ σ, match lists σ !! this with
       | Some L =>
           Ok (mkStore (nodes σ)
                       (<[this := mkList (head_next_node L) z]> (lists σ))) tt
       | None => Undefined
       end.

(** [++size_] and [--size_] on a [size_t]. *)
Definition incr_size (this : lid) : M unit :=
  let! z := read_size this in write_size this (wrap (z + 1)).
Definition decr_size (this : lid) : M unit :=
  let! z := read_size this in write_size this (wrap (z - 1)).

(** [new Node(val, next)]: the allocation throws when the free store is
    exhausted; then [val] is copied into the node, and when that throws
    the new-expression gives the storage back; otherwise the node sits at
    an address that was not live. *)
Definition new_Node (val : Type_) (next : option addr) : M addr :=
  λ σ, if decide (size (nodes σ) < capacity)%nat then
         if copy_throws val then Throws σ
         else
           let a := fresh (dom (nodes σ)) in
           Ok (mkStore (<[a := mkNode val next]> (nodes σ)) (lists σ)) a
       else Throws σ.

(** [delete node] on a non-null pointer. *)
Definition delete_Node (a : addr) : M unit :=
  λ σ, match nodes σ !! a with
       | Some _ => Ok (mkStore (delete a (nodes σ)) (lists σ)) tt
       | None => Undefined
       end.

(** ** Queries and iterators *)

Definition GetSize (σ : store) (this : lid) : option Z :=
  size_ <$> lists σ !! this.

Definition IsEmpty (σ : store) (this : lid) : option bool :=
  (λ L, bool_decide (size_ L = 0)) <$> lists σ !! this.

Definition begin (σ : store) (this : lid) : option Iterator :=
  (λ L, AtNode <$> head_next_node L) <$> lists σ !! this.

Definition end_ : Iterator := None.

Definition before_begin (this : lid) : Iterator := Some (AtHead this).

(** [operator++] of an iterator; the header variant asserts [node_]. *)
Definition iter_next (w : variant) (it : Iterator) : M Iterator :=
  match w with header => assert (bool_decide (it ≠ None)) | part_000 => ret tt end;;
  match it with
  | None => undefined
  | Some p => let! nx := read_next p in ret (AtNode <$> nx)
  end.

(** [operator*] of an iterator. *)
Definition iter_deref (w : variant) (it : Iterator) : M Type_ :=
  match w with header => assert (bool_decide (it ≠ None)) | part_000 => ret tt end;;
  match it with
  | None => undefined
  | Some p => read_value p
  end.

(** The values met by [for (it = begin(); it != end(); ++it)], read off
    the heap from the first node on; [None] when a link dangles or the
    walk does not end within [fuel] nodes. *)
Fixpoint traverse (fuel : nat) (h : gmap positive Node) (node : option addr)
  : option (list Type_) :=
  match node with
  | None => Some []
  | Some a =>
      match fuel with
      | O => None
      | S fuel' =>
          match h !! a with
          | Some n => cons (value n) <$> traverse fuel' h (next_node n)
          | None => None
          end
      end
  end.

Definition traversal (σ : store) (this : lid) : option (list Type_) :=
  match lists σ !! this with
  | Some L => traverse (size (nodes σ)) (nodes σ) (head_next_node L)
  | None => None
  end.


(** ** Member functions *)

(** [PushFront]: [head_.next_node = new Node(value, head_.next_node);
    ++size_;]. *)
Definition PushFront (this : lid) (v : Type_) : M unit :=
  let! first := read_next (AtHead this) in
  let! new_node := new_Node v first in
  write_next (AtHead this) (Some new_node);;
  incr_size this.

(** The [while (node)] loop of [Clear].  Every round deletes a live node,
    so [fuel] rounds suffice when [fuel] is the number of live nodes. *)
Fixpoint Clear_loop (w : variant) (this : lid) (fuel : nat)
    (node : option addr) : M unit :=
  match node with
  | None => ret tt
  | Some a =>
      match fuel with
      | O => λ σ, match nodes σ !! a with
                  | Some _ => OutOfFuel
                  | None => Undefined
                  end
      | S fuel' =>
          let! next := read_next (AtNode a) in
          delete_Node a;;
          match w with header => ret tt | part_000 => decr_size this end;;
          Clear_loop w this fuel' next
      end
  end.

(** [Clear]: the header resets [size_] to 0 after the loop, the second
    copy decrements it once per released node. *)
Definition Clear (w : variant) (this : lid) : M unit :=
  let! node := read_next (AtHead this) in
  (λ σ, Clear_loop w this (size (nodes σ)) node σ);;
  match w with header => write_size this 0 | part_000 => ret tt end;;
  write_next (AtHead this) None.

(** [InsertAfter(pos, value)]. *)
Definition InsertAfter (w : variant) (this : lid) (pos : Iterator)
    (v : Type_) : M Iterator :=
  match w with
  | header => assert (bool_decide (pos ≠ None))
  | part_000 => ret tt
  end;;
  match pos with
  | None => undefined
  | Some p =>
      let! after := read_next p in
      let! new_node := new_Node v after in
      write_next p (Some new_node);;
      incr_size this;;
      ret (Some (AtNode new_node))
  end.

(** The removal of the first node, shared by both [PopFront]s. *)
Definition PopFront_body (this : lid) : M unit :=
  let! node_to_del := read_next (AtHead this) in
  match node_to_del with
  | None => undefined
  | Some a =>
      let! second := read_next (AtNode a) in
      write_next (AtHead this) second;;
      delete_Node a;;
      decr_size this
  end.

(** [PopFront]: only the header guards the removal with [if (size_)]. *)
Definition PopFront (w : variant) (this : lid) : M unit :=
  match w with
  | header =>
      let! sz := read_size this in
      if bool_decide (sz ≠ 0) then PopFront_body this else ret tt
  | part_000 => PopFront_body this
  end.

(** [EraseAfter(pos)]. *)
Definition EraseAfter (w : variant) (this : lid) (pos : Iterator)
  : M Iterator :=
  match w with
  | header =>
      assert (bool_decide (pos ≠ None));;
      let! sz := read_size this in
      assert (bool_decide (sz ≠ 0))
  | part_000 => ret tt
  end;;
  match pos with
  | None => undefined
  | Some p =>
      let! node_to_del := read_next p in
      match node_to_del with
      | None => undefined
      | Some a =>
          let! after := read_next (AtNode a) in
          write_next p after;;
          delete_Node a;;
          decr_size this;;
          let! now := read_next p in
          ret (AtNode <$> now)
      end
  end.

(** [swap].  The second copy exchanges the two [head_.next_node] fields
    and the two [size_] fields through temporaries.  The header applies
    [std::swap] to the address-of expressions [&head_.next_node],
    [&other.head_.next_node] and [&size_]: what would be exchanged are
    the temporary pointers, never the members (a conforming compiler
    rejects the call once the member is instantiated), so no field of
    either list changes. *)
Definition swap (w : variant) (this other : lid) : M unit :=
  match w with
  | header => live this;; live other;; ret tt
  | part_000 =>
      let! tmp_head := read_next (AtHead this) in
      let! other_head := read_next (AtHead other) in
      write_next (AtHead this) other_head;;
      write_next (AtHead other) tmp_head;;
      let! tmp_size := read_size this in
      let! other_size := read_size other in
      write_size this other_size;;
      write_size other tmp_size
  end.

(** ** Construction, destruction, assignment *)

(** [SingleLinkedList()]: [head_.next_node] is null by its default member
    initializer, the body sets [size_] to 0. *)
Definition SingleLinkedList_default : M lid :=
  let! this := new_object (mkList None 0) in
  write_size this 0;;
  ret this.

(** [const auto value = ...] of the range-for loops of the second copy:
    one more copy of the element, which may throw. *)
Definition copy_value (w : variant) (v : Type_) : M Type_ :=
  match w with
  | header => ret v
  | part_000 => if copy_throws v then throw else ret v
  end.

(** [node = node->next_node]. *)
Definition advance (node : NodePtr) : M NodePtr :=
  let! nx := read_next node in
  match nx with
  | None => undefined
  | Some a => ret (AtNode a)
  end.

(** The loop that builds the chain behind [node] from the array of an
    initializer list: [Construct(values.begin(), values.end())] in the
    header, the range-for of the constructor in the second copy. *)
Fixpoint Construct (w : variant) (node : NodePtr) (values : list Type_)
  : M unit :=
  match values with
  | [] => ret tt
  | x :: rest =>
      let! v := copy_value w x in
      let! new_node := new_Node v None in
      write_next node (Some new_node);;
      let! node' := advance node in
      Construct w node' rest
  end.

(** The same loop run over the iterators of another list. *)
Fixpoint Construct_iter (w : variant) (fuel : nat) (node : NodePtr)
    (it : Iterator) : M unit :=
  match it with
  | None => ret tt
  | Some _ =>
      match fuel with
      | O => λ _, OutOfFuel
      | S fuel' =>
          let! x := iter_deref w it in
          let! v := copy_value w x in
          let! new_node := new_Node v None in
          write_next node (Some new_node);;
          let! node' := advance node in
          let! it' := iter_next w it in
          Construct_iter w fuel' node' it'
      end
  end.

(** [SingleLinkedList(std::initializer_list<Type> values)].  When the
    loop throws, the object never comes to life: its storage goes away
    and no destructor runs, so the nodes built so far stay allocated. *)
Definition SingleLinkedList_init (w : variant) (values : list Type_)
  : M lid :=
  let! this := new_object (mkList None (Z.of_nat (length values))) in
  unwind (Construct w (AtHead this) values) (destroy_object this);;
  ret this.

(** [SingleLinkedList(const SingleLinkedList& other)].  A round of the
    loop takes one node from the free store, so it cannot run more often
    than there is room left. *)
Definition SingleLinkedList_copy (w : variant) (other : lid) : M lid :=
  let! sz := read_size other in
  let! first := read_next (AtHead other) in
  let! this := new_object (mkList None sz) in
  unwind (λ σ, Construct_iter w (S (capacity - size (nodes σ)))
                 (AtHead this) (AtNode <$> first) σ)
         (destroy_object this);;
  ret this.

(** [~SingleLinkedList()]. *)
Definition destructor (w : variant) (this : lid) : M unit :=
  Clear w this;; destroy_object this.

(** [operator=(const SingleLinkedList& rhs)]: copy, swap, and the copy
    is destroyed at the end of the block. *)
Definition assign (w : variant) (this rhs : lid) : M unit :=
  live this;; live rhs;;
  if bool_decide (this ≠ rhs) then
    let! tmp := SingleLinkedList_copy w rhs in
    swap w this tmp;;
    destructor w tmp
  else ret tt.

(** ** Comparison operators *)

(** [std::equal(first1, last1, first2)] with [operator==] on elements,
    [last1] being the end iterator.  Next to its answer the model
    returns the pairs of elements it compared, in order. *)
Fixpoint std_equal (w : variant) (fuel : nat) (first1 first2 : Iterator)
  : M (bool * list (Type_ * Type_)) :=
  match first1 with
  | None => ret (true, [])
  | Some _ =>
      match fuel with
      | O => λ _, OutOfFuel
      | S fuel' =>
          let! x := iter_deref w first1 in
          let! y := iter_deref w first2 in
          if negb (eq_op x y) then ret (false, [(x, y)])
          else
            let! first1' := iter_next w first1 in
            let! first2' := iter_next w first2 in
            let! r := std_equal w fuel' first1' first2' in
            ret (r.1, (x, y) :: r.2)
      end
  end.

(** The comparison loop of [operator==] in the second copy, which tests
    [*lhs_iter != *rhs_iter] and advances [rhs_iter] in the body. *)
Fixpoint equal_loop (w : variant) (fuel : nat) (lhs_iter rhs_iter : Iterator)
  : M (bool * list (Type_ * Type_)) :=
  match lhs_iter with
  | None => ret (true, [])
  | Some _ =>
      match fuel with
      | O => λ _, OutOfFuel
      | S fuel' =>
          let! x := iter_deref w lhs_iter in
          let! y := iter_deref w rhs_iter in
          if ne_op x y then ret (false, [(x, y)])
          else
            let! rhs_iter' := iter_next w rhs_iter in
            let! lhs_iter' := iter_next w lhs_iter in
            let! r := equal_loop w fuel' lhs_iter' rhs_iter' in
            ret (r.1, (x, y) :: r.2)
      end
  end.

(** [operator==] on lists, with the element comparisons it made. *)
Definition operator_eq_traced (w : variant) (lhs rhs : lid)
  : M (bool * list (Type_ * Type_)) :=
  let! lb := read_next (AtHead lhs) in
  let! rb := read_next (AtHead rhs) in
  if bool_decide (lb = rb) then ret (true, [])
  else
    let! ls := read_size lhs in
    let! rs := read_size rhs in
    if bool_decide (ls ≠ rs) then ret (false, [])
    else
      λ σ, match w with
           | header => std_equal w (size (nodes σ)) (AtNode <$> lb) (AtNode <$> rb) σ
           | part_000 => equal_loop w (size (nodes σ)) (AtNode <$> lb) (AtNode <$> rb) σ
           end.

Definition operator_eq (w : variant) (lhs rhs : lid) : M bool :=
  let! r := operator_eq_traced w lhs rhs in ret r.1.

Definition operator_ne (w : variant) (lhs rhs : lid) : M bool :=
  let! r := operator_eq w lhs rhs in ret (negb r).

(** [std::lexicographical_compare(first1, last1, first2, last2, comp)],
    both [last] iterators being end iterators. *)
Fixpoint lexicographical_compare (w : variant) (comp : Type_ → Type_ → bool)
    (fuel : nat) (first1 first2 : Iterator) : M bool :=
  match first1, first2 with
  | Some _, Some _ =>
      match fuel with
      | O => λ _, OutOfFuel
      | S fuel' =>
          let! x := iter_deref w first1 in
          let! y := iter_deref w first2 in
          if comp x y then ret true
          else if comp y x then ret false
          else
            let! first1' := iter_next w first1 in
            let! first2' := iter_next w first2 in
            lexicographical_compare w comp fuel' first1' first2'
      end
  | None, Some _ => ret true
  | _, None => ret false
  end.

Definition compare_with (w : variant) (comp : Type_ → Type_ → bool)
    (lhs rhs : lid) : M bool :=
  let! lb := read_next (AtHead lhs) in
  let! rb := read_next (AtHead rhs) in
  λ σ, lexicographical_compare w comp (size (nodes σ))
         (AtNode <$> lb) (AtNode <$> rb) σ.

(** [operator<]: the default comparison, [operator<] on elements. *)
Definition operator_lt (w : variant) (lhs rhs : lid) : M bool :=
  compare_with w lt_op lhs rhs.

(** [operator>]: the same call on the same ranges with [std::greater]. *)
Definition operator_gt (w : variant) (lhs rhs : lid) : M bool :=
  compare_with w gt_op lhs rhs.

Definition operator_le (w : variant) (lhs rhs : lid) : M bool :=
  let! e := operator_eq w lhs rhs in
  if e then ret true else operator_lt w lhs rhs.

Definition operator_ge (w : variant) (lhs rhs : lid) : M bool :=
  let! e := operator_eq w lhs rhs in
  if e then ret true else operator_gt w lhs rhs.

(** ** Positions and calls *)

(** [k] applications of [operator++] to the iterator [it]. *)
Fixpoint walk (σ : store) (it : Iterator) (k : nat) : option Iterator :=
  match k with
  | O => Some it
  | S k' =>
      match it with
      | None => None
      | Some p =>
          match load_next σ p with
          | Some nx => walk σ (AtNode <$> nx) k'
          | None => None
          end
      end
  end.

(** [pos] is where [before_begin()] of [this] gets in [k] steps: the
    sentinel for [k = 0], else the node of traversal index [k - 1]. *)
Definition refers (σ : store) (this : lid) (k : nat) (pos : Iterator)
  : Prop :=
  walk σ (before_begin this) k = Some pos.

(** The public operations, as calls on a store. *)
Inductive call : Type :=
| CallDefault
| CallInit (values : list Type_)
| CallCopy (other : lid)
| CallDestructor (this : lid)
| CallPushFront (this : lid) (v : Type_)
| CallPopFront (this : lid)
| CallInsertAfter (this : lid) (pos : Iterator) (v : Type_)
| CallEraseAfter (this : lid) (pos : Iterator)
| CallClear (this : lid)
| CallSwap (this other : lid)
| CallAssign (this rhs : lid).

Definition run (w : variant) (c : call) : M unit :=
  match c with
  | CallDefault => SingleLinkedList_default;; ret tt
  | CallInit values => SingleLinkedList_init w values;; ret tt
  | CallCopy other => SingleLinkedList_copy w other;; ret tt
  | CallDestructor this => destructor w this
  | CallPushFront this v => PushFront this v
  | CallPopFront this => PopFront w this
  | CallInsertAfter this pos v => InsertAfter w this pos v;; ret tt
  | CallEraseAfter this pos => EraseAfter w this pos;; ret tt
  | CallClear this => Clear w this
  | CallSwap this other => swap w this other
  | CallAssign this rhs => assign w this rhs
  end.

Definition is_live (σ : store) (l : lid) : Prop := is_Some (lists σ !! l).

(** What the callers owe: the lists exist; [PopFront] is called on a
    non-empty list; [InsertAfter] gets a position of the list that is
    not the end, [EraseAfter] one whose successor is not the end. *)
Definition contract (σ : store) (c : call) : Prop :=
  match c with
  | CallDefault | CallInit _ => True
  | CallCopy other => is_live σ other
  | CallDestructor this | CallPushFront this _ | CallClear this =>
      is_live σ this
  | CallPopFront this => is_live σ this ∧ IsEmpty σ this = Some false
  | CallInsertAfter this pos _ =>
      is_live σ this ∧ ∃ k p, pos = Some p ∧ refers σ this k pos
  | CallEraseAfter this pos =>
      is_live σ this ∧
      ∃ k p q, pos = Some p ∧ refers σ this k pos ∧
               refers σ this (S k) (Some q)
  | CallSwap this other | CallAssign this other =>
      is_live σ this ∧ is_live σ other
  end.

(** The stores a program can reach from nothing by contract-abiding
    calls, whether they return or throw. *)
Inductive reachable (w : variant) : store → Prop :=
| reachable_empty : reachable w empty_store
| reachable_return σ c σ' :
    reachable w σ → contract σ c → run w c σ = Ok σ' tt →
    reachable w σ'
| reachable_throw σ c σ' :
    reachable w σ → contract σ c → run w c σ = Throws σ' →
    reachable w σ'.

(** ** The comparison loops on plain sequences *)

(** What the loop of [operator==] computes on two sequences, the first
    not longer than the second, [differ] telling two elements apart:
    the answer and the pairs compared. *)
Fixpoint equal_run (differ : Type_ → Type_ → bool) (xs ys : list Type_)
  : bool * list (Type_ * Type_) :=
  match xs, ys with
  | x :: xs', y :: ys' =>
      if differ x y then (false, [(x, y)])
      else ((equal_run differ xs' ys').1,
            (x, y) :: (equal_run differ xs' ys').2)
  | _, _ => (true, [])
  end.

(** What [std::lexicographical_compare] computes on two sequences. *)
Fixpoint lex (comp : Type_ → Type_ → bool) (xs ys : list Type_) : bool :=
  match xs, ys with
  | x :: xs', y :: ys' =>
      if comp x y then true
      else if comp y x then false
      else lex comp xs' ys'
  | [], _ :: _ => true
  | _, [] => false
  end.

(** * The shape of a well-formed store *)

(** [chain h p cs]: following [next_node] from [p] through the heap [h]
    meets exactly the nodes [cs] (address and value, in order) and then
    a null pointer. *)
Inductive chain (h : gmap positive Node)
  : option addr → list (addr * Type_) → Prop :=
| chain_null : chain h None []
| chain_node a n cs :
    h !! a = Some n →
    chain h (next_node n) cs →
    chain h (Some a) ((a, value n) :: cs).

(** [shape σ m]: every live list object heads a chain, the one [m]
    records for it; chains of different lists share no node; the live
    nodes fit the free store.  [counted σ m]: every [size_] is the
    length of the list's chain. *)
Definition chains_of (σ : store) (m : gmap positive (list (addr * Type_)))
  : Prop :=
  ∀ l, match lists σ !! l, m !! l with
       | Some L, Some cs => chain (nodes σ) (head_next_node L) cs
       | None, None => True
       | _, _ => False
       end.

Definition separate (m : gmap positive (list (addr * Type_))) : Prop :=
  ∀ l1 l2 cs1 cs2,
    l1 ≠ l2 → m !! l1 = Some cs1 → m !! l2 = Some cs2 → cs1.*1 ## cs2.*1.

Definition shape (σ : store) (m : gmap positive (list (addr * Type_)))
  : Prop :=
  chains_of σ m ∧ separate m ∧ (size (nodes σ) ≤ capacity)%nat.

Definition counted (σ : store) (m : gmap positive (list (addr * Type_)))
  : Prop :=
  ∀ l L cs, lists σ !! l = Some L → m !! l = Some cs →
            size_ L = Z.of_nat (length cs).

Definition repr (σ : store) (m : gmap positive (list (addr * Type_)))
  : Prop :=
  shape σ m ∧ counted σ m.

(** The invariant of the container, over the whole store. *)
Definition store_inv (σ : store) : Prop := ∃ m, repr σ m.

(** The iterator [k] steps behind [before_begin()] in a list with chain
    [cs]: the sentinel for [k = 0], the node of traversal index [k - 1]
    otherwise, and the end iterator one step behind the last node. *)
Definition position (l : lid) (cs : list (addr * Type_)) (k : nat)
  : Iterator :=
  match k with
  | O => Some (AtHead l)
  | S i => (λ c, AtNode c.1) <$> cs !! i
  end.

(** The store after [new_node = new Node(v, nx); p->next_node = new_node]
    when the new node lands on address [a]. *)
Definition link (σ : store) (p : NodePtr) (a : addr) (v : Type_)
    (nx : option addr) : store :=
  store_next (mkStore (<[a := mkNode v nx]> (nodes σ)) (lists σ)) p (Some a).

(** The store after [p->next_node = nx; delete c]. *)
Definition unlink (σ : store) (p : NodePtr) (c : addr) (nx : option addr)
  : store :=
  mkStore (delete c (nodes (store_next σ p nx))) (lists (store_next σ p nx)).

(** The heap after the nodes at [dead] were deleted one after the
    other, as the loop of [Clear] does. *)
Fixpoint release (h : gmap positive Node) (dead : list addr)
  : gmap positive Node :=
  match dead with
  | [] => h
  | a :: dead' => release (delete a h) dead'
  end.

(** Exchange of the entries of [a] and [b] in a map, as a permutation of
    the keys. *)
Definition transpose (a b l : positive) : positive :=
  if decide (l = b) then a else if decide (l = a) then b else l.

(** The lists a call may change: its receiver, and both lists of a
    [swap]; the source of a copy is not among them. *)
Definition touched (c : call) : list lid :=
  match c with
  | CallDefault | CallInit _ | CallCopy _ => []
  | CallDestructor this | CallPushFront this _ | CallPopFront this
  | CallInsertAfter this _ _ | CallEraseAfter this _ | CallClear this
  | CallAssign this _ => [this]
  | CallSwap this other => [this; other]
  end.

(** [k] times [++it], then the iterator. *)
Fixpoint iter_advance (w : variant) (k : nat) (it : Iterator) : M Iterator :=
  match k with
  | O => ret it
  | S k' => let! it' := iter_next w it in iter_advance w k' it'
  end.

Section Theory.

(** The free store holds fewer nodes than a [size_t] can count. *)
Hypothesis capacity_fits : Z.of_nat capacity < size_t_modulus.

(** * Chains *)

Lemma chain_functional h p cs cs' :
  chain h p cs → chain h p cs' → cs = cs'.
Proof.
  intros Hc. revert cs'.
  induction Hc as [|a n cs Hn _ IH]; intros cs' Hc'; inversion Hc'; subst.
  - reflexivity.
  - simplify_eq. f_equal. by apply IH.
Qed.

(** A chain only depends on the nodes it goes through. *)
Lemma chain_frame h h' p cs :
  chain h p cs →
  (∀ a, a ∈ cs.*1 → h' !! a = h !! a) →
  chain h' p cs.
Proof.
  induction 1 as [|a n cs Hn _ IH]; intros Hsame; [constructor|].
  constructor.
  - rewrite Hsame; [done|]. simpl. left.
  - apply IH. intros b Hb. apply Hsame. simpl. by right.
Qed.

Lemma chain_drop h p cs i a v :
  chain h p cs → cs !! i = Some (a, v) → chain h (Some a) (drop i cs).
Proof.
  intros Hc. revert i.
  induction Hc as [|b n cs Hn Hc IH]; intros i Hi; [done|].
  destruct i as [|i]; simpl in *.
  - simplify_eq. by constructor.
  - by apply IH.
Qed.

(** A chain that ends in null never meets a node twice: it is acyclic. *)
Lemma chain_NoDup h p cs : chain h p cs → NoDup cs.*1.
Proof.
  induction 1 as [|a n cs Hn Hc IH]; simpl; constructor; [|done].
  intros Hin.
  apply list_elem_of_fmap in Hin as [[a' v] [-> Hin]]. simpl in *.
  apply list_elem_of_lookup in Hin as [i Hi].
  pose proof (chain_drop _ _ _ _ _ _ Hc Hi) as Hd.
  pose proof (chain_functional _ _ _ _ Hd (chain_node _ _ _ _ Hn Hc)) as He.
  apply (f_equal length) in He. rewrite length_drop in He. simpl in He. lia.
Qed.

Lemma chain_live h p cs a :
  chain h p cs → a ∈ cs.*1 → ∃ n, h !! a = Some n.
Proof.
  induction 1 as [|b n cs Hn _ IH]; simpl; intros Hin.
  - by apply elem_of_nil in Hin.
  - apply elem_of_cons in Hin as [->|Hin]; eauto.
Qed.

Lemma chain_length_le h p cs : chain h p cs → (length cs ≤ size h)%nat.
Proof.
  intros Hc.
  assert (cs.*1 ⊆+ elements (dom h)) as Hsub.
  { apply NoDup_submseteq; [by eapply chain_NoDup|].
    intros a Ha. apply elem_of_elements, elem_of_dom.
    destruct (chain_live _ _ _ _ Hc Ha) as [n Hn]. by exists n. }
  apply submseteq_length in Hsub.
  rewrite length_fmap in Hsub.
  by rewrite -size_dom.
Qed.

Lemma traverse_chain fuel h p cs :
  chain h p cs → (length cs ≤ fuel)%nat → traverse fuel h p = Some cs.*2.
Proof.
  intros Hc. revert fuel.
  induction Hc as [|a n cs Hn _ IH]; intros fuel Hfuel.
  - by destruct fuel.
  - destruct fuel as [|fuel]; simpl in *; [lia|].
    rewrite Hn IH; [done|lia].
Qed.

(** Replacing the tail of a chain behind an untouched prefix. *)
Lemma chain_splice h h' p pre rest rest' :
  chain h p (pre ++ rest) →
  (∀ a, a ∈ pre.*1 → h' !! a = h !! a) →
  (∀ q, chain h q rest → chain h' q rest') →
  chain h' p (pre ++ rest').
Proof.
  revert p. induction pre as [|[a v] pre IH]; intros p Hc Hsame Hrest.
  - by apply Hrest.
  - inversion Hc as [|a' n cs Hn Hc']; subst. simpl.
    constructor.
    + rewrite Hsame; [done|]. simpl. left.
    + apply IH; [done| |done].
      intros b Hb. apply Hsame. simpl. by right.
Qed.

Lemma chain_head h p cs : chain h p cs → p = fst <$> head cs.
Proof. by destruct 1. Qed.

Lemma chain_next h p cs i a v n :
  chain h p cs → cs !! i = Some (a, v) → h !! a = Some n →
  value n = v ∧ next_node n = fst <$> cs !! S i ∧
  chain h (next_node n) (drop (S i) cs).
Proof.
  intros Hc Hi Hn.
  pose proof (chain_drop _ _ _ _ _ _ Hc Hi) as Hd.
  rewrite (drop_S _ _ _ Hi) in Hd.
  inversion Hd as [|a' n' cs' Hn' Hc']; subst. simplify_eq.
  split_and!; [done| |done].
  rewrite (chain_head _ _ _ Hc') head_lookup lookup_drop. do 2 f_equal. lia.
Qed.

Lemma shape_lookup σ m l cs :
  shape σ m → m !! l = Some cs →
  ∃ L, lists σ !! l = Some L ∧ chain (nodes σ) (head_next_node L) cs.
Proof.
  intros (Hch & _ & _) Hl. specialize (Hch l). rewrite Hl in Hch.
  destruct (lists σ !! l) as [L|]; [|done]. by exists L.
Qed.

Lemma shape_live σ m l L :
  shape σ m → lists σ !! l = Some L →
  ∃ cs, m !! l = Some cs ∧ chain (nodes σ) (head_next_node L) cs.
Proof.
  intros (Hch & _ & _) Hl. specialize (Hch l). rewrite Hl in Hch.
  destruct (m !! l) as [cs|]; [|done]. by exists cs.
Qed.

Lemma shape_dead σ m l : shape σ m → lists σ !! l = None → m !! l = None.
Proof.
  intros (Hch & _ & _) Hl. specialize (Hch l). rewrite Hl in Hch.
  by destruct (m !! l).
Qed.

Lemma repr_empty : repr empty_store ∅.
Proof.
  split; [split_and!|].
  - intros l. by rewrite !lookup_empty.
  - intros l1 l2 cs1 cs2 _ H. by rewrite lookup_empty in H.
  - simpl. rewrite map_size_empty. lia.
  - intros l L cs H. by rewrite lookup_empty in H.
Qed.

Lemma shape_traversal σ m l cs :
  shape σ m → m !! l = Some cs → traversal σ l = Some cs.*2.
Proof.
  intros Hs Hl. destruct (shape_lookup _ _ _ _ Hs Hl) as (L & HL & Hc).
  rewrite /traversal HL. apply traverse_chain; [done|].
  by eapply chain_length_le.
Qed.

Lemma repr_GetSize σ m l cs :
  repr σ m → m !! l = Some cs → GetSize σ l = Some (Z.of_nat (length cs)).
Proof.
  intros [Hs Hn] Hl. destruct (shape_lookup _ _ _ _ Hs Hl) as (L & HL & Hc).
  rewrite /GetSize HL /=. f_equal. by eapply Hn.
Qed.

(** Nodes of a recorded chain are live, so a fresh address is in none. *)
Lemma shape_chain_live σ m l cs a :
  shape σ m → m !! l = Some cs → a ∈ cs.*1 → is_Some (nodes σ !! a).
Proof.
  intros Hs Hl Ha. destruct (shape_lookup _ _ _ _ Hs Hl) as (L & HL & Hc).
  destruct (chain_live _ _ _ _ Hc Ha) as [n Hn]. by exists n.
Qed.

Lemma fresh_not_live (h : gmap positive Node) : h !! fresh (dom h) = None.
Proof. apply not_elem_of_dom, is_fresh. Qed.

(** One list changes its chain, possibly coming to life; all it touches
    are its own nodes and addresses that were not live. *)
Lemma shape_update σ σ' m l L' cs' :
  shape σ m →
  lists σ' = <[l := L']> (lists σ) →
  chain (nodes σ') (head_next_node L') cs' →
  (∀ a, a ∈ cs'.*1 → a ∈ (default [] (m !! l)).*1 ∨ nodes σ !! a = None) →
  (∀ a, a ∉ (default [] (m !! l)).*1 → is_Some (nodes σ !! a) →
        nodes σ' !! a = nodes σ !! a) →
  (size (nodes σ') ≤ capacity)%nat →
  shape σ' (<[l := cs']> m).
Proof.
  intros Hs Hlists Hc Hnew Hold Hcap. split_and!; [| |done].
  - intros l0. rewrite Hlists. destruct (decide (l0 = l)) as [->|Hne].
    + by rewrite !lookup_insert_eq.
    + rewrite !lookup_insert_ne //.
      destruct (lists σ !! l0) as [L0|] eqn:HL0.
      * destruct (shape_live _ _ _ _ Hs HL0) as (cs0 & Hm0 & Hc0).
        rewrite Hm0. eapply chain_frame; [done|].
        intros a Ha. apply Hold.
        -- intros Ha'. destruct (m !! l) as [cs|] eqn:Hml; simpl in Ha';
             [|by apply elem_of_nil in Ha'].
           destruct Hs as (_ & Hsep & _).
           by apply (Hsep l0 l cs0 cs Hne Hm0 Hml a).
        -- by eapply shape_chain_live.
      * by rewrite (shape_dead _ _ _ Hs HL0).
  - assert (∀ l0 cs0 a, l0 ≠ l → m !! l0 = Some cs0 →
                        a ∈ cs'.*1 → a ∈ cs0.*1 → False) as Hdisj.
    { intros l0 cs0 a Hne Hm0 Ha' Ha0.
      destruct (Hnew a Ha') as [Ha|Ha].
      - destruct (m !! l) as [cs|] eqn:Hml; simpl in Ha;
          [|by apply elem_of_nil in Ha].
        destruct Hs as (_ & Hsep & _).
        by apply (Hsep l0 l cs0 cs Hne Hm0 Hml a).
      - destruct (shape_chain_live _ _ _ _ _ Hs Hm0 Ha0) as [n Hn].
        congruence. }
    intros l1 l2 cs1 cs2 Hne H1 H2 a Ha1 Ha2.
    destruct (decide (l1 = l)) as [->|Hne1];
      [|destruct (decide (l2 = l)) as [->|Hne2]].
    + rewrite lookup_insert_eq in H1. rewrite lookup_insert_ne // in H2.
      simplify_eq. by eapply Hdisj.
    + rewrite lookup_insert_eq in H2. rewrite lookup_insert_ne // in H1.
      simplify_eq. by eapply Hdisj.
    + rewrite lookup_insert_ne // in H1. rewrite lookup_insert_ne // in H2.
      destruct Hs as (_ & Hsep & _).
      by apply (Hsep l1 l2 cs1 cs2 Hne H1 H2 a).
Qed.

Lemma counted_update σ σ' m l L' cs' :
  counted σ m →
  lists σ' = <[l := L']> (lists σ) →
  size_ L' = Z.of_nat (length cs') →
  counted σ' (<[l := cs']> m).
Proof.
  intros Hn Hlists Hsz l0 L0 cs0. rewrite Hlists.
  destruct (decide (l0 = l)) as [->|Hne].
  - rewrite !lookup_insert_eq. by intros [= <-] [= <-].
  - rewrite !lookup_insert_ne //. apply Hn.
Qed.

(** In an acyclic chain the node at index [i] occurs neither before nor
    after that index. *)
Lemma NoDup_middle (cs : list (addr * Type_)) i b vb :
  NoDup cs.*1 → cs !! i = Some (b, vb) →
  (b ∉ (take i cs).*1) ∧ (b ∉ (drop (S i) cs).*1).
Proof.
  intros Hnd Hi.
  rewrite -(take_drop_middle _ _ _ Hi) fmap_app fmap_cons /= in Hnd.
  apply NoDup_app in Hnd as (_ & Hpre & Hpost).
  apply NoDup_cons in Hpost as [Hpost _].
  split; [|done].
  intros Hin. apply (Hpre _ Hin). left.
Qed.

(** The heap after [new_node = new Node(v, b->next_node);
    b->next_node = new_node] for the node [b] at index [i]. *)
Lemma chain_insert_after h p0 cs i b vb a v :
  chain h p0 cs → cs !! i = Some (b, vb) → h !! a = None →
  chain (alter (λ n, mkNode (value n) (Some a)) b
           (<[a := mkNode v (fst <$> cs !! S i)]> h))
        p0 (take (S i) cs ++ (a, v) :: drop (S i) cs).
Proof.
  intros Hc Hi Ha.
  pose proof (chain_NoDup _ _ _ Hc) as Hnd.
  destruct (NoDup_middle _ _ _ _ Hnd Hi) as [Hpre Hpost].
  assert (∀ x, x ∈ cs.*1 → x ≠ a) as Hlive.
  { intros x Hx ->. destruct (chain_live _ _ _ _ Hc Hx). congruence. }
  assert (b ≠ a) as Hba.
  { apply Hlive, list_elem_of_fmap. exists (b, vb). split; [done|].
    by eapply list_elem_of_lookup_2. }
  rewrite (take_S_r _ _ _ Hi) -assoc /=.
  apply (chain_splice h _ p0 (take i cs) ((b, vb) :: drop (S i) cs)).
  - by rewrite (take_drop_middle _ _ _ Hi).
  - intros x Hx. rewrite lookup_alter_ne; [|by intros ->].
    rewrite lookup_insert_ne //. intros <-.
    eapply Hlive; [|done]. rewrite fmap_take in Hx.
    by eapply subseteq_take.
  - intros q Hq. inversion Hq as [|b' nb cs' Hnb Hc' Hb']; subst.
    destruct (chain_next _ _ _ _ _ _ _ Hc Hi Hnb) as (_ & Hnx & _).
    assert (chain (alter (λ n, mkNode (value n) (Some a)) b
                     (<[a := mkNode v (fst <$> cs !! S i)]> h))
              (fst <$> cs !! S i) (drop (S i) cs)) as Hrest.
    { rewrite -Hnx. eapply chain_frame; [done|].
      intros x Hx. rewrite lookup_alter_ne; [|by intros ->].
      rewrite lookup_insert_ne //. intros <-.
      eapply Hlive; [|done]. rewrite fmap_drop in Hx.
      by eapply subseteq_drop. }
    apply (chain_node _ b (mkNode (value nb) (Some a))).
    + by rewrite lookup_alter_eq lookup_insert_ne // Hnb.
    + apply (chain_node _ a (mkNode v (fst <$> cs !! S i))); [|done].
      by rewrite lookup_alter_ne // lookup_insert_eq.
Qed.

(** The heap after [b->next_node = c->next_node; delete c] for the node
    [b] at index [i] and its successor [c]. *)
Lemma chain_erase_after h p0 cs i b vb c vc :
  chain h p0 cs → cs !! i = Some (b, vb) → cs !! S i = Some (c, vc) →
  chain (delete c (alter (λ n, mkNode (value n) (fst <$> cs !! S (S i))) b h))
        p0 (take (S i) cs ++ drop (S (S i)) cs).
Proof.
  intros Hc Hi Hi'.
  pose proof (chain_NoDup _ _ _ Hc) as Hnd.
  destruct (NoDup_middle _ _ _ _ Hnd Hi) as [Hbpre Hbpost].
  destruct (NoDup_middle _ _ _ _ Hnd Hi') as [Hcpre Hcpost].
  rewrite (take_S_r _ _ _ Hi) fmap_app /= in Hcpre.
  rewrite (drop_S _ _ _ Hi') /= in Hbpost.
  apply not_elem_of_app in Hcpre as [Hcpre Hcb].
  apply not_elem_of_cons in Hbpost as [Hbc Hbpost].
  rewrite (take_S_r _ _ _ Hi) -assoc /=.
  apply (chain_splice h _ p0 (take i cs) ((b, vb) :: drop (S i) cs)).
  - by rewrite (take_drop_middle _ _ _ Hi).
  - intros x Hx. rewrite lookup_delete_ne; [|by intros ->].
    rewrite lookup_alter_ne //. by intros ->.
  - intros q Hq. inversion Hq as [|b' nb cs' Hnb Hc' Hb']; subst.
    rewrite (drop_S _ _ _ Hi') in Hc'.
    inversion Hc' as [|c' nc cs'' Hnc Hc'' Hc3]; subst.
    destruct (chain_next _ _ _ _ _ _ _ Hc Hi' Hnc) as (_ & Hnx & _).
    apply (chain_node _ b (mkNode (value nb) (fst <$> cs !! S (S i)))).
    + by rewrite lookup_delete_ne // lookup_alter_eq Hnb.
    + simpl. rewrite -Hnx. eapply chain_frame; [done|].
      intros x Hx. rewrite lookup_delete_ne; [|by intros ->].
      rewrite lookup_alter_ne //. by intros ->.
Qed.

Lemma chain_erase_first h p0 cs c vc :
  chain h p0 cs → cs !! 0%nat = Some (c, vc) →
  chain (delete c h) (fst <$> cs !! 1%nat) (drop 1 cs).
Proof.
  intros Hc Hi.
  pose proof (chain_NoDup _ _ _ Hc) as Hnd.
  destruct (NoDup_middle _ _ _ _ Hnd Hi) as [_ Hpost].
  destruct (chain_live _ _ _ c Hc) as [nc Hnc].
  { apply list_elem_of_fmap. exists (c, vc). split; [done|].
    by eapply list_elem_of_lookup_2. }
  destruct (chain_next _ _ _ _ _ _ _ Hc Hi Hnc) as (_ & Hnx & Hc').
  rewrite -Hnx. eapply chain_frame; [done|].
  intros x Hx. rewrite lookup_delete_ne //. by intros ->.
Qed.

Lemma load_next_position σ m l cs k p :
  shape σ m → m !! l = Some cs → position l cs k = Some p →
  load_next σ p = Some (fst <$> cs !! k).
Proof.
  intros Hs Hl Hp. destruct (shape_lookup _ _ _ _ Hs Hl) as (L & HL & Hc).
  destruct k as [|i]; simpl in Hp.
  - simplify_eq. rewrite /= HL /=. f_equal.
    by rewrite (chain_head _ _ _ Hc) head_lookup.
  - destruct (cs !! i) as [[a v]|] eqn:Hi; simplify_eq/=.
    assert (a ∈ cs.*1) as Ha.
    { apply list_elem_of_fmap. exists (a, v). split; [done|].
      by eapply list_elem_of_lookup_2. }
    destruct (chain_live _ _ _ _ Hc Ha) as [n Hn].
    rewrite Hn /=. f_equal.
    by destruct (chain_next _ _ _ _ _ _ _ Hc Hi Hn) as (_ & -> & _).
Qed.

Lemma bind_ok {A B} (c : M A) (k : A → M B) σ σ' a :
  c σ = Ok σ' a → bind c k σ = k a σ'.
Proof. rewrite /bind. by intros ->. Qed.

Lemma read_next_ok σ p nx :
  load_next σ p = Some nx → read_next p σ = Ok σ nx.
Proof. rewrite /read_next. by intros ->. Qed.

Lemma write_next_ok σ p nx0 nx :
  load_next σ p = Some nx0 → write_next p nx σ = Ok (store_next σ p nx) tt.
Proof. rewrite /write_next. by intros ->. Qed.

Lemma read_size_ok σ l L :
  lists σ !! l = Some L → read_size l σ = Ok σ (size_ L).
Proof. rewrite /read_size. by intros ->. Qed.

Lemma write_size_ok σ l L z :
  lists σ !! l = Some L →
  write_size l z σ
  = Ok (mkStore (nodes σ) (<[l := mkList (head_next_node L) z]> (lists σ))) tt.
Proof. rewrite /write_size. by intros ->. Qed.

Lemma incr_size_ok σ l L :
  lists σ !! l = Some L →
  incr_size l σ
  = Ok (mkStore (nodes σ)
          (<[l := mkList (head_next_node L) (wrap (size_ L + 1))]> (lists σ))) tt.
Proof.
  intros HL. rewrite /incr_size (bind_ok _ _ _ _ _ (read_size_ok _ _ _ HL)).
  by apply write_size_ok.
Qed.

Lemma decr_size_ok σ l L :
  lists σ !! l = Some L →
  decr_size l σ
  = Ok (mkStore (nodes σ)
          (<[l := mkList (head_next_node L) (wrap (size_ L - 1))]> (lists σ))) tt.
Proof.
  intros HL. rewrite /decr_size (bind_ok _ _ _ _ _ (read_size_ok _ _ _ HL)).
  by apply write_size_ok.
Qed.

Lemma delete_Node_ok σ a n :
  nodes σ !! a = Some n →
  delete_Node a σ = Ok (mkStore (delete a (nodes σ)) (lists σ)) tt.
Proof. rewrite /delete_Node. by intros ->. Qed.

(** A recorded chain is shorter than the free store is large. *)
Lemma repr_length_le σ m l cs :
  repr σ m → m !! l = Some cs → (length cs ≤ size (nodes σ))%nat.
Proof.
  intros [Hs _] Hl. destruct (shape_lookup _ _ _ _ Hs Hl) as (L & HL & Hc).
  by eapply chain_length_le.
Qed.

Lemma wrap_small z : 0 ≤ z < size_t_modulus → wrap z = z.
Proof. intros. rewrite /wrap. by apply Z.mod_small. Qed.

Lemma elem_of_chain_lookup (cs : list (addr * Type_)) i a v :
  cs !! i = Some (a, v) → a ∈ cs.*1.
Proof.
  intros Hi. apply list_elem_of_fmap. exists (a, v). split; [done|].
  by eapply list_elem_of_lookup_2.
Qed.

(** [size_] fields do not matter to the shape, links do not matter to
    the counts. *)
Lemma shape_resize σ m l L z :
  shape σ m → lists σ !! l = Some L →
  shape (mkStore (nodes σ) (<[l := mkList (head_next_node L) z]> (lists σ))) m.
Proof.
  intros Hs HL. destruct (shape_live _ _ _ _ Hs HL) as (cs & Hm & Hc).
  rewrite -(insert_id m l cs) //.
  eapply shape_update; [done|done|done| | |]; rewrite ?Hm /=; auto.
  by destruct Hs as (_ & _ & ?).
Qed.

Lemma counted_ext σ σ' m :
  counted σ m →
  (∀ l, size_ <$> lists σ' !! l = size_ <$> lists σ !! l) →
  counted σ' m.
Proof.
  intros Hn Hsame l L cs HL Hm. specialize (Hsame l). rewrite HL /= in Hsame.
  destruct (lists σ !! l) as [L0|] eqn:HL0; simplify_eq/=.
  rewrite Hsame. by eapply Hn.
Qed.

Lemma sizes_store_next σ p nx l :
  size_ <$> lists (store_next σ p nx) !! l = size_ <$> lists σ !! l.
Proof.
  destruct p as [l'|a]; simpl; [|done].
  rewrite lookup_alter. case_decide; [subst|done].
  by destruct (lists σ !! l).
Qed.

Lemma link_shape σ m l cs k p v :
  shape σ m → m !! l = Some cs → position l cs k = Some p →
  (size (nodes σ) < capacity)%nat →
  shape (link σ p (fresh (dom (nodes σ))) v (fst <$> cs !! k))
        (<[l := take k cs ++ (fresh (dom (nodes σ)), v) :: drop k cs]> m).
Proof.
  intros Hs Hl Hp Hroom.
  destruct (shape_lookup _ _ _ _ Hs Hl) as (L & HL & Hc).
  set (a := fresh (dom (nodes σ))).
  assert (nodes σ !! a = None) as Hfresh by apply fresh_not_live.
  assert (a ∉ cs.*1) as Hacs.
  { intros Ha. destruct (shape_chain_live _ _ _ _ _ Hs Hl Ha). congruence. }
  destruct k as [|i]; simpl in Hp.
  - (* behind the sentinel *)
    injection Hp as <-. rewrite drop_0 /=.
    eapply shape_update; [done| | | | |]; simpl.
    + by apply alter_alt_Some.
    + apply (chain_node _ a (mkNode v (fst <$> cs !! 0%nat))).
      { by rewrite lookup_insert_eq. }
      simpl. rewrite -head_lookup -(chain_head _ _ _ Hc).
      eapply chain_frame; [done|].
      intros x Hx. rewrite lookup_insert_ne //. by intros <-.
    + rewrite Hl /=. intros x [->|Hx]%elem_of_cons; auto.
    + rewrite Hl /=. intros x Hx [n Hx'].
      rewrite lookup_insert_ne //. intros <-. congruence.
    + by rewrite map_size_insert_None.
  - (* behind the node of index i *)
    destruct (cs !! i) as [[b vb]|] eqn:Hi; simplify_eq/=.
    pose proof (elem_of_chain_lookup _ _ _ _ Hi) as Hb.
    assert (a ≠ b) as Hab by (by intros <-).
    eapply shape_update; [done| | | | |]; simpl.
    + by rewrite insert_id.
    + by eapply chain_insert_after.
    + rewrite Hl /=. intros x.
      rewrite fmap_app fmap_cons elem_of_app elem_of_cons /=.
      rewrite fmap_take fmap_drop.
      intros [Hx|[->|Hx]]; auto; left.
      * by eapply subseteq_take.
      * by eapply subseteq_drop.
    + rewrite Hl /=. intros x Hx [n Hx'].
      rewrite lookup_alter_ne; [|by intros <-].
      rewrite lookup_insert_ne //. intros <-. congruence.
    + by rewrite -size_dom dom_alter_L size_dom map_size_insert_None.
Qed.

Lemma live_position σ m l cs k p :
  shape σ m → m !! l = Some cs → position l cs k = Some p →
  ∀ a n, is_Some (load_next (mkStore (<[a := n]> (nodes σ)) (lists σ)) p).
Proof.
  intros Hs Hl Hp a n.
  pose proof (load_next_position _ _ _ _ _ _ Hs Hl Hp) as Hnext.
  destruct p as [l'|b]; simpl in *; [by eexists|].
  rewrite lookup_insert. case_decide; [by eexists|].
  by eexists.
Qed.

Lemma InsertAfter_repr w σ m l cs k p v :
  repr σ m → m !! l = Some cs → position l cs k = Some p →
  copy_throws v = false → (size (nodes σ) < capacity)%nat →
  ∃ σ', InsertAfter w l (Some p) v σ
        = Ok σ' (Some (AtNode (fresh (dom (nodes σ))))) ∧
        repr σ' (<[l := take k cs ++ (fresh (dom (nodes σ)), v) :: drop k cs]> m).
Proof.
  intros [Hs Hn] Hl Hp Hcopy Hroom.
  destruct (shape_lookup _ _ _ _ Hs Hl) as (L & HL & Hc).
  pose proof (load_next_position _ _ _ _ _ _ Hs Hl Hp) as Hnext.
  pose proof (link_shape _ _ _ _ _ _ v Hs Hl Hp Hroom) as Hlink.
  pose proof (repr_length_le _ _ _ _ (conj Hs Hn) Hl) as Hlen.
  pose proof (Hn _ _ _ HL Hl) as Hsz.
  assert (k ≤ length cs)%nat as Hk.
  { destruct k as [|i]; [lia|]. simpl in Hp.
    destruct (cs !! i) eqn:Hi; [|done]. by apply lookup_lt_Some in Hi. }
  set (a := fresh (dom (nodes σ))) in *.
  set (cs' := take k cs ++ (a, v) :: drop k cs) in *.
  destruct (shape_lookup _ _ l cs' Hlink) as (L1 & HL1 & Hc1);
    [by rewrite lookup_insert_eq|].
  assert (size_ L1 = size_ L) as HszL1.
  { pose proof (sizes_store_next
      (mkStore (<[a := mkNode v (fst <$> cs !! k)]> (nodes σ)) (lists σ))
      p (Some a) l) as Hsame.
    rewrite -/(link σ p a v (fst <$> cs !! k)) HL1 /= HL /= in Hsame.
    by injection Hsame. }
  rewrite /InsertAfter.
  erewrite bind_ok; [|by destruct w].
  erewrite bind_ok; [|by eapply read_next_ok].
  erewrite bind_ok; [|rewrite /new_Node Hcopy decide_True //].
  fold a.
  destruct (live_position _ _ _ _ _ _ Hs Hl Hp a (mkNode v (fst <$> cs !! k)))
    as [nx0 Hnx0].
  erewrite bind_ok; [|by eapply write_next_ok].
  rewrite -/(link σ p a v (fst <$> cs !! k)).
  erewrite bind_ok; [|by eapply incr_size_ok].
  eexists. split; [reflexivity|]. split.
  - by apply shape_resize.
  - eapply (counted_update (link σ p a v (fst <$> cs !! k))); [|done|].
    + eapply counted_ext; [done|]. intros l0. by rewrite /link sizes_store_next.
    + rewrite /= HszL1 /cs' length_app /= length_take length_drop.
      rewrite wrap_small; lia.
Qed.

Lemma size_delete_le (h : gmap positive Node) c :
  (size (delete c h) ≤ size h)%nat.
Proof. rewrite map_size_delete. destruct (h !! c); simpl; lia. Qed.

Lemma size_alter (h : gmap positive Node) f b : size (alter f b h) = size h.
Proof. by rewrite -size_dom dom_alter_L size_dom. Qed.

Lemma unlink_shape σ m l cs k p c vc :
  shape σ m → m !! l = Some cs → position l cs k = Some p →
  cs !! k = Some (c, vc) →
  shape (unlink σ p c (fst <$> cs !! S k))
        (<[l := take k cs ++ drop (S k) cs]> m).
Proof.
  intros Hs Hl Hp Hk.
  destruct (shape_lookup _ _ _ _ Hs Hl) as (L & HL & Hc).
  pose proof (elem_of_chain_lookup _ _ _ _ Hk) as Hccs.
  assert (∀ x, x ∈ (take k cs ++ drop (S k) cs).*1 → x ∈ cs.*1) as Hsub.
  { intros x. rewrite fmap_app elem_of_app fmap_take fmap_drop.
    intros [Hx|Hx]; [by eapply subseteq_take|by eapply subseteq_drop]. }
  destruct k as [|i]; simpl in Hp.
  - injection Hp as <-.
    eapply shape_update; [done| | | | |]; simpl.
    + by apply alter_alt_Some.
    + simpl. by eapply chain_erase_first.
    + rewrite Hl /=. intros x Hx. left. by apply Hsub.
    + rewrite Hl /=. intros x Hx _. rewrite lookup_delete_ne //.
      by intros <-.
    + destruct Hs as (_ & _ & Hcap).
      pose proof (size_delete_le (nodes σ) c). lia.
  - destruct (cs !! i) as [[b vb]|] eqn:Hi; simplify_eq/=.
    pose proof (elem_of_chain_lookup _ _ _ _ Hi) as Hb.
    eapply shape_update; [done| | | | |]; simpl.
    + by rewrite insert_id.
    + by eapply chain_erase_after.
    + rewrite Hl /=. intros x Hx. left. by apply Hsub.
    + rewrite Hl /=. intros x Hx _. rewrite lookup_delete_ne; [|by intros <-].
      rewrite lookup_alter_ne //. by intros <-.
    + destruct Hs as (_ & _ & Hcap).
      pose proof (size_delete_le
        (alter (λ n, mkNode (value n) (fst <$> cs !! S (S i))) b (nodes σ)) c)
        as Hd.
      rewrite size_alter in Hd. lia.
Qed.

Lemma load_next_store_next σ p nx0 nx :
  load_next σ p = Some nx0 → load_next (store_next σ p nx) p = Some nx.
Proof.
  destruct p as [l|a]; simpl; rewrite lookup_alter_eq.
  - by destruct (lists σ !! l).
  - by destruct (nodes σ !! a).
Qed.

Lemma EraseAfter_repr w σ m l cs k p c vc :
  repr σ m → m !! l = Some cs → position l cs k = Some p →
  cs !! k = Some (c, vc) →
  ∃ σ', EraseAfter w l (Some p) σ = Ok σ' (AtNode <$> (fst <$> cs !! S k)) ∧
        load_next σ' p = Some (fst <$> cs !! S k) ∧
        nodes σ' !! c = None ∧
        repr σ' (<[l := take k cs ++ drop (S k) cs]> m).
Proof.
  intros [Hs Hn] Hl Hp Hk.
  destruct (shape_lookup _ _ _ _ Hs Hl) as (L & HL & Hc).
  pose proof (load_next_position _ _ _ _ _ _ Hs Hl Hp) as Hnext.
  pose proof (unlink_shape _ _ _ _ _ _ _ _ Hs Hl Hp Hk) as Hunlink.
  pose proof (repr_length_le _ _ _ _ (conj Hs Hn) Hl) as Hlen.
  pose proof (Hn _ _ _ HL Hl) as Hsz.
  pose proof (lookup_lt_Some _ _ _ Hk) as Hklt.
  pose proof (proj2 (proj2 Hs)) as Hcap.
  destruct (shape_chain_live _ _ _ _ c Hs Hl) as [nc Hnc];
    [by eapply elem_of_chain_lookup|].
  destruct (chain_next _ _ _ _ _ _ _ Hc Hk Hnc) as (_ & Hnx & _).
  set (after := fst <$> cs !! S k) in *.
  set (cs' := take k cs ++ drop (S k) cs) in *.
  destruct (shape_lookup _ _ l cs' Hunlink) as (L1 & HL1 & Hc1);
    [by rewrite lookup_insert_eq|].
  assert (size_ L1 = size_ L) as HszL1.
  { pose proof (sizes_store_next σ p after l) as Hsame.
    rewrite /unlink /= in HL1. rewrite HL1 /= HL /= in Hsame.
    by injection Hsame. }
  assert (∃ n', nodes (store_next σ p after) !! c = Some n') as [nc' Hnc'].
  { destruct p as [l'|b]; simpl; [by eexists|].
    rewrite lookup_alter. case_decide; subst; rewrite Hnc; by eexists. }
  rewrite /EraseAfter.
  erewrite bind_ok.
  2:{ destruct w; [|done].
      erewrite bind_ok; [|done].
      erewrite bind_ok; [|by eapply read_size_ok].
      rewrite /assert bool_decide_true //. lia. }
  erewrite bind_ok; [|by eapply read_next_ok].
  rewrite Hk /=.
  erewrite bind_ok; [|eapply read_next_ok; by rewrite /= Hnc].
  rewrite Hnx -/after.
  erewrite bind_ok; [|by eapply write_next_ok].
  erewrite bind_ok; [|by eapply delete_Node_ok].
  rewrite -/(unlink σ p c after).
  erewrite bind_ok; [|by eapply decr_size_ok].
  assert (load_next (unlink σ p c after) p = Some after) as Hafter.
  { pose proof (load_next_store_next σ p _ after Hnext) as Hld.
    destruct p as [l'|b]; [done|]. simpl in *.
    rewrite lookup_delete_ne //. intros <-.
    rewrite lookup_alter_eq Hnc /= in Hld.
    destruct k as [|i]; [done|]. simpl in Hp.
    destruct (cs !! i) as [[b vb]|] eqn:Hi; simplify_eq/=.
    pose proof (chain_NoDup _ _ _ Hc) as Hnd.
    destruct (NoDup_middle _ _ _ _ Hnd Hi) as [_ Hpost].
    apply Hpost. rewrite fmap_drop. apply list_elem_of_lookup.
    exists 0%nat. by rewrite lookup_drop Nat.add_0_r list_lookup_fmap Hk. }
  assert (load_next (mkStore (nodes (unlink σ p c after))
            (<[l := mkList (head_next_node L1) (wrap (size_ L1 - 1))]>
               (lists (unlink σ p c after)))) p = Some after) as Hafter'.
  { destruct p as [l'|b]; [|done].
    assert (l' = l) as ->.
    { destruct k as [|i]; simpl in Hp; [by simplify_eq|].
      destruct (cs !! i); simplify_eq/=. }
    rewrite /= lookup_insert_eq /=. rewrite /= HL1 /= in Hafter.
    by rewrite Hafter. }
  erewrite bind_ok; [|by eapply read_next_ok].
  eexists. split; [reflexivity|]. split; [done|]. split.
  { by rewrite /= lookup_delete_eq. }
  split.
  - by apply shape_resize.
  - eapply (counted_update (unlink σ p c after)); [|done|].
    + eapply counted_ext; [done|]. intros l0.
      by rewrite /unlink /= sizes_store_next.
    + rewrite /= HszL1 /cs' length_app /= length_take length_drop.
      rewrite wrap_small; lia.
Qed.

Lemma incr_size_live l σ σ' u :
  incr_size l σ = Ok σ' u → is_Some (lists σ' !! l).
Proof.
  rewrite /incr_size /bind /read_size /write_size.
  destruct (lists σ !! l) as [L|] eqn:HL; [|done].
  rewrite HL. intros [= <- _]. by rewrite /= lookup_insert_eq.
Qed.

Lemma decr_size_live l σ σ' u :
  decr_size l σ = Ok σ' u → is_Some (lists σ' !! l).
Proof.
  rewrite /decr_size /bind /read_size /write_size.
  destruct (lists σ !! l) as [L|] eqn:HL; [|done].
  rewrite HL. intros [= <- _]. by rewrite /= lookup_insert_eq.
Qed.

Lemma write_next_head_inv l nx σ σ' u :
  write_next (AtHead l) nx σ = Ok σ' u →
  head_next_node <$> lists σ' !! l = Some nx.
Proof.
  rewrite /write_next /=. destruct (lists σ !! l) as [L|] eqn:HL; [|done].
  intros [= <- _]. by rewrite /= lookup_alter_eq HL.
Qed.

Lemma write_size_head_inv l z σ σ' u :
  write_size l z σ = Ok σ' u →
  head_next_node <$> lists σ' !! l = head_next_node <$> lists σ !! l.
Proof.
  rewrite /write_size. destruct (lists σ !! l) as [L|] eqn:HL; [|done].
  intros [= <- _]. by rewrite /= lookup_insert_eq.
Qed.

Lemma incr_size_head_inv l σ σ' u :
  incr_size l σ = Ok σ' u →
  head_next_node <$> lists σ' !! l = head_next_node <$> lists σ !! l.
Proof.
  rewrite /incr_size /bind /read_size.
  destruct (lists σ !! l) as [L|] eqn:HL; [|done].
  rewrite -HL. apply write_size_head_inv.
Qed.

Lemma decr_size_head_inv l σ σ' u :
  decr_size l σ = Ok σ' u →
  head_next_node <$> lists σ' !! l = head_next_node <$> lists σ !! l.
Proof.
  rewrite /decr_size /bind /read_size.
  destruct (lists σ !! l) as [L|] eqn:HL; [|done].
  rewrite -HL. apply write_size_head_inv.
Qed.

(** [InsertAfter] at [before_begin()] against [PushFront], outcome by
    outcome. *)
Lemma InsertAfter_before_begin w l v σ :
  InsertAfter w l (before_begin l) v σ
  = match PushFront l v σ with
    | Ok σ' _ => match begin σ' l with
                 | Some it => Ok σ' it
                 | None => Undefined
                 end
    | Throws σ' => Throws σ'
    | AssertFail => AssertFail
    | Undefined => Undefined
    | OutOfFuel => OutOfFuel
    end.
Proof.
  rewrite /InsertAfter /PushFront /before_begin /bind.
  destruct w; simpl;
    (destruct (read_next (AtHead l) σ) as [σ1 first| | | |]; try done;
     destruct (new_Node v first σ1) as [σ2 a| | | |]; try done;
     destruct (write_next (AtHead l) (Some a) σ2) as [σ3 []| | | |] eqn:Hw;
       try done;
     destruct (incr_size l σ3) as [σ4 []| | | |] eqn:Hi; try done;
     apply write_next_head_inv in Hw; apply incr_size_head_inv in Hi;
     rewrite Hw in Hi; rewrite /ret /begin;
     destruct (lists σ4 !! l) as [[h4 z4]|]; by simplify_eq/=).
Qed.

Lemma PopFront_body_EraseAfter l σ :
  PopFront_body l σ
  = match EraseAfter part_000 l (before_begin l) σ with
    | Ok σ' _ => Ok σ' tt
    | Throws σ' => Throws σ'
    | AssertFail => AssertFail
    | Undefined => Undefined
    | OutOfFuel => OutOfFuel
    end.
Proof.
  rewrite /EraseAfter /PopFront_body /before_begin /bind /ret /undefined.
  destruct (read_next (AtHead l) σ) as [σ1 [a|]| | | |]; try done.
  destruct (read_next (AtNode a) σ1) as [σ2 second| | | |]; try done.
  destruct (write_next (AtHead l) second σ2) as [σ3 []| | | |] eqn:Hw;
    try done.
  destruct (delete_Node a σ3) as [σ4 []| | | |] eqn:Hd; try done.
  destruct (decr_size l σ4) as [σ5 []| | | |] eqn:Hs; try done.
  destruct (read_next (AtHead l) σ5) as [σ6 now| | | |] eqn:Hr; try done.
  - rewrite /read_next in Hr. by destruct (load_next σ5 (AtHead l)); simplify_eq.
  - rewrite /read_next in Hr. by destruct (load_next σ5 (AtHead l)).
  - rewrite /read_next in Hr. by destruct (load_next σ5 (AtHead l)).
  - exfalso. apply decr_size_live in Hs as [L HL].
    by rewrite /read_next /= HL in Hr.
  - rewrite /read_next in Hr. by destruct (load_next σ5 (AtHead l)).
Qed.

Lemma PushFront_repr σ m l cs v :
  repr σ m → m !! l = Some cs →
  copy_throws v = false → (size (nodes σ) < capacity)%nat →
  ∃ σ', PushFront l v σ = Ok σ' tt ∧
        repr σ' (<[l := (fresh (dom (nodes σ)), v) :: cs]> m).
Proof.
  intros Hr Hl Hcopy Hroom.
  destruct (InsertAfter_repr header σ m l cs 0 (AtHead l) v)
    as (σ' & Hins & Hr'); [done..|].
  rewrite drop_0 /= in Hr'.
  pose proof (InsertAfter_before_begin header l v σ) as Heq.
  rewrite /before_begin Hins in Heq.
  destruct (PushFront l v σ) as [σ'' []| | | |]; try done.
  exists σ''. split; [done|].
  destruct (begin σ'' l); by simplify_eq.
Qed.

Lemma PopFront_repr w σ m l c vc cs :
  repr σ m → m !! l = Some ((c, vc) :: cs) →
  ∃ σ', PopFront w l σ = Ok σ' tt ∧ nodes σ' !! c = None ∧
        repr σ' (<[l := cs]> m).
Proof.
  intros Hr Hl.
  destruct (EraseAfter_repr part_000 σ m l ((c, vc) :: cs) 0 (AtHead l) c vc)
    as (σ' & Hers & _ & Hgone & Hr'); [done..|].
  rewrite /= drop_0 in Hr'.
  assert (PopFront_body l σ = Ok σ' tt) as Hbody.
  { by rewrite PopFront_body_EraseAfter /before_begin Hers. }
  exists σ'. split; [|done].
  destruct w; [|done]. rewrite /PopFront.
  destruct Hr as [Hs Hn].
  destruct (shape_lookup _ _ _ _ Hs Hl) as (L & HL & Hc).
  erewrite bind_ok; [|by eapply read_size_ok].
  rewrite bool_decide_true //.
  rewrite (Hn _ _ _ HL Hl) /=. lia.
Qed.

(** The guarded [PopFront] of the header returns at once when [size_]
    is zero. *)
Lemma PopFront_header_empty σ l L :
  lists σ !! l = Some L → size_ L = 0 → PopFront header l σ = Ok σ tt.
Proof.
  intros HL Hsz. rewrite /PopFront.
  erewrite bind_ok; [|by eapply read_size_ok].
  by rewrite Hsz.
Qed.

(** ** Clear *)

Lemma release_lookup_ne h dead x :
  x ∉ dead → release h dead !! x = h !! x.
Proof.
  revert h. induction dead as [|a dead IH]; intros h Hx; [done|].
  apply not_elem_of_cons in Hx as [Hxa Hx].
  by rewrite /= IH // lookup_delete_ne.
Qed.

Lemma release_size h dead : (size (release h dead) ≤ size h)%nat.
Proof.
  revert h. induction dead as [|a dead IH]; intros h; [done|].
  simpl. etrans; [apply IH|apply size_delete_le].
Qed.

Lemma Clear_loop_spec w l fuel σ p cs L :
  chain (nodes σ) p cs → lists σ !! l = Some L →
  (length cs ≤ fuel)%nat →
  Z.of_nat (length cs) ≤ size_ L < size_t_modulus →
  Clear_loop w l fuel p σ
  = Ok (mkStore (release (nodes σ) cs.*1)
          (match w with
           | header => lists σ
           | part_000 =>
               <[l := mkList (head_next_node L)
                        (size_ L - Z.of_nat (length cs))]> (lists σ)
           end)) tt.
Proof.
  intros Hc. revert fuel σ p L Hc.
  induction cs as [|[a v] cs IH]; intros fuel σ p L Hc HL Hfuel Hsz;
    inversion Hc as [|a' n cs' Hn Hc' Ha]; subst.
  - destruct fuel; simpl; rewrite /ret; destruct w, σ; simpl; try done.
    + rewrite insert_id //. simpl in HL. rewrite HL. destruct L; simpl.
      do 3 f_equal. lia.
    + rewrite insert_id //. simpl in HL. rewrite HL. destruct L; simpl.
      do 3 f_equal. lia.
  - destruct fuel as [|fuel]; simpl in *; [lia|].
    pose proof (chain_NoDup _ _ _ Hc) as Hnd.
    apply NoDup_cons in Hnd as [Ha Hnd].
    erewrite bind_ok; [|eapply read_next_ok; by rewrite /= Hn].
    erewrite bind_ok; [|by eapply delete_Node_ok].
    assert (chain (delete a (nodes σ)) (next_node n) cs) as Hc2.
    { eapply chain_frame; [done|]. intros x Hx.
      rewrite lookup_delete_ne //. by intros <-. }
    destruct w.
    + erewrite bind_ok; [|done].
      erewrite (IH fuel _ _ L); simpl; [done|done|done|lia|lia].
    + erewrite bind_ok; [|by eapply decr_size_ok].
      erewrite (IH fuel _ _ (mkList (head_next_node L) (wrap (size_ L - 1))));
        simpl; [|done|by rewrite lookup_insert_eq|lia|rewrite wrap_small; lia].
      rewrite insert_insert_eq wrap_small; [|lia].
      do 4 f_equal. lia.
Qed.

Lemma Clear_repr w σ m l cs :
  repr σ m → m !! l = Some cs →
  ∃ σ', Clear w l σ = Ok σ' tt ∧ repr σ' (<[l := []]> m) ∧
        nodes σ' = release (nodes σ) cs.*1.
Proof.
  intros [Hs Hn] Hl.
  destruct (shape_lookup _ _ _ _ Hs Hl) as (L & HL & Hc).
  pose proof (chain_length_le _ _ _ Hc) as Hlen.
  pose proof (Hn _ _ _ HL Hl) as Hsz.
  pose proof (proj2 (proj2 Hs)) as Hcap.
  rewrite /Clear.
  erewrite bind_ok; [|eapply read_next_ok; by rewrite /= HL].
  erewrite bind_ok; [|eapply (Clear_loop_spec w l _ σ _ cs L); [done..|lia]].
  set (lists1 := match w with
                 | header => lists σ
                 | part_000 => <[l := mkList (head_next_node L)
                                   (size_ L - Z.of_nat (length cs))]> (lists σ)
                 end).
  assert (∃ σ2 L2, (match w with
                    | header => write_size l 0
                    | part_000 => ret tt
                    end) (mkStore (release (nodes σ) cs.*1) lists1) = Ok σ2 tt
                   ∧ nodes σ2 = release (nodes σ) cs.*1
                   ∧ lists σ2 = <[l := L2]> (lists σ) ∧ size_ L2 = 0)
    as (σ2 & L2 & Hstep & Hnodes2 & Hlists2 & HL2).
  { destruct w; simpl.
    - eexists _, _. rewrite /write_size /= HL. split; [done|]. by simpl.
    - eexists _, _. split; [done|]. simpl. split_and!; [done|done|]. simpl. lia. }
  erewrite bind_ok; [|done].
  erewrite write_next_ok; [|by rewrite /= Hlists2 lookup_insert_eq].
  eexists. split; [done|]. simpl. rewrite Hlists2 Hnodes2.
  split; [|done]. split.
  - eapply shape_update; [done| | | | |]; simpl.
    + rewrite alter_insert_eq //.
    + constructor.
    + intros x Hx. by apply elem_of_nil in Hx.
    + rewrite Hl /=. intros x Hx _. by apply release_lookup_ne.
    + pose proof (release_size (nodes σ) cs.*1). lia.
  - eapply counted_update; [done| |]; simpl.
    + rewrite alter_insert_eq //.
    + done.
Qed.

(** ** swap *)

Lemma transpose_inj a b l1 l2 :
  transpose a b l1 = transpose a b l2 → l1 = l2.
Proof. rewrite /transpose. repeat case_decide; congruence. Qed.

Lemma lookup_exchange {A} (g : gmap positive A) a b xa xb l :
  g !! a = Some xa → g !! b = Some xb →
  <[b := xa]> (<[a := xb]> g) !! l = g !! transpose a b l.
Proof.
  intros Ha Hb. rewrite /transpose.
  destruct (decide (l = b)) as [->|Hlb].
  - by rewrite lookup_insert_eq.
  - rewrite lookup_insert_ne //. destruct (decide (l = a)) as [->|Hla].
    + by rewrite lookup_insert_eq.
    + by rewrite lookup_insert_ne.
Qed.

Lemma swap_part_000_ok σ a b La Lb :
  lists σ !! a = Some La → lists σ !! b = Some Lb →
  swap part_000 a b σ
  = Ok (mkStore (nodes σ) (<[b := La]> (<[a := Lb]> (lists σ)))) tt.
Proof.
  intros Ha Hb. rewrite /swap.
  erewrite bind_ok; [|eapply read_next_ok; by rewrite /= Ha].
  erewrite bind_ok; [|eapply read_next_ok; by rewrite /= Hb].
  erewrite bind_ok; [|eapply write_next_ok; by rewrite /= Ha].
  simpl.
  destruct (decide (a = b)) as [->|Hne].
  - assert (La = Lb) as -> by congruence. clear Ha.
    erewrite bind_ok;
      [|eapply write_next_ok; by rewrite /= lookup_alter_eq Hb].
    simpl.
    erewrite bind_ok;
      [|eapply read_size_ok; by rewrite /= !lookup_alter_eq Hb].
    erewrite bind_ok;
      [|eapply read_size_ok; by rewrite /= !lookup_alter_eq Hb].
    erewrite bind_ok;
      [|eapply write_size_ok; by rewrite /= !lookup_alter_eq Hb].
    erewrite write_size_ok; [|by rewrite /= lookup_insert_eq].
    simpl. rewrite !insert_insert_eq !insert_alter_eq. by destruct Lb.
  - erewrite bind_ok;
      [|eapply write_next_ok; by rewrite /= lookup_alter_ne // Hb].
    simpl.
    erewrite bind_ok;
      [|eapply read_size_ok;
        by rewrite /= lookup_alter_ne // lookup_alter_eq Ha].
    erewrite bind_ok;
      [|eapply read_size_ok; by rewrite /= lookup_alter_eq lookup_alter_ne // Hb].
    erewrite bind_ok;
      [|eapply write_size_ok;
        by rewrite /= lookup_alter_ne // lookup_alter_eq Ha].
    erewrite write_size_ok;
      [|by rewrite /= lookup_insert_ne // lookup_alter_eq lookup_alter_ne // Hb].
    simpl. f_equal. f_equal.
    apply map_eq. intros i.
    destruct (decide (i = b)) as [->|Hib].
    { rewrite !lookup_insert_eq. by destruct La. }
    rewrite !(lookup_insert_ne _ b) //.
    destruct (decide (i = a)) as [->|Hia].
    { rewrite !lookup_insert_eq. by destruct Lb. }
    rewrite !lookup_insert_ne // !lookup_alter_ne //.
Qed.

Lemma exchange_repr σ m a b La Lb csa csb :
  repr σ m →
  lists σ !! a = Some La → lists σ !! b = Some Lb →
  m !! a = Some csa → m !! b = Some csb →
  repr (mkStore (nodes σ) (<[b := La]> (<[a := Lb]> (lists σ))))
       (<[b := csa]> (<[a := csb]> m)).
Proof.
  intros [(Hch & Hsep & Hcap) Hn] HLa HLb Hma Hmb.
  split; [split_and!|]; simpl.
  - intros l. rewrite /= (lookup_exchange (lists σ) a b La Lb) //.
    rewrite (lookup_exchange m a b csa csb) //. apply Hch.
  - intros l1 l2 cs1 cs2 Hne.
    rewrite !(lookup_exchange m a b csa csb) //.
    apply Hsep. intros Heq. by apply Hne, (transpose_inj a b).
  - done.
  - intros l L cs. rewrite /= (lookup_exchange (lists σ) a b La Lb) //.
    rewrite (lookup_exchange m a b csa csb) //. apply Hn.
Qed.

Lemma swap_repr σ m a b csa csb :
  repr σ m → m !! a = Some csa → m !! b = Some csb →
  ∃ σ', swap part_000 a b σ = Ok σ' tt ∧
        repr σ' (<[b := csa]> (<[a := csb]> m)).
Proof.
  intros Hr Hma Hmb.
  destruct (shape_lookup _ _ _ _ (proj1 Hr) Hma) as (La & HLa & _).
  destruct (shape_lookup _ _ _ _ (proj1 Hr) Hmb) as (Lb & HLb & _).
  eexists. split; [by eapply swap_part_000_ok|].
  by eapply exchange_repr.
Qed.

(** The header's [swap] leaves the store as it was. *)
Lemma swap_header_ok σ a b :
  is_Some (lists σ !! a) → is_Some (lists σ !! b) →
  swap header a b σ = Ok σ tt.
Proof.
  intros [La Ha] [Lb Hb]. rewrite /swap /bind /live /ret. by rewrite Ha Hb.
Qed.

(** ** Construction *)

Lemma fresh_object_dead σ m :
  shape σ m →
  lists σ !! fresh (dom (lists σ)) = None ∧ m !! fresh (dom (lists σ)) = None.
Proof.
  intros Hs.
  assert (lists σ !! fresh (dom (lists σ)) = None) as Hdead
    by apply not_elem_of_dom, is_fresh.
  split; [done|]. by eapply shape_dead.
Qed.

Lemma shape_new_object σ m z :
  shape σ m →
  shape (mkStore (nodes σ)
           (<[fresh (dom (lists σ)) := mkList None z]> (lists σ)))
        (<[fresh (dom (lists σ)) := []]> m).
Proof.
  intros Hs. destruct (fresh_object_dead _ _ Hs) as [HL Hm].
  eapply shape_update; [done|done| | | |]; simpl.
  - constructor.
  - intros x Hx. by apply elem_of_nil in Hx.
  - done.
  - by destruct Hs as (_ & _ & ?).
Qed.

Lemma shape_delete σ m l :
  shape σ m →
  shape (mkStore (nodes σ) (delete l (lists σ))) (delete l m).
Proof.
  intros (Hch & Hsep & Hcap). split_and!; simpl; [| |done].
  - intros l0. destruct (decide (l0 = l)) as [->|Hne].
    + by rewrite !lookup_delete_eq.
    + rewrite !lookup_delete_ne //. apply Hch.
  - intros l1 l2 cs1 cs2 Hne H1 H2.
    apply lookup_delete_Some in H1 as [_ H1].
    apply lookup_delete_Some in H2 as [_ H2].
    by eapply Hsep.
Qed.

(** What one round of the construction loops does to the store: a node
    is linked behind the last position of the chain under construction. *)
Lemma append_shape σ m this cs node v :
  shape σ m → m !! this = Some cs →
  position this cs (length cs) = Some node →
  (size (nodes σ) < capacity)%nat →
  let a := fresh (dom (nodes σ)) in
  let σ' := link σ node a v None in
  write_next node (Some a)
    (mkStore (<[a := mkNode v None]> (nodes σ)) (lists σ)) = Ok σ' tt ∧
  advance node σ' = Ok σ' (AtNode a) ∧
  shape σ' (<[this := cs ++ [(a, v)]]> m) ∧
  position this (cs ++ [(a, v)]) (length (cs ++ [(a, v)])) = Some (AtNode a) ∧
  (∀ l, size_ <$> lists σ' !! l = size_ <$> lists σ !! l) ∧
  size (nodes σ') = S (size (nodes σ)).
Proof.
  intros Hs Hl Hp Hroom a σ'.
  pose proof (link_shape _ _ _ _ _ _ v Hs Hl Hp Hroom) as Hlink.
  rewrite lookup_ge_None_2 // take_ge // drop_ge // in Hlink.
  destruct (live_position _ _ _ _ _ _ Hs Hl Hp a (mkNode v None))
    as [nx0 Hnx0].
  split_and!.
  - by eapply write_next_ok.
  - rewrite /advance.
    erewrite bind_ok;
      [|eapply read_next_ok; by eapply load_next_store_next].
    done.
  - done.
  - rewrite length_app /= Nat.add_1_r /=.
    by rewrite lookup_app_r // Nat.sub_diag.
  - intros l. by rewrite /σ' /link sizes_store_next.
  - rewrite /σ' /link. destruct node as [l'|b]; simpl.
    + rewrite map_size_insert_None //. apply fresh_not_live.
    + rewrite size_alter map_size_insert_None //. apply fresh_not_live.
Qed.

Lemma Construct_spec w values :
  ∀ σ m this cs node,
    shape σ m → m !! this = Some cs →
    position this cs (length cs) = Some node →
    match Construct w node values σ with
    | Ok σ' _ =>
        ∃ cells, cells.*2 = values ∧
                 shape σ' (<[this := cs ++ cells]> m) ∧
                 (∀ l, size_ <$> lists σ' !! l = size_ <$> lists σ !! l) ∧
                 Forall (λ v, copy_throws v = false) values ∧
                 (size (nodes σ) + length values ≤ capacity)%nat
    | Throws σ' =>
        ∃ cells, shape σ' (<[this := cs ++ cells]> m) ∧
                 (∀ l, size_ <$> lists σ' !! l = size_ <$> lists σ !! l) ∧
                 (Exists (λ v, copy_throws v = true) values ∨
                  (capacity < size (nodes σ) + length values)%nat)
    | _ => False
    end.
Proof.
  induction values as [|x rest IH]; intros σ m this cs node Hs Hl Hp.
  { simpl. exists []. rewrite app_nil_r insert_id //.
    split_and!; [done|done|done|constructor|].
    destruct Hs as (_ & _ & Hcap). simpl. lia. }
  assert (∃ cells, shape σ (<[this := cs ++ cells]> m) ∧
                   (∀ l, size_ <$> lists σ !! l = size_ <$> lists σ !! l))
    as Hstay.
  { exists []. by rewrite app_nil_r insert_id. }
  simpl. rewrite {1}/bind.
  destruct (copy_throws x) eqn:Hcopy.
  { assert (Exists (λ v, copy_throws v = true) (x :: rest)) as Hex
      by (by constructor).
    destruct w; simpl.
    - rewrite /bind /new_Node Hcopy.
      destruct Hstay as (cells & ? & ?). case_decide; exists cells; auto.
    - rewrite Hcopy /=. destruct Hstay as (cells & ? & ?). exists cells. auto. }
  assert (copy_value w x σ = Ok σ x) as -> by (by destruct w; rewrite /= ?Hcopy).
  rewrite {1}/bind /new_Node Hcopy /=.
  case_decide as Hroom; last first.
  { destruct Hstay as (cells & ? & ?). exists cells. split_and!; [done..|].
    right. simpl. lia. }
  destruct (append_shape _ _ _ _ _ x Hs Hl Hp Hroom)
    as (Hw & Hadv & Hs' & Hp' & Hsizes & Hsize).
  erewrite bind_ok; [|done].
  erewrite bind_ok; [|done].
  specialize (IH _ _ this _ _ Hs' (lookup_insert_eq _ _ _) Hp').
  destruct (Construct w (AtNode (fresh (dom (nodes σ)))) rest
              (link σ node (fresh (dom (nodes σ))) x None))
    as [σ'' []|σ''| | |]; try done.
  - destruct IH as (cells & Hvals & Hs'' & Hsizes'' & Hall & Hcap).
    exists ((fresh (dom (nodes σ)), x) :: cells).
    rewrite insert_insert_eq -assoc /= in Hs''.
    split_and!; [by rewrite fmap_cons Hvals|done| |by constructor|].
    + intros l. by rewrite Hsizes''.
    + rewrite Hsize in Hcap. simpl. lia.
  - destruct IH as (cells & Hs'' & Hsizes'' & Hwhy).
    exists ((fresh (dom (nodes σ)), x) :: cells).
    rewrite insert_insert_eq -assoc /= in Hs''.
    split_and!; [done| |].
    + intros l. by rewrite Hsizes''.
    + destruct Hwhy as [Hex|Hfull]; [left; by constructor|right].
      rewrite Hsize in Hfull. simpl. lia.
Qed.

Lemma counted_on σ σ' m :
  counted σ m →
  (∀ l, is_Some (m !! l) →
        size_ <$> lists σ' !! l = size_ <$> lists σ !! l) →
  counted σ' m.
Proof.
  intros Hn Hsame l L cs HL Hm.
  specialize (Hsame l (ltac:(by eexists))). rewrite HL /= in Hsame.
  destruct (lists σ !! l) as [L0|] eqn:HL0; simplify_eq/=.
  rewrite Hsame. by eapply Hn.
Qed.

Lemma SingleLinkedList_default_spec σ m :
  repr σ m →
  ∃ σ', SingleLinkedList_default σ = Ok σ' (fresh (dom (lists σ))) ∧
        m !! fresh (dom (lists σ)) = None ∧
        repr σ' (<[fresh (dom (lists σ)) := []]> m).
Proof.
  intros [Hs Hn]. destruct (fresh_object_dead _ _ Hs) as [HL Hm].
  rewrite /SingleLinkedList_default /new_object {1}/bind.
  erewrite bind_ok; [|eapply write_size_ok; by rewrite /= lookup_insert_eq].
  eexists. split; [done|]. split; [done|]. simpl.
  rewrite insert_insert_eq. split.
  - by apply shape_new_object.
  - by eapply counted_update.
Qed.

(** A constructor that built the chain [cells] for the fresh object
    [this] completes, or gives the object up when the loop threw. *)
Lemma adopt_object σ σ' m this L0 cells :
  repr σ m → lists σ !! this = None →
  shape σ' (<[this := cells]> m) →
  (∀ l, size_ <$> lists σ' !! l = size_ <$> <[this := L0]> (lists σ) !! l) →
  size_ L0 = Z.of_nat (length cells) →
  repr σ' (<[this := cells]> m).
Proof.
  intros [Hs Hn] HL Hs' Hsizes Hsz. split; [done|].
  intros l L cs HL' Hml. specialize (Hsizes l). rewrite HL' /= in Hsizes.
  destruct (decide (l = this)) as [->|Hne].
  - rewrite lookup_insert_eq in Hml. rewrite lookup_insert_eq /= in Hsizes.
    simplify_eq. congruence.
  - rewrite lookup_insert_ne // in Hml. rewrite lookup_insert_ne // in Hsizes.
    destruct (lists σ !! l) as [L1|] eqn:HL1; simplify_eq/=.
    rewrite Hsizes. by eapply Hn.
Qed.

Lemma abandon_object σ σ' m this L0 cells :
  repr σ m → lists σ !! this = None →
  shape σ' (<[this := cells]> m) →
  (∀ l, size_ <$> lists σ' !! l = size_ <$> <[this := L0]> (lists σ) !! l) →
  ∃ σ'', destroy_object this σ' = Ok σ'' tt ∧ repr σ'' m ∧
         lists σ'' = lists σ.
Proof.
  intros [Hs Hn] HL Hs' Hsizes.
  pose proof (shape_dead _ _ _ Hs HL) as Hm.
  pose proof (Hsizes this) as Hthis. rewrite lookup_insert_eq /= in Hthis.
  destruct (lists σ' !! this) as [L'|] eqn:HL'; [|done].
  rewrite /destroy_object /bind /live HL' /=.
  eexists. split; [done|]. simpl.
  assert (delete this (lists σ') = lists σ) as Hlists.
  { apply map_eq. intros l. destruct (decide (l = this)) as [->|Hne].
    - by rewrite lookup_delete_eq.
    - rewrite lookup_delete_ne //.
      destruct Hs' as (Hch' & _). destruct Hs as (Hch & _).
      specialize (Hch' l). specialize (Hch l).
      rewrite lookup_insert_ne // in Hch'.
      specialize (Hsizes l). rewrite lookup_insert_ne // in Hsizes.
      destruct (lists σ' !! l) as [[h' z']|], (lists σ !! l) as [[h z]|],
        (m !! l) as [cs0|]; simplify_eq/=; try done.
      by rewrite (chain_head _ _ _ Hch) (chain_head _ _ _ Hch'). }
  apply (shape_delete _ _ this) in Hs'.
  rewrite delete_insert_eq (delete_id m) // Hlists in Hs'.
  rewrite Hlists. split; [|done]. split; [done|].
  eapply counted_on; [done|]. done.
Qed.

(** The outcome of the initializer-list constructor on a well-formed
    store: either the new list, or an exception that leaves all lists
    as they were. *)
Lemma SingleLinkedList_init_spec w values σ m :
  repr σ m →
  match SingleLinkedList_init w values σ with
  | Ok σ' this =>
      this = fresh (dom (lists σ)) ∧ m !! this = None ∧
      ∃ cells, cells.*2 = values ∧ repr σ' (<[this := cells]> m) ∧
               Forall (λ v, copy_throws v = false) values ∧
               (size (nodes σ) + length values ≤ capacity)%nat
  | Throws σ' =>
      repr σ' m ∧ lists σ' = lists σ ∧
      (Exists (λ v, copy_throws v = true) values ∨
       (capacity < size (nodes σ) + length values)%nat)
  | _ => False
  end.
Proof.
  intros Hr. destruct (fresh_object_dead _ _ (proj1 Hr)) as [HL Hm].
  set (this := fresh (dom (lists σ))) in *.
  rewrite /SingleLinkedList_init /new_object {1}/bind -/this {1}/bind /unwind.
  pose proof (Construct_spec w values _ _ this [] (AtHead this)
                (shape_new_object σ m (Z.of_nat (length values)) (proj1 Hr))
                (lookup_insert_eq _ _ _) eq_refl) as Hspec.
  fold this in Hspec.
  destruct (Construct w (AtHead this) values _) as [σ' []|σ'| | |];
    try done; simpl in Hspec.
  - destruct Hspec as (cells & Hvals & Hs' & Hsizes & Hall & Hcap).
    split; [done|]. split; [done|]. exists cells.
    rewrite insert_insert_eq in Hs'.
    split_and!; [done| |done|done].
    eapply adopt_object; [done..|].
    by rewrite /= -Hvals length_fmap.
  - destruct Hspec as (cells & Hs' & Hsizes & Hwhy).
    rewrite insert_insert_eq in Hs'.
    destruct (abandon_object _ _ _ _ _ _ Hr HL Hs' Hsizes)
      as (σ'' & -> & Hr'' & Hlists).
    done.
Qed.

Lemma lookup_drop_head {A} (l : list A) j : l !! j = head (drop j l).
Proof. by rewrite head_lookup lookup_drop Nat.add_0_r. Qed.

Lemma Construct_iter_spec w other src rest :
  ∀ σ m this cs node j fuel,
    shape σ m → m !! this = Some cs →
    position this cs (length cs) = Some node →
    m !! other = Some src → other ≠ this → rest = drop j src →
    (capacity - size (nodes σ) < fuel)%nat →
    match Construct_iter w fuel node (AtNode <$> (fst <$> src !! j)) σ with
    | Ok σ' _ =>
        ∃ cells, cells.*2 = rest.*2 ∧
                 shape σ' (<[this := cs ++ cells]> m) ∧
                 (∀ l, size_ <$> lists σ' !! l = size_ <$> lists σ !! l) ∧
                 Forall (λ v, copy_throws v = false) rest.*2 ∧
                 (size (nodes σ) + length rest ≤ capacity)%nat
    | Throws σ' =>
        ∃ cells, shape σ' (<[this := cs ++ cells]> m) ∧
                 (∀ l, size_ <$> lists σ' !! l = size_ <$> lists σ !! l) ∧
                 (Exists (λ v, copy_throws v = true) rest.*2 ∨
                  (capacity < size (nodes σ) + length rest)%nat)
    | _ => False
    end.
Proof.
  induction rest as [|[a0 v0] rest IH];
    intros σ m this cs node j fuel Hs Hl Hp Ho Hne Hrest Hfuel.
  { rewrite lookup_drop_head -Hrest /=. destruct fuel; simpl;
      (exists []; rewrite app_nil_r insert_id //;
       split_and!; [done|done|done|constructor|];
       destruct Hs as (_ & _ & Hcap); simpl; lia). }
  assert (src !! j = Some (a0, v0)) as Hj
    by (by rewrite lookup_drop_head -Hrest).
  assert (rest = drop (S j) src) as Hrest'.
  { rewrite (drop_S _ _ _ Hj) in Hrest. by simplify_eq. }
  rewrite Hj /=.
  destruct fuel as [|fuel]; [lia|].
  assert (∃ cells, shape σ (<[this := cs ++ cells]> m) ∧
                   (∀ l, size_ <$> lists σ !! l = size_ <$> lists σ !! l))
    as Hstay.
  { exists []. by rewrite app_nil_r insert_id. }
  assert (∀ σ0 m0, shape σ0 m0 → m0 !! other = Some src →
            iter_deref w (Some (AtNode a0)) σ0 = Ok σ0 v0 ∧
            iter_next w (Some (AtNode a0)) σ0
            = Ok σ0 (AtNode <$> (fst <$> src !! S j))) as Hread.
  { intros σ0 m0 Hs0 Ho0.
    destruct (shape_lookup _ _ _ _ Hs0 Ho0) as (Lo & HLo & Hco).
    destruct (chain_live _ _ _ a0 Hco) as [n0 Hn0];
      [by eapply elem_of_chain_lookup|].
    destruct (chain_next _ _ _ _ _ _ _ Hco Hj Hn0) as (Hv & Hnx & _).
    rewrite /iter_deref /iter_next. split.
    - erewrite bind_ok; [|by destruct w]. by rewrite /read_value Hn0 Hv.
    - erewrite bind_ok; [|by destruct w].
      erewrite bind_ok; [|eapply read_next_ok; by rewrite /= Hn0].
      by rewrite Hnx. }
  simpl.
  erewrite bind_ok; [|by apply (Hread σ m)].
  rewrite {1}/bind.
  destruct (copy_throws v0) eqn:Hcopy.
  { assert (Exists (λ v, copy_throws v = true) (v0 :: rest.*2)) as Hex
      by (by constructor).
    destruct w; simpl.
    - rewrite /bind /new_Node Hcopy.
      destruct Hstay as (cells & ? & ?). case_decide; exists cells; auto.
    - rewrite Hcopy /=. destruct Hstay as (cells & ? & ?). exists cells. auto. }
  assert (copy_value w v0 σ = Ok σ v0) as ->
    by (by destruct w; rewrite /= ?Hcopy).
  rewrite {1}/bind /new_Node Hcopy /=.
  case_decide as Hroom; last first.
  { destruct Hstay as (cells & ? & ?). exists cells. split_and!; [done..|].
    right. simpl. lia. }
  destruct (append_shape _ _ _ _ _ v0 Hs Hl Hp Hroom)
    as (Hw & Hadv & Hs' & Hp' & Hsizes & Hsize).
  erewrite bind_ok; [|done].
  erewrite bind_ok; [|done].
  erewrite bind_ok;
    [|eapply (Hread _ _ Hs'); by rewrite lookup_insert_ne].
  specialize (IH _ _ this _ _ (S j) fuel Hs' (lookup_insert_eq _ _ _) Hp').
  rewrite lookup_insert_ne // in IH.
  specialize (IH Ho Hne Hrest' ltac:(rewrite Hsize; lia)).
  destruct (Construct_iter w fuel (AtNode (fresh (dom (nodes σ))))
              (AtNode <$> (fst <$> src !! S j))
              (link σ node (fresh (dom (nodes σ))) v0 None))
    as [σ'' []|σ''| | |]; try done.
  - destruct IH as (cells & Hvals & Hs'' & Hsizes'' & Hall & Hcap).
    exists ((fresh (dom (nodes σ)), v0) :: cells).
    rewrite insert_insert_eq -assoc /= in Hs''.
    split_and!; [by rewrite fmap_cons Hvals|done| |by constructor|].
    + intros l. by rewrite Hsizes''.
    + rewrite Hsize in Hcap. simpl. lia.
  - destruct IH as (cells & Hs'' & Hsizes'' & Hwhy).
    exists ((fresh (dom (nodes σ)), v0) :: cells).
    rewrite insert_insert_eq -assoc /= in Hs''.
    split_and!; [done| |].
    + intros l. by rewrite Hsizes''.
    + destruct Hwhy as [Hex|Hfull]; [left; by constructor|right].
      rewrite Hsize in Hfull. simpl. lia.
Qed.

(** The outcome of the copy constructor on a well-formed store. *)
Lemma SingleLinkedList_copy_spec w other σ m src :
  repr σ m → m !! other = Some src →
  match SingleLinkedList_copy w other σ with
  | Ok σ' this =>
      this = fresh (dom (lists σ)) ∧ m !! this = None ∧
      ∃ cells, cells.*2 = src.*2 ∧ repr σ' (<[this := cells]> m) ∧
               Forall (λ v, copy_throws v = false) src.*2 ∧
               (size (nodes σ) + length src ≤ capacity)%nat
  | Throws σ' =>
      repr σ' m ∧ lists σ' = lists σ ∧
      (Exists (λ v, copy_throws v = true) src.*2 ∨
       (capacity < size (nodes σ) + length src)%nat)
  | _ => False
  end.
Proof.
  intros Hr Ho. destruct (fresh_object_dead _ _ (proj1 Hr)) as [HL Hm].
  destruct (shape_lookup _ _ _ _ (proj1 Hr) Ho) as (Lo & HLo & Hco).
  set (this := fresh (dom (lists σ))) in *.
  assert (other ≠ this) as Hne by congruence.
  rewrite /SingleLinkedList_copy.
  erewrite bind_ok; [|by eapply read_size_ok].
  erewrite bind_ok; [|eapply read_next_ok; by rewrite /= HLo].
  rewrite /new_object {1}/bind -/this {1}/bind /unwind.
  pose proof (Construct_iter_spec w other src src _ _ this [] (AtHead this)
                0 (S (capacity - size (nodes σ)))
                (shape_new_object σ m (size_ Lo) (proj1 Hr))
                (lookup_insert_eq _ _ _) eq_refl) as Hspec.
  rewrite lookup_insert_ne // in Hspec.
  specialize (Hspec Ho Hne eq_refl ltac:(simpl; lia)).
  fold this in Hspec.
  rewrite -head_lookup -(chain_head _ _ _ Hco) in Hspec.
  cbv beta. cbn [nodes].
  destruct (Construct_iter w _ (AtHead this) _ _) as [σ' []|σ'| | |];
    try done; simpl in Hspec.
  - destruct Hspec as (cells & Hvals & Hs' & Hsizes & Hall & Hcap).
    split; [done|]. split; [done|]. exists cells.
    rewrite insert_insert_eq in Hs'.
    split_and!; [done| |done|done].
    eapply adopt_object; [done..|].
    rewrite /= (proj2 Hr _ _ _ HLo Ho).
    by rewrite -(length_fmap snd cells) Hvals length_fmap.
  - destruct Hspec as (cells & Hs' & Hsizes & Hwhy).
    rewrite insert_insert_eq in Hs'.
    destruct (abandon_object _ _ _ _ _ _ Hr HL Hs' Hsizes)
      as (σ'' & -> & Hr'' & Hlists).
    done.
Qed.

(** ** Destruction and assignment *)

Lemma destroy_object_repr σ m this :
  repr σ m → m !! this = Some [] →
  ∃ σ', destroy_object this σ = Ok σ' tt ∧ repr σ' (delete this m) ∧
        nodes σ' = nodes σ.
Proof.
  intros [Hs Hn] Hl. destruct (shape_lookup _ _ _ _ Hs Hl) as (L & HL & Hc).
  rewrite /destroy_object /bind /live HL.
  eexists. split; [done|]. split; [|done]. split.
  - by apply shape_delete.
  - intros l L' cs HL' Hml. simpl in HL'.
    apply lookup_delete_Some in HL' as [_ HL'].
    apply lookup_delete_Some in Hml as [_ Hml]. by eapply Hn.
Qed.

Lemma destructor_repr w σ m this cs :
  repr σ m → m !! this = Some cs →
  ∃ σ', destructor w this σ = Ok σ' tt ∧ repr σ' (delete this m).
Proof.
  intros Hr Hl.
  destruct (Clear_repr w _ _ _ _ Hr Hl) as (σ1 & Hclear & Hr1 & _).
  destruct (destroy_object_repr σ1 _ this Hr1 (lookup_insert_eq _ _ _))
    as (σ2 & Hdestroy & Hr2 & _).
  rewrite delete_insert_eq in Hr2.
  exists σ2. split; [|done].
  rewrite /destructor. by erewrite bind_ok.
Qed.

(** Copy assignment from another list is copy, swap, destroy; the
    header's [swap] exchanges nothing, so there the copy is destroyed
    again and [this] keeps its elements. *)
Lemma assign_spec w σ m this rhs cs src :
  repr σ m → m !! this = Some cs → m !! rhs = Some src →
  match assign w this rhs σ with
  | Ok σ' _ =>
      if decide (this = rhs) then σ' = σ
      else match w with
           | header => repr σ' m
           | part_000 => ∃ cells, cells.*2 = src.*2 ∧
                                  repr σ' (<[this := cells]> m)
           end
  | Throws σ' => this ≠ rhs ∧ repr σ' m ∧ lists σ' = lists σ
  | _ => False
  end.
Proof.
  intros Hr Hl Ho.
  destruct (shape_lookup _ _ _ _ (proj1 Hr) Hl) as (L & HL & _).
  destruct (shape_lookup _ _ _ _ (proj1 Hr) Ho) as (Lo & HLo & _).
  rewrite /assign.
  erewrite bind_ok; [|by rewrite /live HL].
  erewrite bind_ok; [|by rewrite /live HLo].
  destruct (decide (this = rhs)) as [->|Hne].
  { by rewrite bool_decide_false; [|intros ?]. }
  rewrite bool_decide_true // {1}/bind.
  pose proof (SingleLinkedList_copy_spec w rhs σ m src Hr Ho) as Hcopy.
  destruct (SingleLinkedList_copy w rhs σ) as [σ1 tmp|σ1| | |]; try done.
  2:{ by destruct Hcopy as (? & ? & _). }
  destruct Hcopy as (-> & Hfresh & cells & Hvals & Hr1 & _).
  set (tmp := fresh (dom (lists σ))) in *.
  assert (this ≠ tmp) as Hnt by congruence.
  destruct w.
  - rewrite {1}/bind swap_header_ok.
    + destruct (destructor_repr header σ1 _ tmp cells Hr1
                  (lookup_insert_eq _ _ _)) as (σ2 & -> & Hr2).
      by rewrite delete_insert_eq delete_id in Hr2.
    + destruct (shape_lookup _ _ this cs (proj1 Hr1)) as (? & -> & _);
        [by rewrite lookup_insert_ne|]. done.
    + destruct (shape_lookup _ _ tmp cells (proj1 Hr1)) as (? & -> & _);
        [by rewrite lookup_insert_eq|]. done.
  - destruct (swap_repr σ1 _ this tmp cs cells Hr1) as (σ2 & Hswap & Hr2);
      [by rewrite lookup_insert_ne|by rewrite lookup_insert_eq|].
    erewrite bind_ok; [|done].
    destruct (destructor_repr part_000 σ2 _ tmp cs Hr2
                (lookup_insert_eq _ _ _)) as (σ3 & -> & Hr3).
    exists cells. split; [done|].
    rewrite delete_insert_eq delete_insert_ne // delete_insert_eq in Hr3.
    by rewrite delete_id in Hr3.
Qed.

(** ** Positions *)

Lemma position_step l cs i :
  AtNode <$> (fst <$> cs !! i) = position l cs (S i).
Proof. simpl. by destruct (cs !! i). Qed.

Lemma walk_position σ m l cs k :
  shape σ m → m !! l = Some cs →
  ∀ i it, walk σ (position l cs i) k = Some it →
          it = position l cs (i + k).
Proof.
  intros Hs Hl. induction k as [|k IH]; intros i it Hw; simpl in Hw.
  - rewrite Nat.add_0_r. by simplify_eq.
  - destruct (position l cs i) as [p|] eqn:Hp; [|done].
    rewrite (load_next_position _ _ _ _ _ _ Hs Hl Hp) (position_step l) in Hw.
    rewrite (IH _ _ Hw). f_equal. lia.
Qed.

Lemma refers_position σ m l cs k pos :
  shape σ m → m !! l = Some cs → refers σ l k pos →
  pos = position l cs k.
Proof.
  intros Hs Hl Hr.
  by apply (walk_position _ _ _ _ _ Hs Hl 0%nat) in Hr.
Qed.

Lemma position_refers σ m l cs k p :
  shape σ m → m !! l = Some cs → position l cs k = Some p →
  refers σ l k (Some p).
Proof.
  intros Hs Hl. rewrite /refers.
  change (before_begin l) with (position l cs 0).
  assert (∀ j i, position l cs (i + j) = Some p →
                 walk σ (position l cs i) j = Some (Some p)) as Hgen.
  { induction j as [|j IH]; intros i Hp.
    - rewrite Nat.add_0_r in Hp. by rewrite /= Hp.
    - assert (is_Some (position l cs i)) as [q Hq].
      { destruct i as [|i]; [by eexists|]. simpl in *.
        destruct (cs !! (i + S j)%nat) eqn:Hij; [|done].
        apply lookup_lt_Some in Hij.
        destruct (lookup_lt_is_Some_2 cs i) as [c Hc]; [lia|].
        rewrite Hc. by eexists. }
      rewrite /= Hq (load_next_position _ _ _ _ _ _ Hs Hl Hq) (position_step l).
      apply IH. by replace (S i + j)%nat with (i + S j)%nat by lia. }
  intros Hp. by apply (Hgen k 0%nat).
Qed.

Lemma position_Some_le l cs k p :
  position l cs k = Some p → (k ≤ length cs)%nat.
Proof.
  destruct k as [|i]; simpl; [lia|].
  destruct (cs !! i) eqn:Hi; [|done]. apply lookup_lt_Some in Hi. lia.
Qed.

(** ** Exceptions leave [InsertAfter] and [PushFront] without effect *)

Lemma InsertAfter_throws w σ l p v nx :
  load_next σ p = Some nx →
  copy_throws v = true ∨ ¬ (size (nodes σ) < capacity)%nat →
  InsertAfter w l (Some p) v σ = Throws σ.
Proof.
  intros Hnext Hwhy. rewrite /InsertAfter.
  erewrite bind_ok; [|by destruct w].
  erewrite bind_ok; [|by eapply read_next_ok].
  rewrite /bind /new_Node.
  case_decide; [|done].
  destruct (copy_throws v); [done|]. by destruct Hwhy.
Qed.

Lemma PushFront_throws σ l L v :
  lists σ !! l = Some L →
  copy_throws v = true ∨ ¬ (size (nodes σ) < capacity)%nat →
  PushFront l v σ = Throws σ.
Proof.
  intros HL Hwhy.
  pose proof (InsertAfter_before_begin header l v σ) as Heq.
  rewrite /before_begin (InsertAfter_throws header σ l (AtHead l) v
                           (head_next_node L)) // in Heq;
    [|by rewrite /= HL].
  destruct (PushFront l v σ) as [σ' []|σ'| | |]; try done.
  - by destruct (begin σ' l).
  - by simplify_eq.
Qed.

(** ** Every contract-abiding call keeps the invariant *)

Lemma store_inv_live σ l :
  store_inv σ → is_live σ l →
  ∃ m cs, repr σ m ∧ m !! l = Some cs.
Proof.
  intros [m Hr] [L HL].
  destruct (shape_live _ _ _ _ (proj1 Hr) HL) as (cs & Hm & _).
  by exists m, cs.
Qed.

Lemma run_spec w σ c :
  store_inv σ → contract σ c →
  match run w c σ with
  | Ok σ' _ | Throws σ' => store_inv σ'
  | _ => False
  end.
Proof.
  intros Hinv Hpre. destruct c; simpl in Hpre; rewrite /run.
  - (* default constructor *)
    destruct Hinv as [m Hr].
    destruct (SingleLinkedList_default_spec _ _ Hr) as (σ' & Hrun & _ & Hr').
    rewrite /bind Hrun /=. by eexists.
  - (* initializer-list constructor *)
    destruct Hinv as [m Hr].
    pose proof (SingleLinkedList_init_spec w values σ m Hr) as Hspec.
    rewrite /bind.
    destruct (SingleLinkedList_init w values σ) as [σ' this|σ'| | |];
      try done; simpl.
    + destruct Hspec as (_ & _ & cells & _ & Hr' & _). by eexists.
    + destruct Hspec as (Hr' & _). by eexists.
  - (* copy constructor *)
    destruct (store_inv_live _ _ Hinv Hpre) as (m & src & Hr & Ho).
    pose proof (SingleLinkedList_copy_spec w other σ m src Hr Ho) as Hspec.
    rewrite /bind.
    destruct (SingleLinkedList_copy w other σ) as [σ' this|σ'| | |];
      try done; simpl.
    + destruct Hspec as (_ & _ & cells & _ & Hr' & _). by eexists.
    + destruct Hspec as (Hr' & _). by eexists.
  - (* destructor *)
    destruct (store_inv_live _ _ Hinv Hpre) as (m & cs & Hr & Hl).
    destruct (destructor_repr w _ _ _ _ Hr Hl) as (σ' & -> & Hr').
    by eexists.
  - (* PushFront *)
    destruct (store_inv_live _ _ Hinv Hpre) as (m & cs & Hr & Hl).
    destruct (shape_lookup _ _ _ _ (proj1 Hr) Hl) as (L & HL & _).
    destruct (copy_throws v) eqn:Hcopy;
      [|destruct (decide (size (nodes σ) < capacity)%nat) as [Hroom|Hfull]].
    + rewrite (PushFront_throws σ this L v) //; auto.
    + destruct (PushFront_repr _ _ _ _ v Hr Hl Hcopy Hroom)
        as (σ' & -> & Hr'). by eexists.
    + rewrite (PushFront_throws σ this L v) //; auto.
  - (* PopFront *)
    destruct Hpre as [Hlive Hne].
    destruct (store_inv_live _ _ Hinv Hlive) as (m & cs & Hr & Hl).
    destruct (shape_lookup _ _ _ _ (proj1 Hr) Hl) as (L & HL & _).
    rewrite /IsEmpty HL /= in Hne.
    pose proof (proj2 Hr _ _ _ HL Hl) as Hsz.
    destruct cs as [|[c vc] cs].
    { simpl in Hsz. rewrite Hsz bool_decide_true // in Hne. }
    destruct (PopFront_repr w _ _ _ _ _ _ Hr Hl) as (σ' & -> & _ & Hr').
    by eexists.
  - (* InsertAfter *)
    destruct Hpre as [Hlive (k & p & -> & Hpos)].
    destruct (store_inv_live _ _ Hinv Hlive) as (m & cs & Hr & Hl).
    pose proof (refers_position _ _ _ _ _ _ (proj1 Hr) Hl Hpos) as Hp.
    symmetry in Hp.
    pose proof (load_next_position _ _ _ _ _ _ (proj1 Hr) Hl Hp) as Hnext.
    rewrite /bind.
    destruct (copy_throws v) eqn:Hcopy;
      [|destruct (decide (size (nodes σ) < capacity)%nat) as [Hroom|Hfull]].
    + rewrite (InsertAfter_throws w σ this p v _ Hnext) //; auto.
    + destruct (InsertAfter_repr w _ _ _ _ _ _ v Hr Hl Hp Hcopy Hroom)
        as (σ' & -> & Hr'). by eexists.
    + rewrite (InsertAfter_throws w σ this p v _ Hnext) //; auto.
  - (* EraseAfter *)
    destruct Hpre as [Hlive (k & p & q & -> & Hpos & Hsucc)].
    destruct (store_inv_live _ _ Hinv Hlive) as (m & cs & Hr & Hl).
    pose proof (refers_position _ _ _ _ _ _ (proj1 Hr) Hl Hpos) as Hp.
    pose proof (refers_position _ _ _ _ _ _ (proj1 Hr) Hl Hsucc) as Hq.
    symmetry in Hp. simpl in Hq.
    destruct (cs !! k) as [[c vc]|] eqn:Hk; [|done].
    destruct (EraseAfter_repr w _ _ _ _ _ _ _ _ Hr Hl Hp Hk)
      as (σ' & Hrun & _ & _ & Hr').
    rewrite /bind Hrun /=. by eexists.
  - (* Clear *)
    destruct (store_inv_live _ _ Hinv Hpre) as (m & cs & Hr & Hl).
    destruct (Clear_repr w _ _ _ _ Hr Hl) as (σ' & -> & Hr' & _).
    by eexists.
  - (* swap *)
    destruct Hpre as [Hlive Hlive'].
    destruct w.
    + by rewrite swap_header_ok.
    + destruct (store_inv_live _ _ Hinv Hlive) as (m & cs & Hr & Hl).
      destruct Hlive' as [L' HL'].
      destruct (shape_live _ _ _ _ (proj1 Hr) HL') as (cs' & Hl' & _).
      destruct (swap_repr _ _ _ _ _ _ Hr Hl Hl') as (σ' & -> & Hr').
      by eexists.
  - (* copy assignment *)
    destruct Hpre as [Hlive Hlive'].
    destruct (store_inv_live _ _ Hinv Hlive) as (m & cs & Hr & Hl).
    destruct Hlive' as [L' HL'].
    destruct (shape_live _ _ _ _ (proj1 Hr) HL') as (src & Ho & _).
    pose proof (assign_spec w σ m this rhs cs src Hr Hl Ho) as Hspec.
    destruct (assign w this rhs σ) as [σ' []|σ'| | |]; try done.
    + case_decide; [by subst|].
      destruct w; [by eexists|].
      destruct Hspec as (cells & _ & Hr'). by eexists.
    + destruct Hspec as (_ & Hr' & _). by eexists.
Qed.

Lemma reachable_store_inv w σ : reachable w σ → store_inv σ.
Proof.
  induction 1 as [|σ c σ' _ IH Hpre Hrun|σ c σ' _ IH Hpre Hrun].
  - exists ∅. apply repr_empty.
  - pose proof (run_spec w σ c IH Hpre) as Hspec. by rewrite Hrun in Hspec.
  - pose proof (run_spec w σ c IH Hpre) as Hspec. by rewrite Hrun in Hspec.
Qed.

(** ** The comparison operators on well-formed lists *)

Lemma iter_deref_node w σ a n :
  nodes σ !! a = Some n →
  iter_deref w (Some (AtNode a)) σ = Ok σ (value n).
Proof.
  intros Hn. rewrite /iter_deref.
  erewrite bind_ok; [|by destruct w]. by rewrite /read_value Hn.
Qed.

Lemma iter_next_node w σ a n :
  nodes σ !! a = Some n →
  iter_next w (Some (AtNode a)) σ = Ok σ (AtNode <$> next_node n).
Proof.
  intros Hn. rewrite /iter_next.
  erewrite bind_ok; [|by destruct w].
  erewrite bind_ok; [|eapply read_next_ok; by rewrite /= Hn]. done.
Qed.

Lemma std_equal_chain w σ fuel p q cs1 cs2 :
  chain (nodes σ) p cs1 → chain (nodes σ) q cs2 →
  (length cs1 ≤ length cs2)%nat → (length cs1 ≤ fuel)%nat →
  std_equal w fuel (AtNode <$> p) (AtNode <$> q) σ
  = Ok σ (equal_run (λ x y, negb (eq_op x y)) cs1.*2 cs2.*2).
Proof.
  intros Hc1. revert fuel q cs2.
  induction Hc1 as [|a n cs1 Hn Hc1 IH]; intros fuel q cs2 Hc2 Hlen Hfuel.
  { by destruct fuel. }
  destruct Hc2 as [|b nb cs2 Hnb Hc2]; simpl in *; [lia|].
  destruct fuel as [|fuel]; [lia|]. simpl.
  erewrite bind_ok; [|by eapply iter_deref_node].
  erewrite bind_ok; [|by eapply iter_deref_node].
  destruct (negb (eq_op (value n) (value nb))); [done|].
  erewrite bind_ok; [|by eapply iter_next_node].
  erewrite bind_ok; [|by eapply iter_next_node].
  erewrite bind_ok; [|eapply IH; [done|lia|lia]]. done.
Qed.

Lemma equal_loop_chain w σ fuel p q cs1 cs2 :
  chain (nodes σ) p cs1 → chain (nodes σ) q cs2 →
  (length cs1 ≤ length cs2)%nat → (length cs1 ≤ fuel)%nat →
  equal_loop w fuel (AtNode <$> p) (AtNode <$> q) σ
  = Ok σ (equal_run ne_op cs1.*2 cs2.*2).
Proof.
  intros Hc1. revert fuel q cs2.
  induction Hc1 as [|a n cs1 Hn Hc1 IH]; intros fuel q cs2 Hc2 Hlen Hfuel.
  { by destruct fuel. }
  destruct Hc2 as [|b nb cs2 Hnb Hc2]; simpl in *; [lia|].
  destruct fuel as [|fuel]; [lia|]. simpl.
  erewrite bind_ok; [|by eapply iter_deref_node].
  erewrite bind_ok; [|by eapply iter_deref_node].
  destruct (ne_op (value n) (value nb)); [done|].
  erewrite bind_ok; [|by eapply iter_next_node].
  erewrite bind_ok; [|by eapply iter_next_node].
  erewrite bind_ok; [|eapply IH; [done|lia|lia]]. done.
Qed.

Lemma equal_run_true differ xs ys :
  length xs = length ys →
  (equal_run differ xs ys).1 = true
  ↔ Forall2 (λ x y, differ x y = false) xs ys.
Proof.
  revert ys. induction xs as [|x xs IH]; intros [|y ys] Hlen;
    simplify_eq/=.
  - split; [constructor|done].
  - destruct (differ x y) eqn:Hd; simpl.
    + split; [done|]. intros Hall. inversion Hall; congruence.
    + rewrite IH //. split; [by constructor|].
      intros Hall. by inversion Hall.
Qed.

Lemma lexicographical_compare_chain w comp σ fuel p q cs1 cs2 :
  chain (nodes σ) p cs1 → chain (nodes σ) q cs2 →
  (length cs1 ≤ fuel)%nat →
  lexicographical_compare w comp fuel (AtNode <$> p) (AtNode <$> q) σ
  = Ok σ (lex comp cs1.*2 cs2.*2).
Proof.
  intros Hc1. revert fuel q cs2.
  induction Hc1 as [|a n cs1 Hn Hc1 IH]; intros fuel q cs2 Hc2 Hfuel.
  { destruct fuel; by destruct Hc2. }
  destruct Hc2 as [|b nb cs2 Hnb Hc2]; simpl in *.
  { by destruct fuel. }
  destruct fuel as [|fuel]; [lia|]. simpl.
  erewrite bind_ok; [|by eapply iter_deref_node].
  erewrite bind_ok; [|by eapply iter_deref_node].
  destruct (comp (value n) (value nb)); [done|].
  destruct (comp (value nb) (value n)); [done|].
  erewrite bind_ok; [|by eapply iter_next_node].
  erewrite bind_ok; [|by eapply iter_next_node].
  apply IH; [done|lia].
Qed.

(** On well-formed lists the ordering operators are [lex] on the
    traversals, each with its own element comparison. *)
Lemma compare_with_lex w comp σ m a b csa csb :
  shape σ m → m !! a = Some csa → m !! b = Some csb →
  compare_with w comp a b σ = Ok σ (lex comp csa.*2 csb.*2).
Proof.
  intros Hs Ha Hb.
  destruct (shape_lookup _ _ _ _ Hs Ha) as (La & HLa & Hca).
  destruct (shape_lookup _ _ _ _ Hs Hb) as (Lb & HLb & Hcb).
  rewrite /compare_with.
  erewrite bind_ok; [|eapply read_next_ok; by rewrite /= HLa].
  erewrite bind_ok; [|eapply read_next_ok; by rewrite /= HLb].
  eapply lexicographical_compare_chain; [done..|].
  by eapply chain_length_le.
Qed.

(** With an irreflexive element comparison a strict prefix is [lex]-less
    than the longer sequence, whichever comparison is used. *)
Lemma lex_strict_prefix comp xs y ys :
  (∀ x, comp x x = false) → lex comp xs (xs ++ y :: ys) = true.
Proof.
  intros Hirr. induction xs as [|x xs IH]; simpl; [done|].
  by rewrite Hirr.
Qed.

(** Two distinct live lists have the same first node only when both
    are empty. *)
Lemma shared_begin_empty σ m a b csa csb La Lb :
  shape σ m → a ≠ b → m !! a = Some csa → m !! b = Some csb →
  lists σ !! a = Some La → lists σ !! b = Some Lb →
  head_next_node La = head_next_node Lb → csa = [] ∧ csb = [].
Proof.
  intros Hs Hne Ha Hb HLa HLb Hhead.
  pose proof Hs as (Hch & Hsep & _).
  pose proof (Hch a) as Hca. rewrite HLa Ha in Hca.
  pose proof (Hch b) as Hcb. rewrite HLb Hb in Hcb.
  apply chain_head in Hca, Hcb. rewrite Hhead Hcb in Hca.
  destruct csa as [|[x vx] csa], csb as [|[y vy] csb]; simplify_eq/=; [done|].
  exfalso. eapply (Hsep a b _ _ Hne Ha Hb); simpl; left.
Qed.

(** * The specification, claim by claim *)

Lemma traversal_repr σ m l xs :
  repr σ m → traversal σ l = Some xs →
  ∃ cs, m !! l = Some cs ∧ xs = cs.*2.
Proof.
  intros [Hs _] Ht.
  destruct (lists σ !! l) as [L|] eqn:HL; [|by rewrite /traversal HL in Ht].
  destruct (shape_live _ _ _ _ Hs HL) as (cs & Hm & _).
  exists cs. split; [done|].
  rewrite (shape_traversal _ _ _ _ Hs Hm) in Ht. by simplify_eq.
Qed.

Lemma walk_snoc σ it k p nx :
  walk σ it k = Some (Some p) → load_next σ p = Some nx →
  walk σ it (S k) = Some (AtNode <$> nx).
Proof.
  revert it. induction k as [|k IH]; intros it Hw Hnx.
  - simpl in Hw. simplify_eq. by rewrite /= Hnx.
  - rewrite /= in Hw. destruct it as [p0|]; [|done].
    destruct (load_next σ p0) as [nx0|] eqn:Hp0; [|done].
    change (walk σ (Some p0) (S (S k))) with
      (match load_next σ p0 with
       | Some nx => walk σ (AtNode <$> nx) (S k)
       | None => None
       end).
    rewrite Hp0. by apply IH.
Qed.

(** In the second copy of the header [swap] exchanges the traversals and
    the sizes of any two lists of a well-formed store. *)
Lemma swap_part_000_exchanges σ a b xs ys :
  store_inv σ → traversal σ a = Some xs → traversal σ b = Some ys →
  ∃ σ', swap part_000 a b σ = Ok σ' tt ∧
        traversal σ' a = Some ys ∧ traversal σ' b = Some xs ∧
        GetSize σ' a = GetSize σ b ∧ GetSize σ' b = GetSize σ a.
Proof.
  intros [m Hr] Ha Hb.
  destruct (traversal_repr _ _ _ _ Hr Ha) as (csa & Hma & ->).
  destruct (traversal_repr _ _ _ _ Hr Hb) as (csb & Hmb & ->).
  destruct (swap_repr _ _ _ _ _ _ Hr Hma Hmb) as (σ' & Hswap & Hr').
  exists σ'. split; [done|].
  assert ((<[b := csa]> (<[a := csb]> m)) !! a = Some csb) as Ha'.
  { destruct (decide (a = b)) as [->|Hne].
    - rewrite lookup_insert_eq. congruence.
    - by rewrite lookup_insert_ne // lookup_insert_eq. }
  assert ((<[b := csa]> (<[a := csb]> m)) !! b = Some csa) as Hb'
    by apply lookup_insert_eq.
  rewrite (shape_traversal _ _ _ _ (proj1 Hr') Ha').
  rewrite (shape_traversal _ _ _ _ (proj1 Hr') Hb').
  rewrite (repr_GetSize _ _ _ _ Hr' Ha') (repr_GetSize _ _ _ _ Hr' Hb').
  by rewrite (repr_GetSize _ _ _ _ Hr Hma) (repr_GetSize _ _ _ _ Hr Hmb).
Qed.

(** C3: on a well-formed store [operator==] answers true exactly when
    the two lists are the same object or have equal sizes and pairwise
    equal elements in traversal order; when the sizes differ it answers
    false without having compared any two elements. *)
Theorem operator_eq_spec w σ a b xs ys :
  store_inv σ → (∀ x y, ne_op x y = negb (eq_op x y)) →
  traversal σ a = Some xs → traversal σ b = Some ys →
  ∃ r compared,
    operator_eq_traced w a b σ = Ok σ (r, compared) ∧
    operator_eq w a b σ = Ok σ r ∧
    (r = true ↔
     a = b ∨ (GetSize σ a = GetSize σ b ∧
              Forall2 (λ x y, eq_op x y = true) xs ys)) ∧
    (GetSize σ a ≠ GetSize σ b → r = false ∧ compared = []).
Proof.
  intros [m Hr] Hne_op Ha Hb.
  destruct (traversal_repr _ _ _ _ Hr Ha) as (csa & Hma & ->).
  destruct (traversal_repr _ _ _ _ Hr Hb) as (csb & Hmb & ->).
  destruct (shape_lookup _ _ _ _ (proj1 Hr) Hma) as (La & HLa & Hca).
  destruct (shape_lookup _ _ _ _ (proj1 Hr) Hmb) as (Lb & HLb & Hcb).
  pose proof (proj2 Hr _ _ _ HLa Hma) as Hsa.
  pose proof (proj2 Hr _ _ _ HLb Hmb) as Hsb.
  rewrite /GetSize HLa HLb /=.
  assert (∀ r compared,
            operator_eq_traced w a b σ = Ok σ (r, compared) →
            operator_eq w a b σ = Ok σ r) as Hfst.
  { intros r compared Heq. by rewrite /operator_eq /bind Heq. }
  assert (operator_eq_traced w a b σ
          = if bool_decide (head_next_node La = head_next_node Lb)
            then Ok σ (true, [])
            else if bool_decide (size_ La ≠ size_ Lb) then Ok σ (false, [])
                 else match w with
                      | header =>
                          std_equal w (size (nodes σ))
                            (AtNode <$> head_next_node La)
                            (AtNode <$> head_next_node Lb) σ
                      | part_000 =>
                          equal_loop w (size (nodes σ))
                            (AtNode <$> head_next_node La)
                            (AtNode <$> head_next_node Lb) σ
                      end) as Hunfold.
  { rewrite /operator_eq_traced.
    erewrite bind_ok; [|eapply read_next_ok; by rewrite /= HLa].
    erewrite bind_ok; [|eapply read_next_ok; by rewrite /= HLb].
    case_bool_decide; [done|].
    erewrite bind_ok; [|by eapply read_size_ok].
    erewrite bind_ok; [|by eapply read_size_ok].
    by case_bool_decide. }
  rewrite Hunfold in Hfst |- *.
  case_bool_decide as Hhead.
  { (* the first nodes coincide *)
    exists true, []. split_and!; [done|by eapply Hfst| |].
    - split; [|done]. intros _.
      destruct (decide (a = b)) as [->|Hne]; [by left|right].
      destruct (shared_begin_empty _ _ _ _ _ _ _ _ (proj1 Hr) Hne Hma Hmb
                  HLa HLb Hhead) as [-> ->].
      split; [by rewrite Hsa Hsb|constructor].
    - intros Hsz. exfalso. apply Hsz. f_equal.
      destruct (decide (a = b)) as [->|Hne]; [congruence|].
      destruct (shared_begin_empty _ _ _ _ _ _ _ _ (proj1 Hr) Hne Hma Hmb
                  HLa HLb Hhead) as [-> ->].
      by rewrite Hsa Hsb. }
  assert (a ≠ b) as Hab by (intros ->; congruence).
  case_bool_decide as Hsize.
  { (* the sizes differ *)
    exists false, []. split_and!; [done|by eapply Hfst| |done].
    split; [done|]. intros [?|[[=] _]]; done. }
  (* same size: the element loop *)
  assert (length csa = length csb) as Hlen by lia.
  pose proof (chain_length_le _ _ _ Hca) as Hfuel.
  set (differ := match w with
                 | header => λ x y, negb (eq_op x y)
                 | part_000 => ne_op
                 end).
  exists (equal_run differ csa.*2 csb.*2).1,
         (equal_run differ csa.*2 csb.*2).2.
  assert (match w with
          | header =>
              std_equal w (size (nodes σ)) (AtNode <$> head_next_node La)
                (AtNode <$> head_next_node Lb) σ
          | part_000 =>
              equal_loop w (size (nodes σ)) (AtNode <$> head_next_node La)
                (AtNode <$> head_next_node Lb) σ
          end = Ok σ ((equal_run differ csa.*2 csb.*2).1,
                      (equal_run differ csa.*2 csb.*2).2)) as Hloop.
  { rewrite -surjective_pairing /differ. destruct w.
    - apply std_equal_chain; [done|done|lia|done].
    - apply equal_loop_chain; [done|done|lia|done]. }
  split_and!; [done|by eapply Hfst| |].
  2:{ intros Hsz. exfalso. apply Hsz. f_equal. lia. }
  rewrite equal_run_true; [|by rewrite !length_fmap].
  split.
  - intros Hall. right. split; [by f_equal|].
    eapply Forall2_impl; [done|]. intros x y. rewrite /differ.
    destruct w; rewrite /= ?Hne_op; by destruct (eq_op x y).
  - intros [?|[_ Hall]]; [done|].
    eapply Forall2_impl; [done|]. intros x y Hxy. rewrite /differ.
    destruct w; by rewrite /= ?Hne_op Hxy.
Qed.

(** C4: when building the new node fails in [InsertAfter], because the
    free store is exhausted or because copying the value throws, the call
    throws and the store is the one before the call: no link and no
    [size_] has changed.  And whenever [InsertAfter] throws, from any
    state and for any position, the store is unchanged. *)
Theorem InsertAfter_strong_guarantee w σ this p v :
  is_Some (load_next σ p) →
  copy_throws v = true ∨ ¬ (size (nodes σ) < capacity)%nat →
  InsertAfter w this (Some p) v σ = Throws σ ∧
  ∀ pos v' σ', InsertAfter w this pos v' σ = Throws σ' → σ' = σ.
Proof.
  intros [nx Hnx] Hwhy. split; [by eapply InsertAfter_throws|].
  intros pos v' σ'. rewrite /InsertAfter /bind /assert /ret /undefined.
  assert (∀ p', match read_next p' σ with
                | Ok σ1 after =>
                    match new_Node v' after σ1 with
                    | Ok σ2 new_node =>
                        match write_next p' (Some new_node) σ2 with
                        | Ok σ3 _ =>
                            match incr_size this σ3 with
                            | Ok σ4 _ => Ok σ4 (Some (AtNode new_node))
                            | Throws σ4 => Throws σ4
                            | AssertFail => AssertFail
                            | Undefined => Undefined
                            | OutOfFuel => OutOfFuel
                            end
                        | Throws σ3 => Throws σ3
                        | AssertFail => AssertFail
                        | Undefined => Undefined
                        | OutOfFuel => OutOfFuel
                        end
                    | Throws σ2 => Throws σ2
                    | AssertFail => AssertFail
                    | Undefined => Undefined
                    | OutOfFuel => OutOfFuel
                    end
                | Throws σ1 => Throws σ1
                | AssertFail => AssertFail
                | Undefined => Undefined
                | OutOfFuel => OutOfFuel
                end = Throws σ' → σ' = σ) as Hcore.
  { intros p'. rewrite /read_next /new_Node /write_next /incr_size /bind
      /read_size /write_size.
    destruct (load_next σ p') as [after|]; [|done].
    case_decide; [|by intros [= ->]].
    destruct (copy_throws v'); [by intros [= ->]|].
    destruct (load_next _ p'); [|done]. simpl.
    by repeat case_match. }
  destruct w, pos as [p'|]; simpl; try done; apply Hcore.
Qed.

(** C5: constructing a list from the sequence [values] (no copy
    throwing, room for the nodes) returns a list whose traversal is
    [values], in order, and whose [GetSize()] is its length. *)
Theorem SingleLinkedList_init_traversal w values σ :
  store_inv σ →
  Forall (λ v, copy_throws v = false) values →
  (size (nodes σ) + length values ≤ capacity)%nat →
  ∃ σ' this,
    SingleLinkedList_init w values σ = Ok σ' this ∧
    traversal σ' this = Some values ∧
    GetSize σ' this = Some (Z.of_nat (length values)).
Proof.
  intros [m Hr] Hall Hroom.
  pose proof (SingleLinkedList_init_spec w values σ m Hr) as Hspec.
  destruct (SingleLinkedList_init w values σ) as [σ' this|σ'| | |];
    try done.
  - destruct Hspec as (_ & _ & cells & Hvals & Hr' & _).
    exists σ', this. split; [done|].
    assert (<[this := cells]> m !! this = Some cells) as Hm'
      by apply lookup_insert_eq.
    rewrite (shape_traversal _ _ _ _ (proj1 Hr') Hm').
    rewrite (repr_GetSize _ _ _ _ Hr' Hm').
    by rewrite Hvals -Hvals length_fmap.
  - destruct Hspec as (_ & _ & [Hex|Hfull]); [|lia].
    apply Exists_exists in Hex as (v & Hv & Hthrows).
    rewrite Forall_forall in Hall. specialize (Hall v Hv). congruence.
Qed.

(** C6: [InsertAfter(pos, v)] with [pos] being [k] steps behind
    [before_begin()] (the sentinel for [k = 0], the element of traversal
    index [i = k - 1] otherwise) puts [v] at traversal index [k = i + 1]
    between the elements before and the elements from that index on,
    which keep their order; the returned iterator is the position of
    that index and dereferences to [v]; [GetSize()] grows by one. *)
Theorem InsertAfter_inserts w σ this k p v xs :
  store_inv σ → traversal σ this = Some xs → refers σ this k (Some p) →
  copy_throws v = false → (size (nodes σ) < capacity)%nat →
  ∃ σ' it,
    InsertAfter w this (Some p) v σ = Ok σ' it ∧
    traversal σ' this = Some (take k xs ++ v :: drop k xs) ∧
    (take k xs ++ v :: drop k xs) !! k = Some v ∧
    iter_deref w it σ' = Ok σ' v ∧
    refers σ' this (S k) it ∧
    GetSize σ' this = Some (Z.of_nat (length xs) + 1).
Proof.
  intros [m Hr] Ht Hpos Hcopy Hroom.
  destruct (traversal_repr _ _ _ _ Hr Ht) as (cs & Hm & ->).
  pose proof (refers_position _ _ _ _ _ _ (proj1 Hr) Hm Hpos) as Hp.
  symmetry in Hp.
  pose proof (position_Some_le _ _ _ _ Hp) as Hk.
  destruct (InsertAfter_repr w _ _ _ _ _ _ v Hr Hm Hp Hcopy Hroom)
    as (σ' & Hrun & Hr').
  set (a := fresh (dom (nodes σ))) in *.
  set (cs' := take k cs ++ (a, v) :: drop k cs) in *.
  assert (<[this := cs']> m !! this = Some cs') as Hm'
    by apply lookup_insert_eq.
  assert (cs' !! k = Some (a, v)) as Hk'.
  { rewrite /cs' lookup_app_r length_take; [|lia].
    by replace (k - k `min` length cs)%nat with 0%nat by lia. }
  destruct (shape_lookup _ _ _ _ (proj1 Hr') Hm') as (L' & HL' & Hc').
  destruct (chain_live _ _ _ a Hc') as [n Hn];
    [by eapply elem_of_chain_lookup|].
  destruct (chain_next _ _ _ _ _ _ _ Hc' Hk' Hn) as (Hv & _).
  exists σ', (Some (AtNode a)). split_and!.
  - done.
  - rewrite (shape_traversal _ _ _ _ (proj1 Hr') Hm').
    by rewrite /cs' fmap_app fmap_cons fmap_take fmap_drop.
  - rewrite lookup_app_r length_take length_fmap; [|lia].
    by replace (k - k `min` length cs)%nat with 0%nat by lia.
  - by rewrite (iter_deref_node w σ' a n Hn) Hv.
  - eapply position_refers; [exact (proj1 Hr')|done|].
    by rewrite /= Hk'.
  - rewrite (repr_GetSize _ _ _ _ Hr' Hm') /cs' length_app /=.
    rewrite length_take length_drop length_fmap. f_equal. lia.
Qed.

(** C7: [EraseAfter(pos)] with [pos] being [k] steps behind
    [before_begin()] and having a successor [q] removes the element of
    traversal index [k]: the other elements stay in order, [GetSize()]
    drops by one, the next link of [pos] holds what the next link of the
    removed node held, the removed node is released, and the returned
    iterator is that successor, the position now following [pos] (the
    end iterator when there is none). *)
Theorem EraseAfter_erases w σ this k p q xs :
  store_inv σ → traversal σ this = Some xs →
  refers σ this k (Some p) → refers σ this (S k) (Some q) →
  ∃ σ' nx,
    EraseAfter w this (Some p) σ = Ok σ' (AtNode <$> nx) ∧
    traversal σ' this = Some (take k xs ++ drop (S k) xs) ∧
    GetSize σ' this = Some (Z.of_nat (length xs) - 1) ∧
    load_next σ q = Some nx ∧
    load_next σ' p = Some nx ∧
    load_next σ' q = None ∧
    refers σ' this (S k) (AtNode <$> nx).
Proof.
  intros [m Hr] Ht Hpos Hsucc.
  destruct (traversal_repr _ _ _ _ Hr Ht) as (cs & Hm & ->).
  pose proof (refers_position _ _ _ _ _ _ (proj1 Hr) Hm Hpos) as Hp.
  pose proof (refers_position _ _ _ _ _ _ (proj1 Hr) Hm Hsucc) as Hq.
  symmetry in Hp, Hq.
  pose proof (load_next_position _ _ _ _ _ _ (proj1 Hr) Hm Hq) as Hqnext.
  simpl in Hq. destruct (cs !! k) as [[c vc]|] eqn:Hk; simplify_eq/=.
  pose proof (lookup_lt_Some _ _ _ Hk) as Hklt.
  destruct (EraseAfter_repr w _ _ _ _ _ _ _ _ Hr Hm Hp Hk)
    as (σ' & Hrun & Hpnext & Hgone & Hr').
  set (cs' := take k cs ++ drop (S k) cs) in *.
  assert (<[this := cs']> m !! this = Some cs') as Hm'
    by apply lookup_insert_eq.
  assert (position this cs' k = Some p) as Hp'.
  { destruct k as [|i]; [done|]. simpl in *.
    rewrite /cs' lookup_app_l; [|rewrite length_take; lia].
    rewrite lookup_take_lt //. lia. }
  exists σ', (fst <$> cs !! S k). split_and!.
  - done.
  - rewrite (shape_traversal _ _ _ _ (proj1 Hr') Hm').
    by rewrite /cs' fmap_app fmap_take fmap_drop.
  - rewrite (repr_GetSize _ _ _ _ Hr' Hm') /cs' length_app.
    rewrite length_take length_drop length_fmap. f_equal. lia.
  - done.
  - done.
  - by rewrite /= Hgone.
  - eapply walk_snoc; [|done].
    by eapply position_refers; [exact (proj1 Hr')|..].
Qed.

(** C8: in every store reached from the empty one by constructors and
    contract-abiding calls of the public operations (returning or
    throwing), every list object heads a chain of nodes that ends in a
    null link and meets no node twice, and its [size_] is the number of
    nodes of that chain; the traversal visits exactly these nodes. *)
Theorem reachable_invariant w σ this L :
  reachable w σ → lists σ !! this = Some L →
  ∃ cs,
    chain (nodes σ) (head_next_node L) cs ∧
    size_ L = Z.of_nat (length cs) ∧
    NoDup cs.*1 ∧
    (∀ a v, last cs = Some (a, v) →
            ∃ n, nodes σ !! a = Some n ∧ next_node n = None) ∧
    traversal σ this = Some cs.*2 ∧
    GetSize σ this = Some (Z.of_nat (length cs)).
Proof.
  intros Hreach HL.
  destruct (reachable_store_inv _ _ Hreach) as [m Hr].
  destruct (shape_live _ _ _ _ (proj1 Hr) HL) as (cs & Hm & Hc).
  exists cs. split_and!.
  - done.
  - by eapply (proj2 Hr).
  - by eapply chain_NoDup.
  - intros a v Hlast. rewrite last_lookup in Hlast.
    destruct (chain_live _ _ _ a Hc) as [n Hn];
      [by eapply elem_of_chain_lookup|].
    exists n. split; [done|].
    destruct (chain_next _ _ _ _ _ _ _ Hc Hlast Hn) as (_ & -> & _).
    rewrite lookup_ge_None_2 //. destruct cs; simpl in *; [done|lia].
  - by eapply shape_traversal; [exact (proj1 Hr)|].
  - by eapply repr_GetSize.
Qed.

(** C9: when [PushFront(v)] returns, so does
    [InsertAfter(before_begin(), v)], with the same store, hence the
    same traversal and size, and the iterator it returns is [begin()]
    of the list afterwards; when [PushFront(v)] throws, so does
    [InsertAfter], with the same store. *)
Theorem InsertAfter_before_begin_PushFront w σ this v :
  (∀ σ1, PushFront this v σ = Ok σ1 tt →
         ∃ σ2 it, InsertAfter w this (before_begin this) v σ = Ok σ2 it ∧
                  σ2 = σ1 ∧
                  traversal σ2 this = traversal σ1 this ∧
                  GetSize σ2 this = GetSize σ1 this ∧
                  begin σ2 this = Some it) ∧
  (∀ σ1, PushFront this v σ = Throws σ1 →
         InsertAfter w this (before_begin this) v σ = Throws σ1).
Proof.
  rewrite InsertAfter_before_begin. split; intros σ1 Hpush; rewrite Hpush;
    [|done].
  assert (is_Some (begin σ1 this)) as [it Hit].
  { revert Hpush. rewrite /PushFront /bind /begin.
    destruct (read_next (AtHead this) σ) as [σa first| | | |]; try done.
    destruct (new_Node v first σa) as [σb a| | | |]; try done.
    destruct (write_next (AtHead this) (Some a) σb) as [σc []| | | |];
      try done.
    intros Hi. apply incr_size_live in Hi as [L1 ->]. by eexists. }
  rewrite Hit. by exists σ1, it.
Qed.

(** C10: in the header file, [PopFront()] on an empty list returns
    without touching the store: [GetSize()] stays 0 and the traversal
    stays empty. *)
Theorem PopFront_header_empty_noop σ this :
  store_inv σ → traversal σ this = Some [] →
  PopFront header this σ = Ok σ tt ∧
  GetSize σ this = Some 0 ∧ traversal σ this = Some [].
Proof.
  intros [m Hr] Ht.
  destruct (traversal_repr _ _ _ _ Hr Ht) as (cs & Hm & Hnil).
  symmetry in Hnil. apply fmap_nil_inv in Hnil as ->.
  destruct (shape_lookup _ _ _ _ (proj1 Hr) Hm) as (L & HL & _).
  pose proof (proj2 Hr _ _ _ HL Hm) as Hsz.
  split_and!; [by eapply PopFront_header_empty| |done].
  by rewrite (repr_GetSize _ _ _ _ Hr Hm).
Qed.

(** On well-formed lists [operator<] and [operator>] are [lex] on the
    traversals, with the element's [operator<] and [operator>]: for
    [operator<] that is the lexicographic order. *)
Lemma operator_lt_lex w σ a b xs ys :
  store_inv σ → traversal σ a = Some xs → traversal σ b = Some ys →
  operator_lt w a b σ = Ok σ (lex lt_op xs ys).
Proof.
  intros [m Hr] Ha Hb.
  destruct (traversal_repr _ _ _ _ Hr Ha) as (csa & Hma & ->).
  destruct (traversal_repr _ _ _ _ Hr Hb) as (csb & Hmb & ->).
  by eapply compare_with_lex; [exact (proj1 Hr)|..].
Qed.

Lemma operator_gt_lex w σ a b xs ys :
  store_inv σ → traversal σ a = Some xs → traversal σ b = Some ys →
  operator_gt w a b σ = Ok σ (lex gt_op xs ys).
Proof.
  intros [m Hr] Ha Hb.
  destruct (traversal_repr _ _ _ _ Hr Ha) as (csa & Hma & ->).
  destruct (traversal_repr _ _ _ _ Hr Hb) as (csb & Hmb & ->).
  by eapply compare_with_lex; [exact (proj1 Hr)|..].
Qed.

(** Hence a list that is a strict prefix of another is reported greater
    than it by [operator>], for every irreflexive [operator>] on the
    elements, while the longer list is not less than the prefix. *)
Lemma operator_gt_strict_prefix w σ a b xs y ys :
  store_inv σ → (∀ x, gt_op x x = false) → (∀ x, lt_op x x = false) →
  traversal σ a = Some xs → traversal σ b = Some (xs ++ y :: ys) →
  operator_gt w a b σ = Ok σ true ∧ operator_lt w b a σ = Ok σ false.
Proof.
  intros Hinv Hgt Hlt Ha Hb. split.
  - rewrite (operator_gt_lex w σ a b xs (xs ++ y :: ys)) //.
    by rewrite lex_strict_prefix.
  - rewrite (operator_lt_lex w σ b a (xs ++ y :: ys) xs) //. f_equal.
    clear Ha Hb. induction xs as [|x xs IH]; simpl; [done|].
    by rewrite Hlt.
Qed.

(** * Beyond the claims: the rest of the container *)

(** ** No call reaches into a list it was not called on *)

Lemma run_repr w σ m c :
  repr σ m → contract σ c →
  match run w c σ with
  | Ok σ' _ | Throws σ' =>
      ∃ m', repr σ' m' ∧
            ∀ l, l ∉ touched c → is_Some (m !! l) → m' !! l = m !! l
  | _ => False
  end.
Proof.
  intros Hr Hpre.
  assert (∀ l, is_live σ l → ∃ cs, m !! l = Some cs) as Hlive_m.
  { intros l [L HL].
    destruct (shape_live _ _ _ _ (proj1 Hr) HL) as (cs & Hm & _). eauto. }
  assert (∀ (this : lid) cs' l, l ∉ [this] → <[this := cs']> m !! l = m !! l)
    as Hins.
  { intros this cs' l Hl. rewrite lookup_insert_ne //. set_solver. }
  destruct c; simpl in Hpre; rewrite /run.
  - (* default constructor *)
    destruct (SingleLinkedList_default_spec _ _ Hr) as (σ' & Hrun & Hm & Hr').
    rewrite /bind Hrun /=. eexists. split; [done|].
    intros l _ [cs Hl]. rewrite lookup_insert_ne //. congruence.
  - (* initializer-list constructor *)
    pose proof (SingleLinkedList_init_spec w values σ m Hr) as Hspec.
    rewrite /bind.
    destruct (SingleLinkedList_init w values σ) as [σ' this|σ'| | |];
      try done; simpl.
    + destruct Hspec as (_ & Hm & cells & _ & Hr' & _).
      eexists. split; [done|].
      intros l _ [cs Hl]. rewrite lookup_insert_ne //. congruence.
    + destruct Hspec as (Hr' & _). by exists m.
  - (* copy constructor *)
    destruct (Hlive_m _ Hpre) as [src Ho].
    pose proof (SingleLinkedList_copy_spec w other σ m src Hr Ho) as Hspec.
    rewrite /bind.
    destruct (SingleLinkedList_copy w other σ) as [σ' this|σ'| | |];
      try done; simpl.
    + destruct Hspec as (_ & Hm & cells & _ & Hr' & _).
      eexists. split; [done|].
      intros l _ [cs Hl]. rewrite lookup_insert_ne //. congruence.
    + destruct Hspec as (Hr' & _). by exists m.
  - (* destructor *)
    destruct (Hlive_m _ Hpre) as [cs Hl].
    destruct (destructor_repr w _ _ _ _ Hr Hl) as (σ' & -> & Hr').
    eexists. split; [done|].
    intros l Hl' _. rewrite lookup_delete_ne //. set_solver.
  - (* PushFront *)
    destruct (Hlive_m _ Hpre) as [cs Hl].
    destruct (shape_lookup _ _ _ _ (proj1 Hr) Hl) as (L & HL & _).
    destruct (copy_throws v) eqn:Hcopy;
      [|destruct (decide (size (nodes σ) < capacity)%nat) as [Hroom|Hfull]].
    + rewrite (PushFront_throws σ this L v) //; auto. by exists m.
    + destruct (PushFront_repr _ _ _ _ v Hr Hl Hcopy Hroom)
        as (σ' & -> & Hr'). eexists. split; [done|]. intros; by apply Hins.
    + rewrite (PushFront_throws σ this L v) //; auto. by exists m.
  - (* PopFront *)
    destruct Hpre as [Hlive Hne].
    destruct (Hlive_m _ Hlive) as [cs Hl].
    destruct (shape_lookup _ _ _ _ (proj1 Hr) Hl) as (L & HL & _).
    rewrite /IsEmpty HL /= in Hne.
    pose proof (proj2 Hr _ _ _ HL Hl) as Hsz.
    destruct cs as [|[c vc] cs].
    { simpl in Hsz. rewrite Hsz bool_decide_true // in Hne. }
    destruct (PopFront_repr w _ _ _ _ _ _ Hr Hl) as (σ' & -> & _ & Hr').
    eexists. split; [done|]. intros; by apply Hins.
  - (* InsertAfter *)
    destruct Hpre as [Hlive (k & p & -> & Hpos)].
    destruct (Hlive_m _ Hlive) as [cs Hl].
    pose proof (refers_position _ _ _ _ _ _ (proj1 Hr) Hl Hpos) as Hp.
    symmetry in Hp.
    pose proof (load_next_position _ _ _ _ _ _ (proj1 Hr) Hl Hp) as Hnext.
    rewrite /bind.
    destruct (copy_throws v) eqn:Hcopy;
      [|destruct (decide (size (nodes σ) < capacity)%nat) as [Hroom|Hfull]].
    + rewrite (InsertAfter_throws w σ this p v _ Hnext) //; auto. by exists m.
    + destruct (InsertAfter_repr w _ _ _ _ _ _ v Hr Hl Hp Hcopy Hroom)
        as (σ' & -> & Hr'). eexists. split; [done|]. intros; by apply Hins.
    + rewrite (InsertAfter_throws w σ this p v _ Hnext) //; auto. by exists m.
  - (* EraseAfter *)
    destruct Hpre as [Hlive (k & p & q & -> & Hpos & Hsucc)].
    destruct (Hlive_m _ Hlive) as [cs Hl].
    pose proof (refers_position _ _ _ _ _ _ (proj1 Hr) Hl Hpos) as Hp.
    pose proof (refers_position _ _ _ _ _ _ (proj1 Hr) Hl Hsucc) as Hq.
    symmetry in Hp. simpl in Hq.
    destruct (cs !! k) as [[c vc]|] eqn:Hk; [|done].
    destruct (EraseAfter_repr w _ _ _ _ _ _ _ _ Hr Hl Hp Hk)
      as (σ' & Hrun & _ & _ & Hr').
    rewrite /bind Hrun /=. eexists. split; [done|]. intros; by apply Hins.
  - (* Clear *)
    destruct (Hlive_m _ Hpre) as [cs Hl].
    destruct (Clear_repr w _ _ _ _ Hr Hl) as (σ' & -> & Hr' & _).
    eexists. split; [done|]. intros; by apply Hins.
  - (* swap *)
    destruct Hpre as [Hlive Hlive'].
    destruct w.
    + rewrite swap_header_ok //. by exists m.
    + destruct (Hlive_m _ Hlive) as [cs Hl].
      destruct (Hlive_m _ Hlive') as [cs' Hl'].
      destruct (swap_repr _ _ _ _ _ _ Hr Hl Hl') as (σ' & -> & Hr').
      eexists. split; [done|].
      intros l Hnot _. rewrite !lookup_insert_ne //; set_solver.
  - (* copy assignment *)
    destruct Hpre as [Hlive Hlive'].
    destruct (Hlive_m _ Hlive) as [cs Hl].
    destruct (Hlive_m _ Hlive') as [src Ho].
    pose proof (assign_spec w σ m this rhs cs src Hr Hl Ho) as Hspec.
    destruct (assign w this rhs σ) as [σ' []|σ'| | |]; try done.
    + case_decide; [subst; by exists m|].
      destruct w; [by exists m|].
      destruct Hspec as (cells & _ & Hr').
      eexists. split; [done|]. intros; by apply Hins.
    + destruct Hspec as (_ & Hr' & _). by exists m.
Qed.

(** X1.  A contract-abiding call, whether it returns or throws, changes
    neither the traversal nor the size of any live list other than the
    ones it is called on; in particular a copy leaves its source alone,
    and mutating one of two equal lists never shows in the other. *)
Theorem run_frame w σ c σ' l :
  store_inv σ → contract σ c →
  run w c σ = Ok σ' tt ∨ run w c σ = Throws σ' →
  l ∉ touched c → is_live σ l →
  traversal σ' l = traversal σ l ∧ GetSize σ' l = GetSize σ l.
Proof.
  intros [m Hr] Hpre Hrun Hl [L HL].
  destruct (shape_live _ _ _ _ (proj1 Hr) HL) as (cs & Hm & _).
  pose proof (run_repr w σ m c Hr Hpre) as Hspec.
  assert (∃ m', repr σ' m' ∧ m' !! l = Some cs) as (m' & Hr' & Hm').
  { destruct Hrun as [Hrun|Hrun]; rewrite Hrun in Hspec;
      destruct Hspec as (m' & Hr' & Hsame); exists m';
      (split; [done|]); rewrite Hsame //. }
  rewrite (shape_traversal _ _ _ _ (proj1 Hr') Hm').
  rewrite (shape_traversal _ _ _ _ (proj1 Hr) Hm).
  by rewrite (repr_GetSize _ _ _ _ Hr' Hm') (repr_GetSize _ _ _ _ Hr Hm).
Qed.

(** ** Insertion undone by removal *)

Lemma store_eta (σ : store) : mkStore (nodes σ) (lists σ) = σ.
Proof. by destruct σ. Qed.

Lemma list_eta (L : SingleLinkedList) :
  mkList (head_next_node L) (size_ L) = L.
Proof. by destruct L. Qed.

Lemma wrap_incr_decr z : 0 ≤ z < size_t_modulus → wrap (wrap (z + 1) - 1) = z.
Proof.
  rewrite /wrap /size_t_modulus. intros Hz.
  change (2 ^ 64) with 18446744073709551616 in *.
  Z.div_mod_to_equations. lia.
Qed.

Lemma insert_erase_undo w σ this k p v nx :
  store_inv σ → is_live σ this → refers σ this k (Some p) →
  load_next σ p = Some nx →
  copy_throws v = false → (size (nodes σ) < capacity)%nat →
  ∃ σ1 it,
    InsertAfter w this (Some p) v σ = Ok σ1 it ∧
    EraseAfter w this (Some p) σ1 = Ok σ (AtNode <$> nx).
Proof.
  intros [m Hr] [L HL] Hpos Hnx Hcopy Hroom.
  destruct (shape_live _ _ _ _ (proj1 Hr) HL) as (cs & Hm & Hc).
  pose proof (refers_position _ _ _ _ _ _ (proj1 Hr) Hm Hpos) as Hp.
  symmetry in Hp.
  pose proof (proj2 Hr _ _ _ HL Hm) as Hsz.
  pose proof (chain_length_le _ _ _ Hc) as Hlen.
  set (a := fresh (dom (nodes σ))).
  assert (nodes σ !! a = None) as Hfresh by apply fresh_not_live.
  assert (0 ≤ size_ L < size_t_modulus ∧ wrap (size_ L + 1) ≠ 0) as [Hrange Hne0].
  { split; [lia|]. rewrite wrap_small; lia. }
  rewrite /InsertAfter.
  erewrite bind_ok; [|by destruct w].
  erewrite bind_ok; [|by eapply read_next_ok].
  erewrite bind_ok; [|rewrite /new_Node decide_True // Hcopy //].
  fold a.
  destruct (live_position _ _ _ _ _ _ (proj1 Hr) Hm Hp a (mkNode v nx))
    as [nx0 Hnx0].
  erewrite bind_ok; [|by eapply write_next_ok].
  destruct p as [l'|b].
  - (* behind the sentinel *)
    assert (l' = this) as ->.
    { destruct k as [|i]; simpl in Hp; [by simplify_eq|].
      destruct (cs !! i); simplify_eq/=. }
    rewrite /= HL /= in Hnx. injection Hnx as <-.
    erewrite bind_ok;
      [|eapply incr_size_ok; by rewrite /= lookup_alter_eq HL].
    eexists _, _. split; [reflexivity|]. simpl.
    rewrite insert_alter_eq /EraseAfter.
    erewrite bind_ok.
    2:{ destruct w; [|done]. erewrite bind_ok; [|done].
        erewrite bind_ok;
          [|eapply read_size_ok; by rewrite /= lookup_insert_eq].
        by rewrite /assert /= bool_decide_true. }
    erewrite bind_ok;
      [|eapply read_next_ok; by rewrite /= lookup_insert_eq].
    simpl.
    erewrite bind_ok;
      [|eapply read_next_ok; by rewrite /= lookup_insert_eq].
    simpl.
    erewrite bind_ok;
      [|eapply write_next_ok; by rewrite /= lookup_insert_eq].
    simpl.
    erewrite bind_ok;
      [|eapply delete_Node_ok; by rewrite /= lookup_insert_eq].
    simpl.
    erewrite bind_ok;
      [|eapply decr_size_ok; by rewrite /= lookup_alter_eq lookup_insert_eq].
    simpl.
    erewrite bind_ok;
      [|eapply read_next_ok; by rewrite /= lookup_insert_eq].
    rewrite /ret /=. f_equal.
    rewrite delete_insert_id // insert_alter_eq insert_insert_eq.
    rewrite wrap_incr_decr // list_eta (insert_id (lists σ)) //. apply store_eta.
  - (* behind a node *)
    rewrite /= in Hnx. destruct (nodes σ !! b) as [nb|] eqn:Hnb; [|done].
    injection Hnx as <-.
    assert (a ≠ b) as Hab by congruence.
    erewrite bind_ok; [|by eapply incr_size_ok].
    eexists _, _. split; [reflexivity|]. simpl.
    rewrite /EraseAfter.
    erewrite bind_ok.
    2:{ destruct w; [|done]. erewrite bind_ok; [|done].
        erewrite bind_ok;
          [|eapply read_size_ok; by rewrite /= lookup_insert_eq].
        by rewrite /assert /= bool_decide_true. }
    erewrite bind_ok;
      [|eapply read_next_ok;
        by rewrite /= lookup_alter_eq lookup_insert_ne // Hnb].
    simpl.
    erewrite bind_ok;
      [|eapply read_next_ok;
        by rewrite /= lookup_alter_ne // lookup_insert_eq].
    simpl.
    erewrite bind_ok;
      [|eapply write_next_ok;
        by rewrite /= lookup_alter_eq lookup_insert_ne // Hnb].
    simpl.
    erewrite bind_ok;
      [|eapply delete_Node_ok;
        by rewrite /= !lookup_alter_ne // lookup_insert_eq].
    simpl.
    erewrite bind_ok;
      [|eapply decr_size_ok; by rewrite /= lookup_insert_eq].
    simpl.
    erewrite bind_ok;
      [|eapply read_next_ok;
        by rewrite /= lookup_delete_ne // !lookup_alter_eq
             lookup_insert_ne // Hnb].
    rewrite /ret /=. f_equal.
    rewrite insert_insert_eq wrap_incr_decr // list_eta (insert_id (lists σ)) //.
    rewrite -{3}(store_eta σ). f_equal.
    apply map_eq. intros i.
    destruct (decide (i = a)) as [->|Hia].
    { by rewrite lookup_delete_eq. }
    rewrite lookup_delete_ne //.
    destruct (decide (i = b)) as [->|Hib].
    + rewrite !lookup_alter_eq ?lookup_insert_ne // Hnb /=. by destruct nb.
    + by rewrite !lookup_alter_ne // ?lookup_insert_ne.
Qed.

(** X2.  [InsertAfter(pos, v)] followed by [EraseAfter(pos)] gives the
    store back exactly: every link, every [size_] and the set of live
    nodes are as before, and [EraseAfter] returns the position that
    followed [pos] to begin with. *)
Theorem InsertAfter_EraseAfter_roundtrip w σ this k p v nx :
  store_inv σ → is_live σ this → refers σ this k (Some p) →
  load_next σ p = Some nx →
  copy_throws v = false → (size (nodes σ) < capacity)%nat →
  ∃ σ1 it,
    InsertAfter w this (Some p) v σ = Ok σ1 it ∧
    EraseAfter w this (Some p) σ1 = Ok σ (AtNode <$> nx).
Proof. apply insert_erase_undo. Qed.

(** ** The front of the list *)

Lemma PushFront_exec σ m l cs v :
  repr σ m → m !! l = Some cs →
  copy_throws v = false → (size (nodes σ) < capacity)%nat →
  ∃ σ' L' n,
    PushFront l v σ = Ok σ' tt ∧
    repr σ' (<[l := (fresh (dom (nodes σ)), v) :: cs]> m) ∧
    lists σ' !! l = Some L' ∧
    head_next_node L' = Some (fresh (dom (nodes σ))) ∧
    size_ L' = Z.of_nat (S (length cs)) ∧
    nodes σ' !! fresh (dom (nodes σ)) = Some n ∧ value n = v.
Proof.
  intros Hr Hl Hcopy Hroom.
  destruct (PushFront_repr _ _ _ _ v Hr Hl Hcopy Hroom) as (σ' & Hrun & Hr').
  set (a := fresh (dom (nodes σ))) in *.
  assert (<[l := (a, v) :: cs]> m !! l = Some ((a, v) :: cs)) as Hl'
    by apply lookup_insert_eq.
  destruct (shape_lookup _ _ _ _ (proj1 Hr') Hl') as (L' & HL' & Hc').
  destruct (chain_live _ _ _ a Hc') as [n Hn]; [simpl; left|].
  destruct (chain_next _ _ _ 0 a v n Hc' eq_refl Hn) as (Hv & _).
  exists σ', L', n. split_and!; try done.
  - by rewrite (chain_head _ _ _ Hc').
  - by rewrite (proj2 Hr' _ _ _ HL' Hl').
Qed.

(** X3.  [PushFront(v)], when the node can be built, puts [v] in front:
    the traversal becomes [v] followed by the old one, [GetSize()] grows
    by one, and [*begin()] is [v]. *)
Theorem PushFront_front w σ this v xs :
  store_inv σ → traversal σ this = Some xs →
  copy_throws v = false → (size (nodes σ) < capacity)%nat →
  ∃ σ' it,
    PushFront this v σ = Ok σ' tt ∧
    traversal σ' this = Some (v :: xs) ∧
    GetSize σ' this = Some (Z.of_nat (length xs) + 1) ∧
    begin σ' this = Some it ∧
    iter_deref w it σ' = Ok σ' v.
Proof.
  intros [m Hr] Ht Hcopy Hroom.
  destruct (traversal_repr _ _ _ _ Hr Ht) as (cs & Hl & ->).
  destruct (PushFront_exec _ _ _ _ v Hr Hl Hcopy Hroom)
    as (σ' & L' & n & Hrun & Hr' & HL' & Hhead & Hsz & Hn & Hv).
  exists σ', (Some (AtNode (fresh (dom (nodes σ))))). split_and!.
  - done.
  - by rewrite (shape_traversal _ _ this _ (proj1 Hr') (lookup_insert_eq _ _ _)).
  - rewrite /GetSize HL' /= Hsz length_fmap. f_equal. lia.
  - by rewrite /begin HL' /= Hhead.
  - by rewrite (iter_deref_node w σ' _ n Hn) Hv.
Qed.

(** X4.  [PushFront] either returns or throws leaving the store exactly
    as it was; on a live list it throws precisely when the free store is
    exhausted or copying the value throws. *)
Theorem PushFront_strong_guarantee σ this v :
  is_live σ this →
  (∀ σ', PushFront this v σ = Throws σ' → σ' = σ) ∧
  (PushFront this v σ = Throws σ ↔
   copy_throws v = true ∨ ¬ (size (nodes σ) < capacity)%nat).
Proof.
  intros [L HL].
  assert (∀ σ', PushFront this v σ = Throws σ' →
                σ' = σ ∧ (copy_throws v = true ∨
                          ¬ (size (nodes σ) < capacity)%nat)) as Hthrows.
  { intros σ'. rewrite /PushFront.
    erewrite bind_ok; [|eapply read_next_ok; by rewrite /= HL].
    rewrite /bind /new_Node.
    case_decide; [|intros [= <-]; auto].
    destruct (copy_throws v); [intros [= <-]; auto|].
    rewrite /write_next /= HL /= /incr_size /bind /read_size /write_size /=.
    by rewrite lookup_alter_eq HL /= lookup_alter_eq HL. }
  split; [intros σ' Hrun; by apply Hthrows|].
  split; [intros Hrun; by destruct (Hthrows _ Hrun)|].
  by apply (PushFront_throws σ this L).
Qed.

(** X5.  [PopFront()] on a non-empty list removes the first element: the
    traversal loses its head, [GetSize()] drops by one and the former
    first node is released.  Both files agree here. *)
Theorem PopFront_pops w σ this x xs :
  store_inv σ → traversal σ this = Some (x :: xs) →
  ∃ σ' c,
    begin σ this = Some (Some (AtNode c)) ∧
    PopFront w this σ = Ok σ' tt ∧
    traversal σ' this = Some xs ∧
    GetSize σ' this = Some (Z.of_nat (length xs)) ∧
    nodes σ' !! c = None.
Proof.
  intros [m Hr] Ht.
  destruct (traversal_repr _ _ _ _ Hr Ht) as (cs & Hl & Hxs).
  destruct cs as [|[c vc] cs]; simplify_eq/=.
  destruct (shape_lookup _ _ _ _ (proj1 Hr) Hl) as (L & HL & Hc).
  destruct (PopFront_repr w _ _ _ _ _ _ Hr Hl) as (σ' & Hrun & Hgone & Hr').
  exists σ', c. split_and!; try done.
  - by rewrite /begin HL /= (chain_head _ _ _ Hc).
  - by rewrite (shape_traversal _ _ this _ (proj1 Hr') (lookup_insert_eq _ _ _)).
  - rewrite (repr_GetSize _ _ this _ Hr' (lookup_insert_eq _ _ _)).
    by rewrite length_fmap.
Qed.

(** X6.  [PopFront()] right after [PushFront(v)] gives the store back
    exactly, in both files. *)
Theorem PushFront_PopFront_roundtrip w σ this v :
  store_inv σ → is_live σ this →
  copy_throws v = false → (size (nodes σ) < capacity)%nat →
  ∃ σ1, PushFront this v σ = Ok σ1 tt ∧ PopFront w this σ1 = Ok σ tt.
Proof.
  intros Hinv Hlive Hcopy Hroom.
  pose proof Hinv as [m Hr]. pose proof Hlive as [L HL].
  destruct (shape_live _ _ _ _ (proj1 Hr) HL) as (cs & Hl & Hc).
  destruct (PushFront_exec _ _ _ _ v Hr Hl Hcopy Hroom)
    as (σ1 & L1 & n & Hpush & Hr1 & HL1 & _ & Hsz1 & _).
  destruct (insert_erase_undo part_000 σ this 0 (AtHead this) v
              (head_next_node L)) as (σ1' & it & Hins & Hers);
    [done|done|done|by rewrite /= HL|done|done|].
  pose proof (InsertAfter_before_begin part_000 this v σ) as Heq.
  rewrite /before_begin Hins Hpush in Heq.
  assert (σ1' = σ1) as -> by (destruct (begin σ1 this); by simplify_eq).
  exists σ1. split; [done|].
  assert (PopFront_body this σ1 = Ok σ tt) as Hbody.
  { by rewrite PopFront_body_EraseAfter /before_begin Hers. }
  destruct w; [|done]. rewrite /PopFront.
  erewrite bind_ok; [|by eapply read_size_ok].
  rewrite bool_decide_true //. lia.
Qed.

(** ** Clear and the destructor *)

Lemma release_size_exact h dead :
  NoDup dead → (∀ a, a ∈ dead → is_Some (h !! a)) →
  (size (release h dead) + length dead = size h)%nat.
Proof.
  revert h. induction dead as [|a dead IH]; intros h Hnd Hlive; simpl; [lia|].
  apply NoDup_cons in Hnd as [Ha Hnd].
  assert (is_Some (h !! a)) as Hlive_a by (apply Hlive; left).
  assert (size h ≠ 0%nat) as Hne.
  { destruct Hlive_a as [n Hn]. apply map_size_non_empty_iff.
    intros ->. by rewrite lookup_empty in Hn. }
  rewrite Nat.add_succ_r IH //.
  - rewrite map_size_delete_Some //. lia.
  - intros b Hb. rewrite lookup_delete_ne; [|by intros <-].
    apply Hlive. by right.
Qed.

Lemma repr_empty_list σ m l :
  repr σ m → m !! l = Some [] → lists σ !! l = Some (mkList None 0).
Proof.
  intros Hr Hl. destruct (shape_lookup _ _ _ _ (proj1 Hr) Hl) as (L & HL & Hc).
  pose proof (proj2 Hr _ _ _ HL Hl) as Hsz.
  apply chain_head in Hc. destruct L; simplify_eq/=. by rewrite HL.
Qed.

(** [Clear] finds nothing to do on an empty list. *)
Lemma Clear_empty_noop w σ l :
  lists σ !! l = Some (mkList None 0) → Clear w l σ = Ok σ tt.
Proof.
  intros HL. rewrite /Clear.
  erewrite bind_ok; [|eapply read_next_ok; by rewrite /= HL].
  simpl. erewrite bind_ok; [|by destruct (size (nodes σ))].
  assert ((match w with header => write_size l 0 | part_000 => ret tt end) σ
          = Ok σ tt) as Hstep.
  { destruct w; [|done]. rewrite /write_size HL /= insert_id //.
    by rewrite store_eta. }
  erewrite bind_ok; [|done].
  rewrite /write_next /= HL /=. f_equal.
  rewrite alter_id; [apply store_eta|].
  intros L. rewrite HL. by intros [= <-].
Qed.

(** X7.  [Clear()] empties the list: afterwards the traversal is empty,
    [GetSize()] is 0, [IsEmpty()] holds and [begin()] is [end()]; exactly
    the nodes of the list have been released, so the number of live nodes
    drops by the old length. *)
Theorem Clear_clears w σ this xs :
  store_inv σ → traversal σ this = Some xs →
  ∃ σ',
    Clear w this σ = Ok σ' tt ∧
    traversal σ' this = Some [] ∧
    GetSize σ' this = Some 0 ∧
    IsEmpty σ' this = Some true ∧
    begin σ' this = Some end_ ∧
    (size (nodes σ') + length xs = size (nodes σ))%nat.
Proof.
  intros [m Hr] Ht.
  destruct (traversal_repr _ _ _ _ Hr Ht) as (cs & Hl & ->).
  destruct (shape_lookup _ _ _ _ (proj1 Hr) Hl) as (L & HL & Hc).
  destruct (Clear_repr w _ _ _ _ Hr Hl) as (σ' & Hrun & Hr' & Hnodes).
  pose proof (repr_empty_list _ _ this Hr' (lookup_insert_eq _ _ _)) as HL'.
  exists σ'. split_and!.
  - done.
  - by rewrite (shape_traversal _ _ this _ (proj1 Hr') (lookup_insert_eq _ _ _)).
  - by rewrite /GetSize HL'.
  - by rewrite /IsEmpty HL'.
  - by rewrite /begin HL'.
  - rewrite Hnodes length_fmap -(length_fmap fst cs).
    apply release_size_exact; [by eapply chain_NoDup|].
    intros a Ha. destruct (chain_live _ _ _ _ Hc Ha) as [n Hn]. by exists n.
Qed.

(** X8.  [Clear()] is idempotent: a second call right after the first
    returns with the store untouched. *)
Theorem Clear_idempotent w σ this :
  store_inv σ → is_live σ this →
  ∃ σ', Clear w this σ = Ok σ' tt ∧ Clear w this σ' = Ok σ' tt.
Proof.
  intros [m Hr] [L HL].
  destruct (shape_live _ _ _ _ (proj1 Hr) HL) as (cs & Hl & _).
  destruct (Clear_repr w _ _ _ _ Hr Hl) as (σ' & Hrun & Hr' & _).
  exists σ'. split; [done|].
  apply Clear_empty_noop.
  by apply (repr_empty_list _ _ this Hr' (lookup_insert_eq _ _ _)).
Qed.

(** X9.  The destructor ends the list object and releases exactly its
    nodes: nothing of the list stays allocated. *)
Theorem destructor_releases w σ this xs :
  store_inv σ → traversal σ this = Some xs →
  ∃ σ',
    destructor w this σ = Ok σ' tt ∧
    lists σ' !! this = None ∧
    (size (nodes σ') + length xs = size (nodes σ))%nat ∧
    store_inv σ'.
Proof.
  intros [m Hr] Ht.
  destruct (traversal_repr _ _ _ _ Hr Ht) as (cs & Hl & ->).
  destruct (shape_lookup _ _ _ _ (proj1 Hr) Hl) as (L & HL & Hc).
  destruct (Clear_repr w _ _ _ _ Hr Hl) as (σ1 & Hclear & Hr1 & Hnodes1).
  destruct (destroy_object_repr σ1 _ this Hr1 (lookup_insert_eq _ _ _))
    as (σ2 & Hdestroy & Hr2 & Hnodes2).
  exists σ2. split_and!.
  - rewrite /destructor. by erewrite bind_ok.
  - destruct (proj1 Hr2) as (Hch & _). specialize (Hch this).
    rewrite lookup_delete_eq in Hch. by destruct (lists σ2 !! this).
  - rewrite Hnodes2 Hnodes1 length_fmap -(length_fmap fst cs).
    apply release_size_exact; [by eapply chain_NoDup|].
    intros a Ha. destruct (chain_live _ _ _ _ Hc Ha) as [n Hn]. by exists n.
  - by eexists.
Qed.

(** ** Queries and iterators *)

(** X10.  On a well-formed store [IsEmpty()] says whether the traversal
    is empty, and so does [begin() == end()]. *)
Theorem IsEmpty_spec σ this xs :
  store_inv σ → traversal σ this = Some xs →
  IsEmpty σ this = Some (bool_decide (xs = [])) ∧
  (begin σ this = Some end_ ↔ xs = []).
Proof.
  intros [m Hr] Ht.
  destruct (traversal_repr _ _ _ _ Hr Ht) as (cs & Hl & ->).
  destruct (shape_lookup _ _ _ _ (proj1 Hr) Hl) as (L & HL & Hc).
  pose proof (proj2 Hr _ _ _ HL Hl) as Hsz.
  rewrite /IsEmpty /begin HL /= (chain_head _ _ _ Hc) Hsz.
  destruct cs as [|[a v] cs]; simpl; split; done.
Qed.

Lemma iter_next_Some w σ p nx :
  load_next σ p = Some nx →
  iter_next w (Some p) σ = Ok σ (AtNode <$> nx).
Proof.
  intros Hnx. rewrite /iter_next.
  erewrite bind_ok; [|by destruct w].
  erewrite bind_ok; [|by eapply read_next_ok]. done.
Qed.

Lemma iter_advance_position w σ m l cs k :
  shape σ m → m !! l = Some cs →
  ∀ j, (j + k ≤ S (length cs))%nat →
       iter_advance w k (position l cs j) σ = Ok σ (position l cs (j + k)).
Proof.
  intros Hs Hl. induction k as [|k IH]; intros j Hjk; simpl.
  - by rewrite Nat.add_0_r.
  - assert (is_Some (position l cs j)) as [p Hp].
    { destruct j as [|i]; [by eexists|]. simpl.
      destruct (lookup_lt_is_Some_2 cs i) as [c Hc]; [lia|].
      rewrite Hc. by eexists. }
    rewrite Hp.
    erewrite bind_ok;
      [|eapply iter_next_Some; by eapply load_next_position].
    rewrite (position_step l) IH; [|lia]. do 2 f_equal. lia.
Qed.

(** X11.  Iterating with [operator++] from [begin()] meets the elements
    of the traversal in order: after [i] steps [operator*] yields the
    element of index [i], and after as many steps as the list is long the
    iterator equals [end()].  One step from [before_begin()] is
    [begin()]. *)
Theorem iterator_walk w σ this xs :
  store_inv σ → traversal σ this = Some xs →
  ∃ first,
    begin σ this = Some first ∧
    iter_next w (before_begin this) σ = Ok σ first ∧
    iter_advance w (length xs) first σ = Ok σ end_ ∧
    ∀ i x, xs !! i = Some x →
           ∃ it, iter_advance w i first σ = Ok σ it ∧
                 iter_deref w it σ = Ok σ x.
Proof.
  intros [m Hr] Ht.
  destruct (traversal_repr _ _ _ _ Hr Ht) as (cs & Hl & ->).
  destruct (shape_lookup _ _ _ _ (proj1 Hr) Hl) as (L & HL & Hc).
  exists (position this cs 1). split_and!.
  - rewrite /begin HL /= (chain_head _ _ _ Hc) head_lookup.
    by destruct (cs !! 0%nat).
  - rewrite /before_begin (iter_next_Some w σ _ (head_next_node L));
      [|by rewrite /= HL].
    by rewrite (chain_head _ _ _ Hc) head_lookup (position_step this).
  - rewrite (iter_advance_position w σ m this cs _ (proj1 Hr) Hl);
      [|rewrite length_fmap; lia].
    rewrite length_fmap /= lookup_ge_None_2 //.
  - intros i x Hi. rewrite list_lookup_fmap in Hi.
    destruct (cs !! i) as [[a v]|] eqn:Hci; simpl in Hi; simplify_eq.
    pose proof (lookup_lt_Some _ _ _ Hci) as Hlt.
    exists (Some (AtNode a)). split.
    + rewrite (iter_advance_position w σ m this cs _ (proj1 Hr) Hl); [|lia].
      by rewrite /= Hci.
    + destruct (chain_live _ _ _ a Hc) as [n Hn];
        [by eapply elem_of_chain_lookup|].
      destruct (chain_next _ _ _ _ _ _ _ Hc Hci Hn) as (Hv & _).
      by rewrite (iter_deref_node w σ a n Hn) Hv.
Qed.

(** ** Copying *)

Lemma same_lists_same_traversal σ σ' m l :
  repr σ m → repr σ' m → traversal σ' l = traversal σ l.
Proof.
  intros Hr Hr'.
  destruct (m !! l) as [cs|] eqn:Hl.
  - by rewrite (shape_traversal _ _ _ _ (proj1 Hr) Hl)
         (shape_traversal _ _ _ _ (proj1 Hr') Hl).
  - rewrite /traversal.
    destruct (proj1 Hr) as (Hch & _). destruct (proj1 Hr') as (Hch' & _).
    specialize (Hch l). specialize (Hch' l). rewrite Hl in Hch, Hch'.
    by destruct (lists σ !! l), (lists σ' !! l).
Qed.

(** X12.  The copy constructor, when every element can be copied and
    the free store has room, makes a new list object with the traversal
    and the size of its source, and leaves the source as it was. *)
Theorem copy_constructor_copies w σ other xs :
  store_inv σ → traversal σ other = Some xs →
  Forall (λ v, copy_throws v = false) xs →
  (size (nodes σ) + length xs ≤ capacity)%nat →
  ∃ σ' this,
    SingleLinkedList_copy w other σ = Ok σ' this ∧
    lists σ !! this = None ∧
    traversal σ' this = Some xs ∧
    traversal σ' other = Some xs ∧
    GetSize σ' this = Some (Z.of_nat (length xs)) ∧
    GetSize σ' other = Some (Z.of_nat (length xs)).
Proof.
  intros [m Hr] Ht Hall Hroom.
  destruct (traversal_repr _ _ _ _ Hr Ht) as (src & Ho & ->).
  pose proof (SingleLinkedList_copy_spec w other σ m src Hr Ho) as Hspec.
  destruct (SingleLinkedList_copy w other σ) as [σ' this|σ'| | |]; try done.
  - destruct Hspec as (-> & Hfresh & cells & Hvals & Hr' & _).
    set (this := fresh (dom (lists σ))) in *.
    assert (other ≠ this) as Hne by congruence.
    assert (<[this := cells]> m !! this = Some cells) as Hthis
      by apply lookup_insert_eq.
    assert (<[this := cells]> m !! other = Some src) as Hother
      by by rewrite lookup_insert_ne.
    exists σ', this. split_and!.
    + done.
    + apply (fresh_object_dead _ _ (proj1 Hr)).
    + by rewrite (shape_traversal _ _ _ _ (proj1 Hr') Hthis) Hvals.
    + by rewrite (shape_traversal _ _ _ _ (proj1 Hr') Hother).
    + rewrite (repr_GetSize _ _ _ _ Hr' Hthis).
      by rewrite -(length_fmap snd cells) Hvals.
    + rewrite (repr_GetSize _ _ _ _ Hr' Hother). by rewrite length_fmap.
  - destruct Hspec as (_ & _ & [Hex|Hfull]); [|rewrite length_fmap in Hroom; lia].
    apply Exists_exists in Hex as (v & Hv & Hthrows).
    rewrite Forall_forall in Hall. specialize (Hall v Hv). congruence.
Qed.

(** X13.  A constructor that throws, from an initializer list or from
    another list, leaves every list object of the store with its links,
    its size and its traversal. *)
Theorem constructors_throw_keep_lists w σ σ' :
  store_inv σ →
  (∀ values, SingleLinkedList_init w values σ = Throws σ' →
             lists σ' = lists σ ∧ ∀ l, traversal σ' l = traversal σ l) ∧
  (∀ other, is_live σ other →
            SingleLinkedList_copy w other σ = Throws σ' →
            lists σ' = lists σ ∧ ∀ l, traversal σ' l = traversal σ l).
Proof.
  intros [m Hr]. split.
  - intros values Hrun.
    pose proof (SingleLinkedList_init_spec w values σ m Hr) as Hspec.
    rewrite Hrun in Hspec. destruct Hspec as (Hr' & Hlists & _).
    split; [done|]. intros l. by eapply same_lists_same_traversal.
  - intros other [Lo HLo] Hrun.
    destruct (shape_live _ _ _ _ (proj1 Hr) HLo) as (src & Ho & _).
    pose proof (SingleLinkedList_copy_spec w other σ m src Hr Ho) as Hspec.
    rewrite Hrun in Hspec. destruct Hspec as (Hr' & Hlists & _).
    split; [done|]. intros l. by eapply same_lists_same_traversal.
Qed.

Lemma Construct_throws_count w bad rest good :
  ∀ σ m this cs node,
    shape σ m → m !! this = Some cs →
    position this cs (length cs) = Some node →
    Forall (λ v, copy_throws v = false) good → copy_throws bad = true →
    (size (nodes σ) + length good ≤ capacity)%nat →
    ∃ σ', Construct w node (good ++ bad :: rest) σ = Throws σ' ∧
          size (nodes σ') = (size (nodes σ) + length good)%nat.
Proof.
  induction good as [|x good IH];
    intros σ m this cs node Hs Hl Hp Hall Hbad Hroom; simpl.
  - exists σ. split; [|lia]. rewrite /bind.
    destruct w; simpl; rewrite ?Hbad //.
    rewrite /new_Node Hbad. by case_decide.
  - apply Forall_cons in Hall as [Hx Hall]. simpl in Hroom.
    assert (size (nodes σ) < capacity)%nat as Hlt by lia.
    erewrite bind_ok; [|by destruct w; rewrite /= ?Hx].
    erewrite bind_ok; [|rewrite /new_Node decide_True // Hx //].
    destruct (append_shape _ _ _ _ _ x Hs Hl Hp Hlt)
      as (Hw & Hadv & Hs' & Hp' & _ & Hsize).
    erewrite bind_ok; [|done].
    erewrite bind_ok; [|done].
    destruct (IH _ _ this _ _ Hs' (lookup_insert_eq _ _ _) Hp' Hall Hbad)
      as (σ' & Hrun & Hcount); [rewrite Hsize; lia|].
    exists σ'. split; [done|]. rewrite Hcount Hsize. lia.
Qed.

(** X14.  When the initializer-list constructor throws at an element
    after having built nodes for the elements before it, those nodes stay
    allocated although the list object is gone and no list of the store
    has changed: they are leaked. *)
Theorem init_constructor_leaks w σ good bad rest :
  store_inv σ →
  Forall (λ v, copy_throws v = false) good → copy_throws bad = true →
  (size (nodes σ) + length good ≤ capacity)%nat →
  ∃ σ',
    SingleLinkedList_init w (good ++ bad :: rest) σ = Throws σ' ∧
    lists σ' = lists σ ∧
    (∀ l, traversal σ' l = traversal σ l) ∧
    size (nodes σ') = (size (nodes σ) + length good)%nat.
Proof.
  intros [m Hr] Hall Hbad Hroom.
  destruct (fresh_object_dead _ _ (proj1 Hr)) as [HL Hm].
  set (values := good ++ bad :: rest).
  set (this := fresh (dom (lists σ))) in *.
  set (σ0 := mkStore (nodes σ)
               (<[this := mkList None (Z.of_nat (length values))]> (lists σ))).
  pose proof (shape_new_object σ m (Z.of_nat (length values)) (proj1 Hr))
    as Hs0.
  fold this σ0 in Hs0.
  destruct (Construct_throws_count w bad rest good σ0 _ this [] (AtHead this)
              Hs0 (lookup_insert_eq _ _ _) eq_refl Hall Hbad Hroom)
    as (σ1 & Hrun & Hcount).
  pose proof (Construct_spec w values σ0 _ this [] (AtHead this)
                Hs0 (lookup_insert_eq _ _ _) eq_refl) as Hspec.
  rewrite /values Hrun in Hspec.
  destruct Hspec as (cells & Hs1 & Hsizes & _).
  rewrite insert_insert_eq in Hs1.
  destruct (abandon_object _ _ _ _ _ _ Hr HL Hs1 Hsizes)
    as (σ2 & Hdestroy & Hr2 & Hlists).
  assert (nodes σ2 = nodes σ1) as Hnodes.
  { revert Hdestroy. rewrite /destroy_object /bind /live.
    destruct (lists σ1 !! this); [|done]. by intros [= <-]. }
  exists σ2. split_and!.
  - rewrite /SingleLinkedList_init /new_object {1}/bind -/this -/σ0.
    by rewrite {1}/bind /unwind Hrun Hdestroy.
  - done.
  - intros l. by eapply same_lists_same_traversal.
  - by rewrite Hnodes Hcount.
Qed.

(** X15.  In the second copy of the header, copy assignment from another
    list gives [this] the traversal and size of [rhs] and leaves [rhs] as
    it was. *)
Theorem assign_copies σ this rhs xs ys :
  store_inv σ → traversal σ this = Some xs → traversal σ rhs = Some ys →
  this ≠ rhs →
  Forall (λ v, copy_throws v = false) ys →
  (size (nodes σ) + length ys ≤ capacity)%nat →
  ∃ σ',
    assign part_000 this rhs σ = Ok σ' tt ∧
    traversal σ' this = Some ys ∧
    traversal σ' rhs = Some ys ∧
    GetSize σ' this = Some (Z.of_nat (length ys)) ∧
    GetSize σ' rhs = Some (Z.of_nat (length ys)).
Proof.
  intros [m Hr] Ht Hto Hne Hall Hroom.
  destruct (traversal_repr _ _ _ _ Hr Ht) as (cs & Hl & ->).
  destruct (traversal_repr _ _ _ _ Hr Hto) as (src & Ho & ->).
  pose proof (assign_spec part_000 σ m this rhs cs src Hr Hl Ho) as Hspec.
  pose proof (SingleLinkedList_copy_spec part_000 rhs σ m src Hr Ho) as Hcopy.
  destruct (shape_lookup _ _ _ _ (proj1 Hr) Hl) as (L & HL & _).
  destruct (shape_lookup _ _ _ _ (proj1 Hr) Ho) as (Lo & HLo & _).
  assert (∀ σ1, SingleLinkedList_copy part_000 rhs σ ≠ Throws σ1) as Hnothrow.
  { intros σ1 Heq. rewrite Heq in Hcopy.
    destruct Hcopy as (_ & _ & [Hex|Hfull]);
      [|rewrite length_fmap in Hroom; lia].
    apply Exists_exists in Hex as (v & Hv & Hthrows).
    rewrite Forall_forall in Hall. specialize (Hall v Hv). congruence. }
  assert (∀ σ1, assign part_000 this rhs σ ≠ Throws σ1) as Hassign.
  { intros σ1. rewrite /assign.
    erewrite bind_ok; [|by rewrite /live HL].
    erewrite bind_ok; [|by rewrite /live HLo].
    rewrite bool_decide_true // {1}/bind.
    destruct (SingleLinkedList_copy part_000 rhs σ) as [σ2 tmp|σ2| | |] eqn:Hc;
      try done; [|by destruct (Hnothrow σ2)].
    destruct Hcopy as (-> & Hfresh & cells & Hvals & Hr1 & _).
    destruct (swap_repr σ2 _ this (fresh (dom (lists σ))) cs cells Hr1)
      as (σ3 & Hswap & Hr3);
      [rewrite lookup_insert_ne //; congruence|by rewrite lookup_insert_eq|].
    erewrite bind_ok; [|done].
    by destruct (destructor_repr part_000 σ3 _ (fresh (dom (lists σ))) cs Hr3
                   (lookup_insert_eq _ _ _)) as (σ4 & -> & _). }
  destruct (assign part_000 this rhs σ) as [σ' []|σ'| | |]; try done;
    [|by destruct (Hassign σ')].
  rewrite decide_False // in Hspec.
  destruct Hspec as (cells & Hvals & Hr').
  assert (<[this := cells]> m !! this = Some cells) as Hthis
    by apply lookup_insert_eq.
  assert (<[this := cells]> m !! rhs = Some src) as Hrhs
    by by rewrite lookup_insert_ne.
  exists σ'. split_and!.
  - done.
  - by rewrite (shape_traversal _ _ _ _ (proj1 Hr') Hthis) Hvals.
  - by rewrite (shape_traversal _ _ _ _ (proj1 Hr') Hrhs).
  - rewrite (repr_GetSize _ _ _ _ Hr' Hthis).
    by rewrite -(length_fmap snd cells) Hvals.
  - rewrite (repr_GetSize _ _ _ _ Hr' Hrhs). by rewrite length_fmap.
Qed.

(** X16.  Copy assignment never damages a list: assigning a list to
    itself returns with the store untouched, and an assignment that
    throws leaves every list object with its links, size and traversal.
    This holds in both files. *)
Theorem assign_guarantees w σ this rhs :
  store_inv σ → is_live σ this → is_live σ rhs →
  assign w this this σ = Ok σ tt ∧
  ∀ σ', assign w this rhs σ = Throws σ' →
        lists σ' = lists σ ∧ ∀ l, traversal σ' l = traversal σ l.
Proof.
  intros [m Hr] [L HL] [Lo HLo].
  destruct (shape_live _ _ _ _ (proj1 Hr) HL) as (cs & Hl & _).
  destruct (shape_live _ _ _ _ (proj1 Hr) HLo) as (src & Ho & _).
  split.
  - rewrite /assign.
    erewrite bind_ok; [|by rewrite /live HL].
    erewrite bind_ok; [|by rewrite /live HL].
    by rewrite bool_decide_false; [|intros ?].
  - intros σ' Hrun.
    pose proof (assign_spec w σ m this rhs cs src Hr Hl Ho) as Hspec.
    rewrite Hrun in Hspec. destruct Hspec as (_ & Hr' & Hlists).
    split; [done|]. intros l. by eapply same_lists_same_traversal.
Qed.

(** X17.  In the second copy of the header [swap] only exchanges the two
    [head_.next_node] and the two [size_] fields: no node is touched, a
    second [swap] gives the store back exactly, the order of the two
    lists does not matter, and swapping a list with itself changes
    nothing. *)
Theorem swap_part_000_involution σ a b :
  is_live σ a → is_live σ b →
  swap part_000 a a σ = Ok σ tt ∧
  ∃ σ1,
    swap part_000 a b σ = Ok σ1 tt ∧
    swap part_000 b a σ = Ok σ1 tt ∧
    nodes σ1 = nodes σ ∧
    swap part_000 a b σ1 = Ok σ tt.
Proof.
  intros [La Ha] [Lb Hb].
  assert (∀ (g : gmap positive SingleLinkedList) x y X Y,
            g !! x = Some X → g !! y = Some Y →
            <[y := X]> (<[x := Y]> g) = <[x := Y]> (<[y := X]> g)) as Hcomm.
  { intros g x y X Y Hx Hy. destruct (decide (x = y)) as [->|Hxy].
    - rewrite !insert_insert_eq. congruence.
    - by rewrite insert_insert_ne. }
  split.
  - rewrite (swap_part_000_ok σ a a La La) // insert_insert_eq insert_id //.
    by rewrite store_eta.
  - eexists. split; [by apply swap_part_000_ok|].
    split; [rewrite (swap_part_000_ok σ b a Lb La) // (Hcomm _ b a) //|].
    split; [done|].
    destruct (decide (a = b)) as [->|Hne].
    + assert (La = Lb) as <- by congruence.
      rewrite (swap_part_000_ok _ b b La La) /=;
        [|by rewrite lookup_insert_eq..].
      by rewrite !insert_insert_eq insert_id // store_eta.
    + rewrite (swap_part_000_ok _ a b Lb La) /=;
        [|by rewrite lookup_insert_ne // lookup_insert_eq
         |by rewrite lookup_insert_eq].
      assert (<[b := Lb]> (<[a := La]> (<[b := La]> (<[a := Lb]> (lists σ))))
              = lists σ) as ->; [|by rewrite store_eta].
      apply map_eq. intros i.
      destruct (decide (i = b)) as [->|Hib]; [by rewrite lookup_insert_eq|].
      rewrite lookup_insert_ne //.
      destruct (decide (i = a)) as [->|Hia]; [by rewrite lookup_insert_eq|].
      by rewrite !lookup_insert_ne.
Qed.

(** ** Calls outside the contract *)

(** X18.  [EraseAfter] at the last position of a list, where there is
    nothing to erase, is outside the contract: the header stops at
    [assert(size_)] when the list is empty and otherwise dereferences the
    null [node_to_del]; the second copy, which has no assertion,
    dereferences it in every case. *)
Theorem EraseAfter_at_last w σ this xs p :
  store_inv σ → traversal σ this = Some xs →
  refers σ this (length xs) (Some p) →
  EraseAfter w this (Some p) σ
  = match w with
    | header => if bool_decide (xs = []) then AssertFail else Undefined
    | part_000 => Undefined
    end.
Proof.
  intros [m Hr] Ht Hp.
  destruct (traversal_repr _ _ _ _ Hr Ht) as (cs & Hl & ->).
  rewrite length_fmap in Hp.
  pose proof (refers_position _ _ _ _ _ _ (proj1 Hr) Hl Hp) as Hpos.
  symmetry in Hpos.
  pose proof (load_next_position _ _ _ _ _ _ (proj1 Hr) Hl Hpos) as Hnx.
  rewrite lookup_ge_None_2 //= in Hnx.
  destruct (shape_lookup _ _ _ _ (proj1 Hr) Hl) as (L & HL & _).
  pose proof (proj2 Hr _ _ _ HL Hl) as Hsize.
  rewrite /EraseAfter. destruct w.
  - rewrite /assert bool_decide_true // {1}/bind {1}/bind /ret.
    erewrite bind_ok; [|by eapply read_size_ok].
    rewrite Hsize. destruct cs as [|c cs]; simpl.
    + done.
    + by erewrite bind_ok; [|by eapply read_next_ok].
  - rewrite {1}/bind /ret. by erewrite bind_ok; [|by eapply read_next_ok].
Qed.

(** X19.  In the second copy of the header [PopFront] has no guard: on
    an empty list it dereferences the null first node. *)
Theorem PopFront_part_000_empty_undefined σ this :
  store_inv σ → traversal σ this = Some [] →
  PopFront part_000 this σ = Undefined.
Proof.
  intros [m Hr] Ht.
  destruct (traversal_repr _ _ _ _ Hr Ht) as (cs & Hl & Hnil).
  destruct cs; [|done].
  pose proof (load_next_position _ _ _ _ 0 _ (proj1 Hr) Hl eq_refl) as Hnx.
  rewrite /PopFront /PopFront_body.
  by erewrite bind_ok; [|by eapply read_next_ok].
Qed.

(** ** The comparison operators *)

Lemma operator_eq_value w σ m a b csa csb :
  repr σ m → m !! a = Some csa → m !! b = Some csb →
  operator_eq w a b σ
  = Ok σ (if decide (a = b ∨ (csa = [] ∧ csb = [])) then true
          else if decide (length csa = length csb)
               then (equal_run (match w with
                                | header => λ x y, negb (eq_op x y)
                                | part_000 => ne_op
                                end) csa.*2 csb.*2).1
               else false).
Proof.
  intros Hr Hma Hmb.
  destruct (shape_lookup _ _ _ _ (proj1 Hr) Hma) as (La & HLa & Hca).
  destruct (shape_lookup _ _ _ _ (proj1 Hr) Hmb) as (Lb & HLb & Hcb).
  pose proof (proj2 Hr _ _ _ HLa Hma) as Hsa.
  pose proof (proj2 Hr _ _ _ HLb Hmb) as Hsb.
  rewrite /operator_eq {1}/bind /operator_eq_traced.
  erewrite (bind_ok (read_next (AtHead a)));
    [|eapply read_next_ok; by rewrite /= HLa].
  erewrite (bind_ok (read_next (AtHead b)));
    [|eapply read_next_ok; by rewrite /= HLb].
  case_bool_decide as Hhead.
  { rewrite decide_True //.
    destruct (decide (a = b)) as [->|Hne]; [by left|right].
    exact (shared_begin_empty _ _ _ _ _ _ _ _ (proj1 Hr) Hne Hma Hmb
             HLa HLb Hhead). }
  rewrite decide_False;
    [|intros [->|[-> ->]];
      [congruence|apply chain_head in Hca, Hcb; simpl in *; congruence]].
  erewrite (bind_ok (read_size a)); [|by eapply read_size_ok].
  erewrite (bind_ok (read_size b)); [|by eapply read_size_ok].
  rewrite Hsa Hsb. case_bool_decide as Hsize.
  { rewrite decide_False //. intros Hlen. apply Hsize. by rewrite Hlen. }
  rewrite decide_True; [|lia].
  pose proof (chain_length_le _ _ _ Hca) as Hfuel.
  destruct w.
  - rewrite (std_equal_chain _ _ _ _ _ csa csb) //. lia.
  - rewrite (equal_loop_chain _ _ _ _ _ csa csb) //. lia.
Qed.

Lemma equal_run_sym differ xs ys :
  (∀ x y, differ x y = differ y x) → length xs = length ys →
  (equal_run differ xs ys).1 = (equal_run differ ys xs).1.
Proof.
  intros Hsym. revert ys.
  induction xs as [|x xs IH]; intros [|y ys] Hlen; simplify_eq/=; [done|].
  rewrite (Hsym y x). destruct (differ x y); [done|]. simpl. by apply IH.
Qed.

(** X20.  A list compared with itself is equal to itself, not different,
    [<=] and [>=] itself, and no two elements are compared for it:
    every operator built on [operator==] answers at the test of the two
    [begin()]s, whatever the element's own [operator==] does. *)
Theorem comparison_with_itself w σ a :
  is_live σ a →
  operator_eq_traced w a a σ = Ok σ (true, []) ∧
  operator_eq w a a σ = Ok σ true ∧
  operator_ne w a a σ = Ok σ false ∧
  operator_le w a a σ = Ok σ true ∧
  operator_ge w a a σ = Ok σ true.
Proof.
  intros [La HLa].
  assert (operator_eq_traced w a a σ = Ok σ (true, [])) as Htraced.
  { rewrite /operator_eq_traced.
    erewrite bind_ok; [|eapply read_next_ok; by rewrite /= HLa].
    erewrite bind_ok; [|eapply read_next_ok; by rewrite /= HLa].
    by rewrite bool_decide_true. }
  assert (operator_eq w a a σ = Ok σ true) as Heq
    by by rewrite /operator_eq /bind Htraced.
  split_and!; [done|done|..].
  - by rewrite /operator_ne /bind Heq.
  - by rewrite /operator_le /bind Heq.
  - by rewrite /operator_ge /bind Heq.
Qed.

(** X21.  With a symmetric [operator==] (and [operator!=]) on the
    elements, [operator==] and [operator!=] on lists are symmetric. *)
Theorem operator_eq_symmetric w σ a b :
  store_inv σ → is_live σ a → is_live σ b →
  (∀ x y, eq_op x y = eq_op y x) → (∀ x y, ne_op x y = ne_op y x) →
  ∃ r, operator_eq w a b σ = Ok σ r ∧ operator_eq w b a σ = Ok σ r ∧
       operator_ne w a b σ = Ok σ (negb r) ∧
       operator_ne w b a σ = Ok σ (negb r).
Proof.
  intros [m Hr] [La HLa] [Lb HLb] Heq Hne.
  destruct (shape_live _ _ _ _ (proj1 Hr) HLa) as (csa & Hma & _).
  destruct (shape_live _ _ _ _ (proj1 Hr) HLb) as (csb & Hmb & _).
  pose proof (operator_eq_value w σ m a b csa csb Hr Hma Hmb) as Hab.
  pose proof (operator_eq_value w σ m b a csb csa Hr Hmb Hma) as Hba.
  eexists. split; [exact Hab|].
  assert (operator_eq w b a σ = Ok σ
            (if decide (a = b ∨ csa = [] ∧ csb = []) then true
             else if decide (length csa = length csb)
                  then (equal_run (match w with
                                   | header => λ x y, negb (eq_op x y)
                                   | part_000 => ne_op
                                   end) csa.*2 csb.*2).1
                  else false)) as Hba'.
  { rewrite Hba. f_equal.
    destruct (decide (a = b ∨ csa = [] ∧ csb = [])) as [Hd|Hd].
    - rewrite decide_True //. destruct Hd as [->|[-> ->]]; [by left|by right].
    - rewrite decide_False;
        [|intros [->|[-> ->]]; apply Hd; [by left|by right]].
      destruct (decide (length csa = length csb)) as [Hlen|Hlen].
      + rewrite decide_True //. apply equal_run_sym.
        * intros x y. destruct w; [by rewrite Heq|done].
        * by rewrite !length_fmap.
      + by rewrite decide_False. }
  split; [done|]. by rewrite /operator_ne /bind Hab Hba'.
Qed.

(** X22.  [operator<] is the lexicographic order of the traversals: of
    two lists with a common prefix, the one that ends there is less
    than one that goes on, and otherwise the first elements behind the
    prefix decide when one of them is less than the other. *)
Theorem operator_lt_lexicographic w σ a b common sa sb :
  store_inv σ → (∀ x, lt_op x x = false) →
  traversal σ a = Some (common ++ sa) →
  traversal σ b = Some (common ++ sb) →
  ∃ r, operator_lt w a b σ = Ok σ r ∧
       (sa = [] → r = bool_decide (sb ≠ [])) ∧
       (sb = [] → r = false) ∧
       (∀ x y, head sa = Some x → head sb = Some y →
               lt_op x y = true ∨ lt_op y x = true → r = lt_op x y).
Proof.
  intros [m Hr] Hirr Ha Hb.
  destruct (traversal_repr _ _ _ _ Hr Ha) as (csa & Hma & Hxs).
  destruct (traversal_repr _ _ _ _ Hr Hb) as (csb & Hmb & Hys).
  exists (lex lt_op sa sb). split.
  - rewrite /operator_lt
      (compare_with_lex w lt_op σ m a b csa csb (proj1 Hr) Hma Hmb).
    rewrite -Hxs -Hys. f_equal.
    clear Ha Hb Hxs Hys. induction common as [|c common IH]; simpl; [done|].
    by rewrite Hirr.
  - split_and!.
    + intros ->. by destruct sb.
    + intros ->. by destruct sa.
    + intros x y Hx Hy Hdiff.
      destruct sa as [|x' sa], sb as [|y' sb]; simplify_eq/=.
      destruct (lt_op x y); [done|]. by destruct Hdiff as [?| ->].
Qed.

Lemma lex_le_total (xs ys : list Type_) :
  (∀ x y, lt_op x y = true → lt_op y x = false) →
  (∀ x y, eq_op x y = true ↔ lt_op x y = false ∧ lt_op y x = false) →
  lex lt_op ys xs = false
  ↔ lex lt_op xs ys = true ∨ Forall2 (λ x y, eq_op x y = true) xs ys.
Proof.
  intros Hasym Heq. revert ys.
  induction xs as [|x xs IH]; intros [|y ys]; simpl.
  - split; [right; constructor|done].
  - split; [by left|done].
  - split; [done|]. intros [?|Hall]; [done|inversion Hall].
  - destruct (lt_op x y) eqn:Hxy.
    + rewrite (Hasym _ _ Hxy). split; [by left|done].
    + destruct (lt_op y x) eqn:Hyx.
      * split; [done|]. intros [?|Hall]; [done|].
        inversion Hall as [|???? Hhead]; subst.
        apply Heq in Hhead as [_ ?]. congruence.
      * rewrite IH. split.
        -- intros [?|Hall]; [by left|right]. constructor; [|done].
           by apply Heq.
        -- intros [?|Hall]; [by left|right]. by inversion Hall.
Qed.

(** X23.  When the element's [operator<] is asymmetric and two elements
    are [==] exactly when neither is less than the other (and [!=] is the
    negation of [==]), [a <= b] on lists holds exactly when [b < a] does
    not. *)
Theorem operator_le_not_lt w σ a b :
  store_inv σ → is_live σ a → is_live σ b →
  (∀ x y, lt_op x y = true → lt_op y x = false) →
  (∀ x y, eq_op x y = true ↔ lt_op x y = false ∧ lt_op y x = false) →
  (∀ x y, ne_op x y = negb (eq_op x y)) →
  ∃ r, operator_le w a b σ = Ok σ r ∧ operator_lt w b a σ = Ok σ (negb r).
Proof.
  intros [m Hr] [La HLa] [Lb HLb] Hasym Heq Hne.
  destruct (shape_live _ _ _ _ (proj1 Hr) HLa) as (csa & Hma & _).
  destruct (shape_live _ _ _ _ (proj1 Hr) HLb) as (csb & Hmb & _).
  pose proof (operator_eq_value w σ m a b csa csb Hr Hma Hmb) as Hab.
  pose proof (compare_with_lex w lt_op σ m a b csa csb (proj1 Hr) Hma Hmb)
    as Hlt.
  pose proof (compare_with_lex w lt_op σ m b a csb csa (proj1 Hr) Hmb Hma)
    as Hgt.
  pose proof (lex_le_total csa.*2 csb.*2 Hasym Heq) as Htotal.
  assert (∀ x, eq_op x x = true) as Hrefl.
  { intros x. apply Heq. destruct (lt_op x x) eqn:Hx; [|done].
    pose proof (Hasym _ _ Hx). congruence. }
  assert (∀ xs ys : list Type_,
            length xs = length ys →
            (equal_run (match w with
                        | header => λ x y, negb (eq_op x y)
                        | part_000 => ne_op
                        end) xs ys).1 = true
            ↔ Forall2 (λ x y, eq_op x y = true) xs ys) as Hrun.
  { intros xs ys Hlen. rewrite equal_run_true //.
    split; (intros Hall; eapply Forall2_impl; [done|]); intros x y;
      destruct w; rewrite /= ?Hne; by destruct (eq_op x y). }
  rewrite /operator_le /bind Hab /operator_lt Hgt.
  destruct (decide (a = b ∨ csa = [] ∧ csb = [])) as [Hsame|Hdiff].
  { exists true. split; [done|]. f_equal. simpl. apply Htotal. right.
    destruct Hsame as [->|[-> ->]]; [|constructor].
    assert (csa = csb) as -> by congruence.
    generalize (csb.*2). intros l. induction l; by constructor. }
  destruct (decide (length csa = length csb)) as [Hlen|Hlen].
  - destruct (equal_run _ csa.*2 csb.*2).1 eqn:He.
    + exists true. split; [done|]. f_equal. simpl. apply Htotal. right.
      apply Hrun; [by rewrite !length_fmap|done].
    + rewrite Hlt. eexists. split; [done|]. f_equal.
      destruct (lex lt_op csa.*2 csb.*2) eqn:Hl; simpl.
      * apply Htotal. by left.
      * apply not_false_iff_true. rewrite Htotal.
        intros [?|Hall]; [done|].
        apply Hrun in Hall; [congruence|by rewrite !length_fmap].
  - rewrite Hlt. eexists. split; [done|]. f_equal.
    destruct (lex lt_op csa.*2 csb.*2) eqn:Hl; simpl.
    + apply Htotal. by left.
    + apply not_false_iff_true. rewrite Htotal.
      intros [?|Hall]; [done|].
      apply Forall2_length in Hall. by rewrite !length_fmap in Hall.
Qed.

(** ** The two copies of the header side by side *)









End Theory.

End SingleLinkedList.

Arguments Ok {Type_ A} σ a.
Arguments Throws {Type_ A} σ.
Arguments AssertFail {Type_ A}.
Arguments Undefined {Type_ A}.
Arguments OutOfFuel {Type_ A}.

(** * The lists of the specification's examples

    Lists of integers, on a free store with room for sixteen nodes. *)

Definition int_capacity : nat := 16.

Definition never_throws (_ : Z) : bool := false.

Definition throws_on_negative (z : Z) : bool := z <? 0.

Definition int_ne (x y : Z) : bool := negb (x =? y).

(** The store after a sequence of calls; a call that does not return
    leaves it as it is. *)
Definition after (w : variant) (calls : list (call Z)) : store Z :=
  foldl (λ σ c, match run Z never_throws int_capacity w c σ with
                | Ok σ' _ => σ'
                | _ => σ
                end)
        (empty_store Z) calls.

(** One list, [{1, 2, 3}]: object 1 with its nodes at 1, 2 and 3. *)
Definition store_123 (w : variant) : store Z := after w [CallInit Z [1; 2; 3]].

(** Two lists, [{1}] and [{2, 3}]. *)
Definition store_1_23 (w : variant) : store Z :=
  after w [CallInit Z [1]; CallInit Z [2; 3]].

(** Two lists, [{1, 2}] and [{1, 2, 3}]. *)
Definition store_12_123 (w : variant) : store Z :=
  after w [CallInit Z [1; 2]; CallInit Z [1; 2; 3]].

(** One empty list. *)
Definition store_empty_list (w : variant) : store Z := after w [CallDefault Z].

(** The store after the initializer-list constructor has thrown at [-1]
    behind [5], next to the list [{1, 2, 3}]. *)
Definition store_123_after_throw : store Z :=
  match SingleLinkedList_init Z throws_on_negative int_capacity header
          [5; -1] (store_123 header) with
  | Throws σ' => σ'
  | _ => store_123 header
  end.

Lemma int_capacity_fits : Z.of_nat int_capacity < size_t_modulus.
Proof. reflexivity. Qed.

(** One more returning call on a store reached by [calls]. *)
Lemma after_reachable w calls c :
  reachable Z never_throws int_capacity w (after w calls) →
  contract Z (after w calls) c →
  (∃ σ', run Z never_throws int_capacity w c (after w calls) = Ok σ' tt) →
  reachable Z never_throws int_capacity w (after w (calls ++ [c])).
Proof.
  intros Hreach Hpre [σ' Hrun].
  rewrite /after foldl_app /= -/(after w calls) Hrun.
  by eapply reachable_return.
Qed.

Lemma store_123_reachable w :
  reachable Z never_throws int_capacity w (store_123 w).
Proof.
  apply (after_reachable w []); [apply reachable_empty|exact I|].
  eexists. by destruct w; vm_compute.
Qed.

Lemma store_1_23_reachable w :
  reachable Z never_throws int_capacity w (store_1_23 w).
Proof.
  apply (after_reachable w [_]);
    [apply (after_reachable w []); [apply reachable_empty|exact I|]
    |exact I|];
    eexists; by destruct w; vm_compute.
Qed.

Lemma store_12_123_reachable w :
  reachable Z never_throws int_capacity w (store_12_123 w).
Proof.
  apply (after_reachable w [_]);
    [apply (after_reachable w []); [apply reachable_empty|exact I|]
    |exact I|];
    eexists; by destruct w; vm_compute.
Qed.

Lemma store_empty_list_reachable w :
  reachable Z never_throws int_capacity w (store_empty_list w).
Proof.
  apply (after_reachable w []); [apply reachable_empty|exact I|].
  eexists. by destruct w; vm_compute.
Qed.

(** C1 fails in the header file: its [swap] returns with both lists as
    they were.  After [swap(A, B)] on [A = {1}] and [B = {2, 3}] the
    traversal of [A] is still [{1}] and its size still 1. *)
Theorem swap_header_exchanges_nothing :
  swap Z header 1 2 (store_1_23 header) = Ok (store_1_23 header) tt ∧
  traversal Z (store_1_23 header) 1 = Some [1] ∧
  traversal Z (store_1_23 header) 2 = Some [2; 3] ∧
  GetSize Z (store_1_23 header) 1 = Some 1 ∧
  GetSize Z (store_1_23 header) 2 = Some 2.
Proof. by vm_compute. Qed.

(** C2 fails for [operator>] in both files: with [a = {1, 2}] a strict
    prefix of [b = {1, 2, 3}], [a > b] is true although [b < a] is false,
    and [a < b] is true as well. *)
Theorem operator_gt_prefix_is_greater w :
  operator_gt Z Z.gtb w 1 2 (store_12_123 w) = Ok (store_12_123 w) true ∧
  operator_lt Z Z.ltb w 2 1 (store_12_123 w) = Ok (store_12_123 w) false ∧
  operator_lt Z Z.ltb w 1 2 (store_12_123 w) = Ok (store_12_123 w) true.
Proof. by destruct w; vm_compute. Qed.

Lemma store_123_inv w : store_inv Z int_capacity (store_123 w).
Proof.
  exact (reachable_store_inv Z never_throws int_capacity int_capacity_fits
           w _ (store_123_reachable w)).
Qed.

Lemma store_12_123_inv w : store_inv Z int_capacity (store_12_123 w).
Proof.
  exact (reachable_store_inv Z never_throws int_capacity int_capacity_fits
           w _ (store_12_123_reachable w)).
Qed.

Lemma store_empty_list_inv w : store_inv Z int_capacity (store_empty_list w).
Proof.
  exact (reachable_store_inv Z never_throws int_capacity int_capacity_fits
           w _ (store_empty_list_reachable w)).
Qed.

Lemma empty_store_inv : store_inv Z int_capacity (empty_store Z).
Proof.
  exact (reachable_store_inv Z never_throws int_capacity int_capacity_fits
           header _ (reachable_empty Z never_throws int_capacity header)).
Qed.

(** C3 at [{1, 2}] against [{1, 2, 3}]: not equal, nothing compared. *)
Lemma operator_eq_spec_witness :
  ∃ r compared,
    operator_eq_traced Z Z.eqb int_ne header 1 2 (store_12_123 header)
    = Ok (store_12_123 header) (r, compared) ∧
    operator_eq Z Z.eqb int_ne header 1 2 (store_12_123 header)
    = Ok (store_12_123 header) r ∧
    (r = true ↔
     1%positive = 2%positive ∨
     (GetSize Z (store_12_123 header) 1 = GetSize Z (store_12_123 header) 2 ∧
      Forall2 (λ x y, (x =? y) = true) [1; 2] [1; 2; 3])) ∧
    (GetSize Z (store_12_123 header) 1 ≠ GetSize Z (store_12_123 header) 2 →
     r = false ∧ compared = []).
Proof.
  apply (operator_eq_spec Z Z.eqb int_ne int_capacity header
           (store_12_123 header) 1 2 [1; 2] [1; 2; 3]).
  - apply store_12_123_inv.
  - reflexivity.
  - vm_compute. reflexivity.
  - vm_compute. reflexivity.
Defined.

(** C4 at [{1, 2, 3}] with an element type whose copy throws on negative
    values: inserting [-1] behind the first node throws, store unchanged. *)
Lemma InsertAfter_strong_guarantee_witness :
  InsertAfter Z throws_on_negative int_capacity header 1 (Some (AtNode 1)) (-1)
    (store_123 header)
  = Throws (store_123 header) ∧
  ∀ pos v' σ',
    InsertAfter Z throws_on_negative int_capacity header 1 pos v'
      (store_123 header) = Throws σ' →
    σ' = store_123 header.
Proof.
  apply (InsertAfter_strong_guarantee Z throws_on_negative int_capacity header
           (store_123 header) 1 (AtNode 1) (-1)).
  - vm_compute. eexists. reflexivity.
  - left. reflexivity.
Defined.

(** C5 at the sequence [1, 2, 3] on the empty store. *)
Lemma SingleLinkedList_init_traversal_witness :
  ∃ σ' this,
    SingleLinkedList_init Z never_throws int_capacity header [1; 2; 3]
      (empty_store Z) = Ok σ' this ∧
    traversal Z σ' this = Some [1; 2; 3] ∧
    GetSize Z σ' this = Some (Z.of_nat (length [1; 2; 3])).
Proof.
  apply (SingleLinkedList_init_traversal Z never_throws int_capacity header
           [1; 2; 3] (empty_store Z)).
  - apply empty_store_inv.
  - repeat constructor.
  - vm_compute. lia.
Defined.

(** C6 at [{1, 2, 3}]: inserting 99 behind the first element, which is
    one step behind [before_begin()]. *)
Lemma InsertAfter_inserts_witness :
  ∃ σ' it,
    InsertAfter Z never_throws int_capacity header 1 (Some (AtNode 1)) 99
      (store_123 header) = Ok σ' it ∧
    traversal Z σ' 1 = Some (take 1 [1; 2; 3] ++ 99 :: drop 1 [1; 2; 3]) ∧
    (take 1 [1; 2; 3] ++ 99 :: drop 1 [1; 2; 3]) !! 1%nat = Some 99 ∧
    iter_deref Z header it σ' = Ok σ' 99 ∧
    refers Z σ' 1 2 it ∧
    GetSize Z σ' 1 = Some (Z.of_nat (length [1; 2; 3]) + 1).
Proof.
  apply (InsertAfter_inserts Z never_throws int_capacity int_capacity_fits
           header (store_123 header) 1 1 (AtNode 1) 99 [1; 2; 3]).
  - apply store_123_inv.
  - vm_compute. reflexivity.
  - vm_compute. reflexivity.
  - reflexivity.
  - vm_compute. lia.
Defined.

(** C7 at [{1, 2, 3}]: erasing behind [before_begin()], whose successor
    is the first node. *)
Lemma EraseAfter_erases_witness :
  ∃ σ' nx,
    EraseAfter Z header 1 (Some (AtHead 1)) (store_123 header)
    = Ok σ' (AtNode <$> nx) ∧
    traversal Z σ' 1 = Some (take 0 [1; 2; 3] ++ drop 1 [1; 2; 3]) ∧
    GetSize Z σ' 1 = Some (Z.of_nat (length [1; 2; 3]) - 1) ∧
    load_next Z (store_123 header) (AtNode 1) = Some nx ∧
    load_next Z σ' (AtHead 1) = Some nx ∧
    load_next Z σ' (AtNode 1) = None ∧
    refers Z σ' 1 1 (AtNode <$> nx).
Proof.
  apply (EraseAfter_erases Z int_capacity int_capacity_fits header
           (store_123 header) 1 0 (AtHead 1) (AtNode 1) [1; 2; 3]).
  - apply store_123_inv.
  - vm_compute. reflexivity.
  - vm_compute. reflexivity.
  - vm_compute. reflexivity.
Defined.

(** C8 at the store holding [{1, 2}] and [{1, 2, 3}], for the second
    list. *)
Lemma reachable_invariant_witness :
  ∃ cs,
    chain Z (nodes Z (store_12_123 part_000)) (Some 3%positive) cs ∧
    3 = Z.of_nat (length cs) ∧
    NoDup cs.*1 ∧
    (∀ a v, last cs = Some (a, v) →
            ∃ n, nodes Z (store_12_123 part_000) !! a = Some n ∧
                 next_node Z n = None) ∧
    traversal Z (store_12_123 part_000) 2 = Some cs.*2 ∧
    GetSize Z (store_12_123 part_000) 2 = Some (Z.of_nat (length cs)).
Proof.
  apply (reachable_invariant Z never_throws int_capacity int_capacity_fits
           part_000 (store_12_123 part_000) 2 (mkList (Some 3%positive) 3)).
  - apply store_12_123_reachable.
  - vm_compute. reflexivity.
Defined.

(** C9 at [{1, 2, 3}] and the value 0. *)
Lemma InsertAfter_before_begin_PushFront_witness :
  ∃ σ2 it,
    InsertAfter Z never_throws int_capacity header 1 (before_begin 1) 0
      (store_123 header) = Ok σ2 it ∧
    traversal Z σ2 1 = Some [0; 1; 2; 3] ∧
    begin Z σ2 1 = Some it.
Proof.
  destruct (InsertAfter_before_begin_PushFront Z never_throws int_capacity
              header (store_123 header) 1 0) as [Hreturns _].
  destruct (Hreturns (after header [CallInit Z [1; 2; 3]; CallPushFront Z 1 0]))
    as (σ2 & it & Hrun & -> & _ & _ & Hbegin).
  - vm_compute. reflexivity.
  - exists (after header [CallInit Z [1; 2; 3]; CallPushFront Z 1 0]), it.
    split; [exact Hrun|]. split; [|exact Hbegin].
    vm_compute. reflexivity.
Defined.

(** C10 at a default-constructed list. *)
Lemma PopFront_header_empty_noop_witness :
  PopFront Z header 1 (store_empty_list header)
  = Ok (store_empty_list header) tt ∧
  GetSize Z (store_empty_list header) 1 = Some 0 ∧
  traversal Z (store_empty_list header) 1 = Some [].
Proof.
  apply (PopFront_header_empty_noop Z int_capacity (store_empty_list header) 1).
  - apply store_empty_list_inv.
  - vm_compute. reflexivity.
Defined.

(** * Beyond the claims, at the same lists *)

Lemma store_1_23_inv w : store_inv Z int_capacity (store_1_23 w).
Proof.
  exact (reachable_store_inv Z never_throws int_capacity int_capacity_fits
           w _ (store_1_23_reachable w)).
Qed.

(** X1 at [{1}] and [{2, 3}]: [PushFront(0)] on the first list leaves
    the second alone. *)
Lemma run_frame_witness :
  traversal Z (after header [CallInit Z [1]; CallInit Z [2; 3];
                             CallPushFront Z 1 0]) 2
  = traversal Z (store_1_23 header) 2 ∧
  GetSize Z (after header [CallInit Z [1]; CallInit Z [2; 3];
                           CallPushFront Z 1 0]) 2
  = GetSize Z (store_1_23 header) 2.
Proof.
  apply (run_frame Z never_throws int_capacity int_capacity_fits header
           (store_1_23 header) (CallPushFront Z 1 0)).
  - apply store_1_23_inv.
  - vm_compute. eexists. reflexivity.
  - left. vm_compute. reflexivity.
  - simpl. apply not_elem_of_cons. split; [discriminate|apply not_elem_of_nil].
  - vm_compute. eexists. reflexivity.
Defined.

(** X2 at [{1, 2, 3}]: 99 inserted behind the first element and erased
    again. *)
Lemma InsertAfter_EraseAfter_roundtrip_witness :
  ∃ σ1 it,
    InsertAfter Z never_throws int_capacity header 1 (Some (AtNode 1)) 99
      (store_123 header) = Ok σ1 it ∧
    EraseAfter Z header 1 (Some (AtNode 1)) σ1
    = Ok (store_123 header) (AtNode <$> Some 2%positive).
Proof.
  apply (InsertAfter_EraseAfter_roundtrip Z never_throws int_capacity
           int_capacity_fits header (store_123 header) 1 1 (AtNode 1) 99
           (Some 2%positive)).
  - apply store_123_inv.
  - vm_compute. eexists. reflexivity.
  - vm_compute. reflexivity.
  - vm_compute. reflexivity.
  - reflexivity.
  - vm_compute. lia.
Defined.

(** X3 at [{1, 2, 3}] and the value 0. *)
Lemma PushFront_front_witness :
  ∃ σ' it,
    PushFront Z never_throws int_capacity 1 0 (store_123 header) = Ok σ' tt ∧
    traversal Z σ' 1 = Some [0; 1; 2; 3] ∧
    GetSize Z σ' 1 = Some (Z.of_nat (length [1; 2; 3]) + 1) ∧
    begin Z σ' 1 = Some it ∧
    iter_deref Z header it σ' = Ok σ' 0.
Proof.
  apply (PushFront_front Z never_throws int_capacity int_capacity_fits header
           (store_123 header) 1 0 [1; 2; 3]).
  - apply store_123_inv.
  - vm_compute. reflexivity.
  - reflexivity.
  - vm_compute. lia.
Defined.

(** X4 at [{1, 2, 3}] with an element whose copy throws. *)
Lemma PushFront_strong_guarantee_witness :
  (∀ σ', PushFront Z throws_on_negative int_capacity 1 (-1) (store_123 header)
         = Throws σ' → σ' = store_123 header) ∧
  (PushFront Z throws_on_negative int_capacity 1 (-1) (store_123 header)
   = Throws (store_123 header)
   ↔ throws_on_negative (-1) = true ∨
     ¬ (size (nodes Z (store_123 header)) < int_capacity)%nat).
Proof.
  apply (PushFront_strong_guarantee Z throws_on_negative int_capacity
           (store_123 header) 1 (-1)).
  vm_compute. eexists. reflexivity.
Defined.

(** X5 at [{1, 2, 3}]. *)
Lemma PopFront_pops_witness :
  ∃ σ' c,
    begin Z (store_123 header) 1 = Some (Some (AtNode c)) ∧
    PopFront Z header 1 (store_123 header) = Ok σ' tt ∧
    traversal Z σ' 1 = Some [2; 3] ∧
    GetSize Z σ' 1 = Some (Z.of_nat (length [2; 3])) ∧
    nodes Z σ' !! c = None.
Proof.
  apply (PopFront_pops Z int_capacity int_capacity_fits header
           (store_123 header) 1 1 [2; 3]).
  - apply store_123_inv.
  - vm_compute. reflexivity.
Defined.

(** X6 at [{1, 2, 3}] and the value 0. *)
Lemma PushFront_PopFront_roundtrip_witness :
  ∃ σ1,
    PushFront Z never_throws int_capacity 1 0 (store_123 header) = Ok σ1 tt ∧
    PopFront Z header 1 σ1 = Ok (store_123 header) tt.
Proof.
  apply (PushFront_PopFront_roundtrip Z never_throws int_capacity
           int_capacity_fits header (store_123 header) 1 0).
  - apply store_123_inv.
  - vm_compute. eexists. reflexivity.
  - reflexivity.
  - vm_compute. lia.
Defined.

(** X7 at [{1, 2, 3}], in the second copy. *)
Lemma Clear_clears_witness :
  ∃ σ',
    Clear Z part_000 1 (store_123 part_000) = Ok σ' tt ∧
    traversal Z σ' 1 = Some [] ∧
    GetSize Z σ' 1 = Some 0 ∧
    IsEmpty Z σ' 1 = Some true ∧
    begin Z σ' 1 = Some end_ ∧
    (size (nodes Z σ') + length [1; 2; 3]
     = size (nodes Z (store_123 part_000)))%nat.
Proof.
  apply (Clear_clears Z int_capacity int_capacity_fits part_000
           (store_123 part_000) 1 [1; 2; 3]).
  - apply store_123_inv.
  - vm_compute. reflexivity.
Defined.

(** X8 at [{1, 2, 3}]. *)
Lemma Clear_idempotent_witness :
  ∃ σ', Clear Z header 1 (store_123 header) = Ok σ' tt ∧
        Clear Z header 1 σ' = Ok σ' tt.
Proof.
  apply (Clear_idempotent Z int_capacity int_capacity_fits header
           (store_123 header) 1).
  - apply store_123_inv.
  - vm_compute. eexists. reflexivity.
Defined.

(** X9 at [{1, 2, 3}]. *)
Lemma destructor_releases_witness :
  ∃ σ',
    destructor Z header 1 (store_123 header) = Ok σ' tt ∧
    lists Z σ' !! 1%positive = None ∧
    (size (nodes Z σ') + length [1; 2; 3]
     = size (nodes Z (store_123 header)))%nat ∧
    store_inv Z int_capacity σ'.
Proof.
  apply (destructor_releases Z int_capacity int_capacity_fits header
           (store_123 header) 1 [1; 2; 3]).
  - apply store_123_inv.
  - vm_compute. reflexivity.
Defined.

(** X10 at [{1, 2, 3}]: not empty. *)
Lemma IsEmpty_spec_witness :
  IsEmpty Z (store_123 header) 1 = Some false ∧
  (begin Z (store_123 header) 1 = Some end_ ↔ [1; 2; 3] = @nil Z).
Proof.
  apply (IsEmpty_spec Z int_capacity (store_123 header) 1 [1; 2; 3]).
  - apply store_123_inv.
  - vm_compute. reflexivity.
Defined.

(** X11 at [{1, 2, 3}]. *)
Lemma iterator_walk_witness :
  ∃ first,
    begin Z (store_123 header) 1 = Some first ∧
    iter_next Z header (before_begin 1) (store_123 header)
    = Ok (store_123 header) first ∧
    iter_advance Z header (length [1; 2; 3]) first (store_123 header)
    = Ok (store_123 header) end_ ∧
    ∀ i x, [1; 2; 3] !! i = Some x →
           ∃ it, iter_advance Z header i first (store_123 header)
                 = Ok (store_123 header) it ∧
                 iter_deref Z header it (store_123 header)
                 = Ok (store_123 header) x.
Proof.
  apply (iterator_walk Z int_capacity header (store_123 header) 1 [1; 2; 3]).
  - apply store_123_inv.
  - vm_compute. reflexivity.
Defined.

(** X12 at [{1, 2, 3}]. *)
Lemma copy_constructor_copies_witness :
  ∃ σ' this,
    SingleLinkedList_copy Z never_throws int_capacity header 1
      (store_123 header) = Ok σ' this ∧
    lists Z (store_123 header) !! this = None ∧
    traversal Z σ' this = Some [1; 2; 3] ∧
    traversal Z σ' 1 = Some [1; 2; 3] ∧
    GetSize Z σ' this = Some (Z.of_nat (length [1; 2; 3])) ∧
    GetSize Z σ' 1 = Some (Z.of_nat (length [1; 2; 3])).
Proof.
  apply (copy_constructor_copies Z never_throws int_capacity header
           (store_123 header) 1 [1; 2; 3]).
  - apply store_123_inv.
  - vm_compute. reflexivity.
  - repeat constructor.
  - vm_compute. lia.
Defined.

(** X13 next to [{1, 2, 3}]: the constructor from [{5, -1}] throws at
    [-1]. *)
Lemma constructors_throw_keep_lists_witness :
  lists Z store_123_after_throw = lists Z (store_123 header) ∧
  ∀ l, traversal Z store_123_after_throw l = traversal Z (store_123 header) l.
Proof.
  destruct (constructors_throw_keep_lists Z throws_on_negative int_capacity
              header (store_123 header) store_123_after_throw
              (store_123_inv header)) as [Hinit _].
  apply (Hinit [5; -1]). vm_compute. reflexivity.
Defined.

(** X14 next to [{1, 2, 3}]: the node built for 5 is leaked. *)
Lemma init_constructor_leaks_witness :
  ∃ σ',
    SingleLinkedList_init Z throws_on_negative int_capacity header
      ([5] ++ -1 :: [7]) (store_123 header) = Throws σ' ∧
    lists Z σ' = lists Z (store_123 header) ∧
    (∀ l, traversal Z σ' l = traversal Z (store_123 header) l) ∧
    size (nodes Z σ') = (size (nodes Z (store_123 header)) + length [5])%nat.
Proof.
  apply (init_constructor_leaks Z throws_on_negative int_capacity header
           (store_123 header) [5] (-1) [7]).
  - apply store_123_inv.
  - repeat constructor.
  - reflexivity.
  - vm_compute. lia.
Defined.

(** X15 at [{1}] and [{2, 3}]: the first list assigned from the second. *)
Lemma assign_copies_witness :
  ∃ σ',
    assign Z never_throws int_capacity part_000 1 2 (store_1_23 part_000)
    = Ok σ' tt ∧
    traversal Z σ' 1 = Some [2; 3] ∧
    traversal Z σ' 2 = Some [2; 3] ∧
    GetSize Z σ' 1 = Some (Z.of_nat (length [2; 3])) ∧
    GetSize Z σ' 2 = Some (Z.of_nat (length [2; 3])).
Proof.
  apply (assign_copies Z never_throws int_capacity int_capacity_fits
           (store_1_23 part_000) 1 2 [1] [2; 3]).
  - apply store_1_23_inv.
  - vm_compute. reflexivity.
  - vm_compute. reflexivity.
  - discriminate.
  - repeat constructor.
  - vm_compute. lia.
Defined.

(** X16 at [{1}] and [{2, 3}]. *)
Lemma assign_guarantees_witness :
  assign Z throws_on_negative int_capacity header 1 1 (store_1_23 header)
  = Ok (store_1_23 header) tt ∧
  ∀ σ', assign Z throws_on_negative int_capacity header 1 2
          (store_1_23 header) = Throws σ' →
        lists Z σ' = lists Z (store_1_23 header) ∧
        ∀ l, traversal Z σ' l = traversal Z (store_1_23 header) l.
Proof.
  apply (assign_guarantees Z throws_on_negative int_capacity
           int_capacity_fits header (store_1_23 header) 1 2).
  - apply store_1_23_inv.
  - vm_compute. eexists. reflexivity.
  - vm_compute. eexists. reflexivity.
Defined.

(** X17 at [{1}] and [{2, 3}]. *)
Lemma swap_part_000_involution_witness :
  swap Z part_000 1 1 (store_1_23 part_000) = Ok (store_1_23 part_000) tt ∧
  ∃ σ1,
    swap Z part_000 1 2 (store_1_23 part_000) = Ok σ1 tt ∧
    swap Z part_000 2 1 (store_1_23 part_000) = Ok σ1 tt ∧
    nodes Z σ1 = nodes Z (store_1_23 part_000) ∧
    swap Z part_000 1 2 σ1 = Ok (store_1_23 part_000) tt.
Proof.
  apply (swap_part_000_involution Z (store_1_23 part_000) 1 2).
  - vm_compute. eexists. reflexivity.
  - vm_compute. eexists. reflexivity.
Defined.

(** X18 at [{1, 2, 3}]: [EraseAfter] at the last node, three steps
    behind [before_begin()]. *)
Lemma EraseAfter_at_last_witness :
  EraseAfter Z header 1 (Some (AtNode 3)) (store_123 header) = Undefined.
Proof.
  apply (EraseAfter_at_last Z int_capacity header (store_123 header) 1
           [1; 2; 3] (AtNode 3)).
  - apply store_123_inv.
  - vm_compute. reflexivity.
  - vm_compute. reflexivity.
Defined.

(** X19 at a default-constructed list. *)
Lemma PopFront_part_000_empty_undefined_witness :
  PopFront Z part_000 1 (store_empty_list part_000) = Undefined.
Proof.
  apply (PopFront_part_000_empty_undefined Z int_capacity
           (store_empty_list part_000) 1).
  - apply store_empty_list_inv.
  - vm_compute. reflexivity.
Defined.

(** X20 at [{1, 2, 3}]. *)
Lemma comparison_with_itself_witness :
  operator_eq_traced Z Z.eqb int_ne header 1 1 (store_123 header)
  = Ok (store_123 header) (true, []) ∧
  operator_eq Z Z.eqb int_ne header 1 1 (store_123 header)
  = Ok (store_123 header) true ∧
  operator_ne Z Z.eqb int_ne header 1 1 (store_123 header)
  = Ok (store_123 header) false ∧
  operator_le Z Z.eqb int_ne Z.ltb header 1 1 (store_123 header)
  = Ok (store_123 header) true ∧
  operator_ge Z Z.eqb int_ne Z.gtb header 1 1 (store_123 header)
  = Ok (store_123 header) true.
Proof.
  apply (comparison_with_itself Z Z.eqb int_ne Z.ltb Z.gtb header
           (store_123 header) 1).
  vm_compute. eexists. reflexivity.
Defined.

(** X21 at [{1, 2}] and [{1, 2, 3}]. *)
Lemma operator_eq_symmetric_witness :
  ∃ r,
    operator_eq Z Z.eqb int_ne header 1 2 (store_12_123 header)
    = Ok (store_12_123 header) r ∧
    operator_eq Z Z.eqb int_ne header 2 1 (store_12_123 header)
    = Ok (store_12_123 header) r ∧
    operator_ne Z Z.eqb int_ne header 1 2 (store_12_123 header)
    = Ok (store_12_123 header) (negb r) ∧
    operator_ne Z Z.eqb int_ne header 2 1 (store_12_123 header)
    = Ok (store_12_123 header) (negb r).
Proof.
  apply (operator_eq_symmetric Z Z.eqb int_ne int_capacity header
           (store_12_123 header) 1 2).
  - apply store_12_123_inv.
  - vm_compute. eexists. reflexivity.
  - vm_compute. eexists. reflexivity.
  - intros x y. apply Z.eqb_sym.
  - intros x y. unfold int_ne. f_equal. apply Z.eqb_sym.
Defined.

(** X22 at [{1, 2}] and [{1, 2, 3}]: the first list ends behind the
    common prefix, so it is less. *)
Lemma operator_lt_lexicographic_witness :
  operator_lt Z Z.ltb header 1 2 (store_12_123 header)
  = Ok (store_12_123 header) true.
Proof.
  destruct (operator_lt_lexicographic Z Z.ltb int_capacity header
              (store_12_123 header) 1 2 [1; 2] [] [3])
    as (r & Hrun & Hprefix & _).
  - apply store_12_123_inv.
  - intros x. apply Z.ltb_irrefl.
  - vm_compute. reflexivity.
  - vm_compute. reflexivity.
  - rewrite Hrun (Hprefix eq_refl). reflexivity.
Defined.

(** X23 at [{1, 2}] and [{1, 2, 3}]. *)
Lemma operator_le_not_lt_witness :
  ∃ r,
    operator_le Z Z.eqb int_ne Z.ltb header 1 2 (store_12_123 header)
    = Ok (store_12_123 header) r ∧
    operator_lt Z Z.ltb header 2 1 (store_12_123 header)
    = Ok (store_12_123 header) (negb r).
Proof.
  apply (operator_le_not_lt Z Z.eqb int_ne Z.ltb int_capacity header
           (store_12_123 header) 1 2).
  - apply store_12_123_inv.
  - vm_compute. eexists. reflexivity.
  - vm_compute. eexists. reflexivity.
  - intros x y. rewrite Z.ltb_lt Z.ltb_ge. lia.
  - intros x y. rewrite Z.eqb_eq !Z.ltb_ge. lia.
  - reflexivity.
Defined.

